(** * plypatch: patch-queue synchronisation between a working repository
      and a patch repository

    A shallow embedding of [plypatch/__init__.py] (classes [WorkingRepo] and
    [PatchRepo]) together with the properties of its series manifest, its
    conflict protocol and its dependency graph.

    Layout: Python string and path primitives, the on-disk world (files and
    git repositories), an exception-and-state monad, the git collaborator,
    [PatchRepo], [WorkingRepo], sample worlds, and then the theorems. *)

From Stdlib Require Import String Ascii List Bool Arith Lia.
From stdpp Require Import base option list gmap sets strings pretty.
Import ListNotations.

(** ** Python string primitives *)

Module Py.

(** [str.isspace] on one character: space, \t, \n, \v, \f, \r. *)
Definition is_space (c : ascii) : bool :=
  match nat_of_ascii c with
  | 32 | 9 | 10 | 11 | 12 | 13 => true
  | _ => false
  end.

Definition newline : ascii := ascii_of_nat 10.
Definition nl : string := String newline "".

(** [s.lstrip()] *)
Fixpoint lstrip (s : string) : string :=
  match s with
  | "" => ""
  | String c s' => if is_space c then lstrip s' else s
  end.

(** [s.rstrip()] *)
Fixpoint rstrip (s : string) : string :=
  match s with
  | "" => ""
  | String c s' =>
      match rstrip s' with
      | "" => if is_space c then "" else String c ""
      | r => String c r
      end
  end.

(** [s.strip()] *)
Definition strip (s : string) : string := rstrip (lstrip s).

(** [s.startswith(p)] *)
Fixpoint startswith (p s : string) : bool :=
  match p, s with
  | "", _ => true
  | String a p', String b s' => Ascii.eqb a b && startswith p' s'
  | String _ _, "" => false
  end.

(** [sub in s] *)
Fixpoint contains (sub s : string) : bool :=
  startswith sub s ||
  match s with
  | "" => false
  | String _ s' => contains sub s'
  end.

(** [s.split(sep, 1)] for a one-character separator. *)
Fixpoint split1 (sep : ascii) (s : string) : list string :=
  match s with
  | "" => [""]
  | String c s' =>
      if Ascii.eqb c sep then [""; s']
      else match split1 sep s' with
           | hd :: tl => String c hd :: tl
           | [] => [String c ""]
           end
  end.

(** Drop the first [n] characters: [s[n:]]. *)
Fixpoint drop (n : nat) (s : string) : string :=
  match n, s with
  | 0, _ => s
  | S n', String _ s' => drop n' s'
  | S _, "" => ""
  end.

(** [s.replace(old, new)] for a non-empty [old]: every non-overlapping
    occurrence, scanning from the left.  [skip] counts the characters of a
    match that are still to be passed over. *)
Fixpoint replace_go (old new : string) (skip : nat) (s : string) : string :=
  match s with
  | "" => ""
  | String c s' =>
      match skip with
      | S k => replace_go old new k s'
      | 0 =>
          if startswith old s
          then new +:+ replace_go old new (String.length old - 1) s'
          else String c (replace_go old new 0 s')
      end
  end.

Definition replace (old new s : string) : string := replace_go old new 0 s.

(** Iterating over an open text file: the lines, each with its terminating
    newline except possibly the last. *)
Fixpoint file_lines (s : string) : list string :=
  match s with
  | "" => []
  | String c s' =>
      if Ascii.eqb c newline then nl :: file_lines s'
      else match file_lines s' with
           | [] => [String c ""]
           | l :: ls => String c l :: ls
           end
  end.

(** ['%s\n' % name] *)
Definition line_of (name : string) : string := name +:+ nl.

(** Truth value of a string or of [None]. *)
Definition truthy (o : option string) : bool :=
  match o with
  | Some (String _ _) => true
  | _ => false
  end.

(** [l.index(x)] *)
Fixpoint index (x : string) (l : list string) : option nat :=
  match l with
  | [] => None
  | y :: l' => if String.eqb y x then Some 0 else S <$> index x l'
  end.

(** [l.insert(i, x)]: an index past the end appends. *)
Definition insert (i : nat) (x : string) (l : list string) : list string :=
  take i l ++ x :: List.skipn i l.

(** [l.remove(x)]: the first occurrence; [None] stands for ValueError. *)
Fixpoint remove (x : string) (l : list string) : option (list string) :=
  match l with
  | [] => None
  | y :: l' => if String.eqb y x then Some l' else cons y <$> remove x l'
  end.

(** [x in l] *)
Definition mem (x : string) (l : list string) : bool :=
  existsb (String.eqb x) l.

(** [s.endswith(suffix)] *)
Definition endswith (suffix s : string) : bool :=
  startswith (String.rev suffix) (String.rev s).

End Py.

(** ** posixpath *)

Module PosixPath.

Definition slash : ascii := "/"%char.

Fixpoint endswith_slash (s : string) : bool :=
  match s with
  | "" => false
  | String c "" => Ascii.eqb c slash
  | String _ s' => endswith_slash s'
  end.

(** [os.path.join(a, b)] *)
Definition join (a b : string) : string :=
  if Py.startswith "/" b then b
  else if String.eqb a "" || endswith_slash a then a +:+ b
  else a +:+ "/" +:+ b.

(** [p[:p.rfind('/') + 1]] *)
Fixpoint head_of (p : string) : string :=
  match p with
  | "" => ""
  | String c p' =>
      match head_of p' with
      | "" => if Ascii.eqb c slash then String c "" else ""
      | h => String c h
      end
  end.

Fixpoint all_slashes (s : string) : bool :=
  match s with
  | "" => true
  | String c s' => Ascii.eqb c slash && all_slashes s'
  end.

(** [head.rstrip('/')] *)
Fixpoint rstrip_slash (s : string) : string :=
  match s with
  | "" => ""
  | String c s' =>
      match rstrip_slash s' with
      | "" => if Ascii.eqb c slash then "" else String c ""
      | r => String c r
      end
  end.

(** [os.path.dirname(p)] *)
Definition dirname (p : string) : string :=
  let head := head_of p in
  if negb (String.eqb head "") && negb (all_slashes head)
  then rstrip_slash head
  else head.

End PosixPath.

(** ** The on-disk world

    Files are addressed by the literal path string handed to [open]; a git
    repository is addressed by the literal path of its work tree.  Path
    strings are compared as written (no normalisation of [.], [..] or doubled
    slashes), and directories are implicit in the file names. *)

Inductive Exc :=
| UncommittedChanges | NoLinkedPatchRepo | AlreadyLinkedToPatchRepo
| PathNotFound | PatchDidNotApplyCleanly | PatchAlreadyApplied | GitException
| ValueError | IndexError | NameError | IOError | OSError
| RecursionDepthExceeded.

Record Commit := mkCommit {
  commit_hash : string;
  commit_msg : string;
  commit_tree : gmap string string
}.

(** An entry of the reflog of HEAD: what moved it, from where, to where. *)
Inductive RefAction := RefCommit | RefAmend | RefAm | RefReset.

Record RefChange := mkRefChange {
  ref_action : RefAction;
  ref_old : option Commit;
  ref_new : option Commit
}.

Record Repo := mkRepo {
  repo_log : list Commit;              (* history, HEAD first *)
  repo_index : gmap string string;     (* staged content by relative path *)
  repo_unmerged : bool;                (* an interrupted [git am] is pending *)
  repo_config : gmap string string;
  repo_reflog : list RefChange         (* latest entry first *)
}.

Record World := mkWorld {
  fs : gmap string string;
  repos : gmap string Repo;
  stderr : list string
}.

Definition set_fs (f : gmap string string) (w : World) : World :=
  mkWorld f (repos w) (stderr w).
Definition set_repos (r : gmap string Repo) (w : World) : World :=
  mkWorld (fs w) r (stderr w).
(** HEAD moves to the tip of [l]; the reflog records it. *)
Definition move_head (action : RefAction) (l : list Commit) (r : Repo) : Repo :=
  mkRepo l (repo_index r) (repo_unmerged r) (repo_config r)
         (mkRefChange action (head (repo_log r)) (head l) :: repo_reflog r).
Definition set_index (i : gmap string string) (r : Repo) : Repo :=
  mkRepo (repo_log r) i (repo_unmerged r) (repo_config r) (repo_reflog r).
Definition set_unmerged (b : bool) (r : Repo) : Repo :=
  mkRepo (repo_log r) (repo_index r) b (repo_config r) (repo_reflog r).
Definition set_config (c : gmap string string) (r : Repo) : Repo :=
  mkRepo (repo_log r) (repo_index r) (repo_unmerged r) c (repo_reflog r).

(** ** Exceptions and state

    A computation runs on a world and ends in a value or in a raised
    exception; the world reached is kept in both cases, since a Python
    exception undoes nothing. *)

Definition M (A : Type) : Type := World → (Exc + A) * World.

Definition ret {A} (x : A) : M A := λ w, (inr x, w).
Definition raise {A} (e : Exc) : M A := λ w, (inl e, w).
Definition bind {A B} (c : M A) (k : A → M B) : M B :=
  λ w, match c w with
       | (inr x, w') => k x w'
       | (inl e, w') => (inl e, w')
       end.

#[global] Instance M_ret : MRet M := @ret.
#[global] Instance M_bind : MBind M := λ A B k c, bind c k.

(** [try: c except e: handler e] where [handler] answers [None] for the
    exceptions it does not catch. *)
Definition try_except {A} (c : M A) (handler : Exc → option (M A)) : M A :=
  λ w, match c w with
       | (inl e, w') =>
           match handler e with
           | Some h => h w'
           | None => (inl e, w')
           end
       | r => r
       end.

Definition lift {A} (r : Exc + A) : M A := λ w, (r, w).

(** *** Files *)

Module Os.

(** [open(path).read()]; a path that names no regular file raises. *)
Definition read (path : string) : M string :=
  λ w, match fs w !! path with
       | Some content => (inr content, w)
       | None => (inl IOError, w)
       end.

(** [open(path, 'w').write(content)] *)
Definition write (path content : string) : M unit :=
  λ w, (inr tt, set_fs (<[path := content]> (fs w)) w).

(** [os.path.exists(path)] on a file *)
Definition exists_ (path : string) : M bool :=
  λ w, (inr (bool_decide (is_Some (fs w !! path))), w).

(** [os.unlink(path)] *)
Definition unlink (path : string) : M unit :=
  λ w, match fs w !! path with
       | Some _ => (inr tt, set_fs (delete path (fs w)) w)
       | None => (inl OSError, w)
       end.

(** [os.rename(src, dst)] *)
Definition rename (src dst : string) : M unit :=
  λ w, match fs w !! src with
       | Some content =>
           (inr tt, set_fs (<[dst := content]> (delete src (fs w))) w)
       | None => (inl OSError, w)
       end.

End Os.

(** [print >> sys.stderr, 'warning: %s' % msg] unless quiet *)
Definition warn (msg : string) (quiet : bool) : M unit :=
  λ w, if quiet then (inr tt, w)
       else (inr tt, mkWorld (fs w) (repos w) (stderr w ++ ["warning: " +:+ msg])).

(** ** The version-control collaborator ([plypatch.git.Repo])

    [plypatch/git.py] is not part of the sources at hand; the operations
    below follow the interface the specification gives for it.  What git
    computes from content (the result of applying a patch, the text of an
    exported patch, commit identifiers) is left to an oracle. *)

Inductive AmOutcome :=
| AmApplied (msg : string) (tree : gmap string string)
| AmConflict
| AmAlreadyApplied.

Inductive AmMethod := Abort | Skip | Resolved.

Inductive Pretty := PrettyBody | PrettyHash.

Record GitOracle := mkGitOracle {
  (* outcome of [git am] on a mailbox file: content, three-way flag, repository *)
  am_outcome : string → bool → Repo → AmOutcome;
  (* message and tree of the commit made by [git am --resolved] *)
  am_resolved_commit : Repo → string * gmap string string;
  (* file name and content written by [git format-patch] for the n-th commit *)
  format_patch_file : nat → Commit → string * string;
  (* identifier of a new commit: message, tree, parents *)
  hash_of : string → gmap string string → list Commit → string
}.

Module Git.

Definition get_repo (self : string) : M Repo :=
  λ w, match repos w !! self with
       | Some r => (inr r, w)
       | None => (inl GitException, w)
       end.

Definition put_repo (self : string) (r : Repo) : M unit :=
  λ w, (inr tt, set_repos (<[self := r]> (repos w)) w).

(** The content of a file of the work tree, if it is there. *)
Definition read_opt (path : string) : M (option string) :=
  λ w, (inr (fs w !! path), w).

Definition delete_file (path : string) : M unit :=
  λ w, (inr tt, set_fs (delete path (fs w)) w).

Definition head_tree (r : Repo) : gmap string string :=
  match repo_log r with
  | [] => ∅
  | c :: _ => commit_tree c
  end.

Fixpoint parse_digits (acc : nat) (s : string) : option nat :=
  match s with
  | "" => Some acc
  | String c s' =>
      let d := nat_of_ascii c in
      if Nat.leb 48 d && Nat.leb d 57
      then parse_digits (10 * acc + (d - 48)) s'
      else None
  end.

Fixpoint find_hash (h : string) (log : list Commit) : option nat :=
  match log with
  | [] => None
  | c :: log' =>
      if String.eqb (commit_hash c) h then Some 0 else S <$> find_hash h log'
  end.

(** Modelled from the spec: revision arguments are resolved by git; the
    forms the program uses are [HEAD], [HEAD^], [HEAD~n] and a commit
    hash.  The answer is the depth of the commit below HEAD. *)
Definition rev_parse (rev : string) (log : list Commit) : option nat :=
  let depth :=
    if String.eqb rev "HEAD" then Some 0
    else if String.eqb rev "HEAD^" then Some 1
    else if Py.startswith "HEAD~" rev then
      match Py.drop 5 rev with
      | "" => None
      | ds => parse_digits 0 ds
      end
    else find_hash rev log in
  d ← depth; if Nat.ltb d (length log) then Some d else None.

(** Modelled from the spec: "has uncommitted changes" query.  It compares
    what is staged with the HEAD commit; an application that is pending
    does not count by itself. *)
Definition uncommitted_changes (self : string) : M bool :=
  r ← get_repo self;
  mret (bool_decide (repo_index r ≠ head_tree r)).

(** Modelled from the spec: log query with pretty-format, count 1 and
    skip; a query that runs past the root commit is an error. *)
Definition log (self : string) (since : option string) (pretty : Pretty)
    (skip : nat) : M string :=
  r ← get_repo self;
  match rev_parse (default "HEAD" since) (repo_log r) with
  | None => raise GitException
  | Some d =>
      match repo_log r !! (d + skip) with
      | None => raise GitException
      | Some c =>
          mret match pretty with
               | PrettyBody => commit_msg c
               | PrettyHash => commit_hash c
               end
      end
  end.

(** Modelled from the spec: config get/add/unset of one key. *)
Definition config_get (self key : string) : M (list string) :=
  r ← get_repo self;
  match repo_config r !! key with
  | Some v => mret [v]
  | None => raise GitException
  end.

Definition config_add (self key value : string) : M unit :=
  r ← get_repo self;
  put_repo self (set_config (<[key := value]> (repo_config r)) r).

Definition config_unset (self key : string) : M unit :=
  r ← get_repo self;
  match repo_config r !! key with
  | Some _ => put_repo self (set_config (delete key (repo_config r)) r)
  | None => raise GitException
  end.

(** Modelled from the spec: add path.  Stages the file as it is in the
    work tree (a tracked file that is gone is staged as deleted). *)
Definition add (self path : string) : M unit :=
  r ← get_repo self;
  content ← read_opt (PosixPath.join self path);
  match content with
  | Some content =>
      put_repo self (set_index (<[path := content]> (repo_index r)) r)
  | None =>
      match repo_index r !! path with
      | Some _ => put_repo self (set_index (delete path (repo_index r)) r)
      | None => raise GitException
      end
  end.

(** Modelled from the spec: remove path.  Deletes a tracked file from
    the work tree and from the index.  It is refused for a path that is
    not tracked, for a path whose staged content is not the one of the
    HEAD commit, and for a file that was modified since. *)
Definition rm (self path : string) : M unit :=
  r ← get_repo self;
  content ← read_opt (PosixPath.join self path);
  match repo_index r !! path with
  | None => raise GitException
  | Some blob =>
      if bool_decide (head_tree r !! path = Some blob
                      ∧ (content = None ∨ content = Some blob))
      then
        put_repo self (set_index (delete path (repo_index r)) r);;
        delete_file (PosixPath.join self path)
      else raise GitException
  end.

(** Modelled from the spec: init. *)
Definition init (self : string) : M unit :=
  try_except (get_repo self;; mret tt)
    (λ _, Some (put_repo self (mkRepo [] ∅ false ∅ []))).

Section with_oracle.
Variable g : GitOracle.

(** Modelled from the spec: commit, plain or amending HEAD.  A plain
    commit is refused when nothing is staged. *)
Definition commit (self msg : string) (amend : bool) : M unit :=
  r ← get_repo self;
  if amend then
    match repo_log r with
    | [] => raise GitException
    | _ :: parents =>
        let c := mkCommit (hash_of g msg (repo_index r) parents) msg
                   (repo_index r) in
        put_repo self (move_head RefAmend (c :: parents) r)
    end
  else if bool_decide (repo_index r = head_tree r) then raise GitException
  else
    let c := mkCommit (hash_of g msg (repo_index r) (repo_log r)) msg
               (repo_index r) in
    put_repo self (move_head RefCommit (c :: repo_log r) r).

(** Modelled from the spec: patch-apply with the three-way-merge option;
    it succeeds (one new commit), or fails with the distinguished
    "did not apply cleanly" or "already applied" condition. *)
Definition am (self patch_path : string) (three_way_merge : bool) : M unit :=
  r ← get_repo self;
  if repo_unmerged r then raise GitException
  else
    content ← read_opt patch_path;
    match content with
    | None => raise GitException
    | Some content =>
        match am_outcome g content three_way_merge r with
        | AmApplied msg tree =>
            let c := mkCommit (hash_of g msg tree (repo_log r)) msg tree in
            put_repo self (set_index tree (move_head RefAm (c :: repo_log r) r))
        | AmConflict =>
            put_repo self (set_unmerged true r);;
            raise PatchDidNotApplyCleanly
        | AmAlreadyApplied => raise PatchAlreadyApplied
        end
    end.

(** Modelled from the spec: [am] with one of abort / skip / resolved set,
    which ends a pending application. *)
Definition am_continue (self : string) (method : AmMethod) : M unit :=
  r ← get_repo self;
  if negb (repo_unmerged r) then raise GitException
  else
    match method with
    | Resolved =>
        let '(msg, tree) := am_resolved_commit g r in
        let c := mkCommit (hash_of g msg tree (repo_log r)) msg tree in
        put_repo self
          (set_unmerged false
   (set_index tree (move_head RefAm (c :: repo_log r) r)))
    | Abort | Skip =>
        put_repo self (set_unmerged false (set_index (head_tree r) r))
    end.

(** Modelled from the spec: diff-export.  One file per commit after
    [since], oldest first, written into the work tree. *)
Fixpoint write_files (self : string) (files : list (string * string))
    : M (list string) :=
  match files with
  | [] => mret []
  | (name, content) :: rest =>
      Os.write (PosixPath.join self name) content;;
      names ← write_files self rest;
      mret (name :: names)
  end.

Definition format_patch (self since : string) : M (list string) :=
  r ← get_repo self;
  match rev_parse since (repo_log r) with
  | None => raise GitException
  | Some d =>
      write_files self
        (imap (λ i c, format_patch_file g (S i) c)
              (reverse (take d (repo_log r))))
  end.

End with_oracle.

(** Modelled from the spec: working-tree reset (hard). *)
Definition reset (self rev : string) : M unit :=
  r ← get_repo self;
  match rev_parse rev (repo_log r) with
  | None => raise GitException
  | Some d =>
      let r' := move_head RefReset (List.skipn d (repo_log r)) r in
      put_repo self (set_unmerged false (set_index (head_tree r') r'))
  end.

End Git.

(** ** [plypatch.utils] *)

Module Utils.

Fixpoint until_newline (s : string) : string :=
  match s with
  | "" => ""
  | String c s' =>
      if Ascii.eqb c Py.newline then "" else String c (until_newline s')
  end.

(** Modelled from the spec: [plypatch/utils.py] is not part of the sources
    at hand.  The annotation is the marker [Ply-Patch: <name>] embedded in
    a commit message; parsing tolerates its absence and finds at most one
    occurrence: the first one, whose name runs to the end of its line. *)
Fixpoint get_patch_annotation (commit_msg : string) : option string :=
  match commit_msg with
  | "" => None
  | String _ rest =>
      if Py.startswith "Ply-Patch: " commit_msg
      then Some (until_newline (Py.drop 11 commit_msg))
      else get_patch_annotation rest
  end.

(** Modelled from the spec: the recursive directory scan for the patterns
    made of a star and a file extension.  It answers the path of every
    file below [path], at any depth, whose name ends in the extension. *)
Definition recursive_glob (path pattern : string) : M (list string) :=
  λ w, (inr (List.filter
               (λ file, Py.startswith (path +:+ "/") file
                        && Py.endswith (Py.drop 1 pattern) file)
               (map fst (map_to_list (fs w)))), w).

End Utils.

(** ** [class PatchRepo(git.Repo)]

    [self] is the path of the repository. *)

Module PatchRepo.

(** [series_path] *)
Definition series_path (self : string) : string :=
  PosixPath.join self "series".

(** The reading loop of [_mutate_series_file]. *)
Fixpoint read_entries (lines : list string) : list string :=
  match lines with
  | [] => []
  | line :: rest =>
      match Py.strip line with
      | "" => read_entries rest
      | line => line :: read_entries rest
      end
  end.

(** The writing loop of [_mutate_series_file]. *)
Fixpoint write_entries (patch_names : list string) : string :=
  match patch_names with
  | [] => ""
  | patch_name :: rest => Py.line_of patch_name +:+ write_entries rest
  end.

(** [_mutate_series_file]: the body of the [with] block is [body]; when it
    raises, nothing is written back. *)
Definition _mutate_series_file (self : string)
    (body : list string → M (list string)) : M unit :=
  content ← Os.read (series_path self);
  patch_names ← body (read_entries (Py.file_lines content));
  Os.write (series_path self) (write_entries patch_names);;
  Git.add self "series".

Fixpoint add_patches_loop (self : string) (base idx : nat)
    (patch_names entries : list string) : M (list string) :=
  match patch_names with
  | [] => mret entries
  | patch_name :: rest =>
      Git.add self patch_name;;
      add_patches_loop self base (S idx) rest
        (if Py.mem patch_name entries then entries
         else Py.insert (base + idx) patch_name entries)
  end.

(** [add_patches] *)
Definition add_patches (self : string) (patch_names : list string)
    (parent_patch_name : option string) : M unit :=
  _mutate_series_file self (λ entries,
    base ← (if Py.truthy parent_patch_name then
              match Py.index (default "" parent_patch_name) entries with
              | Some i => mret (i + 1)
              | None => raise ValueError
              end
            else mret 0);
    add_patches_loop self base 0 patch_names entries).

(** [remove_patch] *)
Definition remove_patch (self patch_name : string) : M unit :=
  Git.rm self patch_name;;
  _mutate_series_file self (λ entries,
    match Py.remove patch_name entries with
    | Some entries => mret entries
    | None => raise ValueError
    end).

(** [initialize] *)
Definition initialize (g : GitOracle) (self : string) : M unit :=
  Git.init self;;
  present ← Os.exists_ (series_path self);
  if negb present then
    Os.write (series_path self) "";;
    Git.add self "series";;
    Git.commit g self "Ply init" false
  else mret tt.

(** The loop of [_recursive_series] over the lines of one manifest; [rec]
    is the recursive call on a child manifest. *)
Fixpoint series_lines (rec : string → M (list string)) (self : string)
    (lines : list string) : M (list string) :=
  match lines with
  | [] => mret []
  | line :: rest =>
      let patch_name := Py.strip line in
      if Py.startswith "-i " patch_name then
        match Py.split1 " " patch_name !! 1 with
        | None => raise IndexError
        | Some after =>
            let series_rel_path := Py.strip after in
            let child_series_path := PosixPath.join self series_rel_path in
            let patch_dir := PosixPath.dirname series_rel_path in
            children ← rec child_series_path;
            others ← series_lines rec self rest;
            mret (map (PosixPath.join patch_dir) children ++ others)
        end
      else
        others ← series_lines rec self rest;
        mret (patch_name :: others)
  end.

(** [_recursive_series], collected into a list.  [limit] bounds the depth
    of nested manifests, as the interpreter's recursion limit does. *)
Fixpoint _recursive_series (limit : nat) (self series_path : string)
    : M (list string) :=
  match limit with
  | 0 => raise RecursionDepthExceeded
  | S limit' =>
      content ← Os.read series_path;
      series_lines (_recursive_series limit' self) self (Py.file_lines content)
  end.

(** [series] *)
Definition series (limit : nat) (self : string) : M (list string) :=
  _recursive_series limit self (series_path self).

Fixpoint changed_files_lines (lines : list string)
    (changed_files : gset string) : gset string :=
  match lines with
  | [] => changed_files
  | line :: rest =>
      let line := Py.strip line in
      let filename :=
        if Py.startswith "--- a/" line then Some (Py.replace "--- a/" "" line)
        else if Py.startswith "+++ b/" line then Some (Py.replace "+++ b/" "" line)
        else None in
      match filename with
      | None => changed_files_lines rest changed_files
      | Some filename =>
          if Py.startswith "/dev/null" filename
          then changed_files_lines rest changed_files
          else changed_files_lines rest (changed_files ∪ {[filename]})
      end
  end.

(** [_changed_files_for_patch] *)
Definition _changed_files_for_patch (self patch_name : string)
    : M (gset string) :=
  content ← Os.read (PosixPath.join self patch_name);
  mret (changed_files_lines (Py.file_lines content) ∅).

(** [file_changes[filename].append(patch_name)] on a [defaultdict(list)] *)
Definition append_change (patch_name : string)
    (file_changes : gmap string (list string)) (filename : string)
    : gmap string (list string) :=
  <[filename := default [] (file_changes !! filename) ++ [patch_name]]>
    file_changes.

Fixpoint changes_loop (self : string) (series : list string)
    (file_changes : gmap string (list string))
    : M (gmap string (list string)) :=
  match series with
  | [] => mret file_changes
  | patch_name :: rest =>
      changed_files ← _changed_files_for_patch self patch_name;
      changes_loop self rest
        (foldl (append_change patch_name) file_changes
               (elements changed_files))
  end.

(** [_changes_by_filename] *)
Definition _changes_by_filename (limit : nat) (self : string)
    : M (gmap string (list string)) :=
  patch_names ← series limit self;
  changes_loop self patch_names ∅.

(** [graph[(dependent, parent)].add(filename)] on a [defaultdict(set)] *)
Definition add_edge (edge : string * string) (filename : string)
    (graph : gmap (string * string) (gset string))
    : gmap (string * string) (gset string) :=
  <[edge := default ∅ (graph !! edge) ∪ {[filename]}]> graph.

Fixpoint dependents_loop (filename : string) (parent : option string)
    (patch_names : list string)
    (graph : gmap (string * string) (gset string))
    : gmap (string * string) (gset string) :=
  match patch_names with
  | [] => graph
  | dependent :: rest =>
      dependents_loop filename (Some dependent) rest
        (if Py.truthy parent
         then add_edge (dependent, default "" parent) filename graph
         else graph)
  end.

Definition files_loop (items : list (string * list string))
    : gmap (string * string) (gset string) :=
  foldl (λ graph item, dependents_loop item.1 None item.2 graph) ∅ items.

(** [patch_dependencies] *)
Definition patch_dependencies (limit : nat) (self : string)
    : M (gmap (string * string) (gset string)) :=
  file_changes ← _changes_by_filename limit self;
  mret (files_loop (map_to_list file_changes)).

(** [patch_names] *)
Definition patch_names (self : string) : M (list string) :=
  let strip := self +:+ "/" in
  paths ← Utils.recursive_glob self "*.patch";
  mret (map (Py.replace strip "") paths).

(** [check]: the report is the status and, when the check fails, the two
    sets under their keys. *)
Definition check (limit : nat) (self : string)
    : M (string * gmap string (gset string)) :=
  series ← series limit self;
  patch_names ← patch_names self;
  let series : gset string := list_to_set series in
  let patch_names : gset string := list_to_set patch_names in
  let no_file := series ∖ patch_names in
  let no_series_entry := patch_names ∖ series in
  if bool_decide (no_file = ∅) && bool_decide (no_series_entry = ∅)
  then mret ("ok", ∅)
  else mret ("failed", {[ "no_file" := no_file;
                          "no_series_entry" := no_series_entry ]}).

End PatchRepo.

(** ** [class WorkingRepo(git.Repo)]

    [self] is the path of the repository; [g] is the git oracle and [limit]
    the recursion limit handed to [PatchRepo.series]. *)

Module WorkingRepo.

Section with_oracle.
Variable g : GitOracle.
Variable limit : nat.

(** [_add_patch_annotation] *)
Definition _add_patch_annotation (self patch_name : string) : M unit :=
  commit_msg ← Git.log self None PrettyBody 0;
  if negb (Py.contains "Ply-Patch" commit_msg) then
    Git.commit g self
      (commit_msg +:+ Py.nl +:+ Py.nl +:+ "Ply-Patch: " +:+ patch_name) true
  else mret tt.

(** The loop of [_applied_patches] over [_walk_commit_msgs_backwards]:
    the k-th message read is [log(count=1, pretty='%B', skip=k)], the
    message of the k-th commit below HEAD, and the query past the root
    commit raises. *)
Fixpoint applied_walk (commit_msgs : list string) : Exc + list string :=
  match commit_msgs with
  | [] => inl GitException
  | commit_msg :: older =>
      let patch_name := Utils.get_patch_annotation commit_msg in
      if negb (Py.truthy patch_name) then inr []
      else
        match applied_walk older with
        | inr names => inr (default "" patch_name :: names)
        | inl e => inl e
        end
  end.

(** [_applied_patches], collected into a list. *)
Definition _applied_patches (self : string) : M (list string) :=
  r ← Git.get_repo self;
  lift (applied_walk (map commit_msg (repo_log r))).

(** [_last_upstream_commit_hash] *)
Definition _last_upstream_commit_hash (self : string) : M string :=
  applied ← _applied_patches self;
  h ← Git.log self None PrettyHash (length applied);
  mret (Py.strip h).

(** [patch_repo_path] *)
Definition patch_repo_path (self : string) : M (option string) :=
  try_except
    (values ← Git.config_get self "ply.patchrepo";
     match values !! 0 with
     | Some path => mret (Some path)
     | None => raise IndexError
     end)
    (λ e, match e with
          | GitException => Some (mret None)
          | _ => None
          end).

(** [patch_repo]: the path of the linked patch repository. *)
Definition patch_repo (self : string) : M string :=
  path ← patch_repo_path self;
  if negb (Py.truthy path) then raise NoLinkedPatchRepo
  else mret (default "" path).

(** The loop of [_store_patch_files] over [zip(patch_names, filenames)].
    Directories are implicit in the file names, so [os.makedirs] has
    nothing to do. *)
Fixpoint store_loop (self : string) (patch_names filenames : list string)
    : M unit :=
  match patch_names, filenames with
  | patch_name :: patch_names', filename :: filenames' =>
      pr ← patch_repo self;
      let dirname := PosixPath.dirname patch_name in
      let dest_path := PosixPath.join pr dirname in
      pr ← patch_repo self;
      Os.rename (PosixPath.join self filename)
                (PosixPath.join pr patch_name);;
      store_loop self patch_names' filenames'
  | _, _ => mret tt
  end.

(** [_store_patch_files] *)
Definition _store_patch_files (self : string)
    (patch_names filenames : list string)
    (parent_patch_name : option string) : M unit :=
  store_loop self patch_names filenames;;
  pr ← patch_repo self;
  PatchRepo.add_patches pr patch_names parent_patch_name.

(** [_commit_to_patch_repo] *)
Definition _commit_to_patch_repo (self commit_msg : string) : M unit :=
  based_on ← _last_upstream_commit_hash self;
  pr ← patch_repo self;
  Git.commit g pr
    (commit_msg +:+ Py.nl +:+ Py.nl +:+ "Ply-Based-On: " +:+ based_on) false.

(** [_patch_conflict_path] *)
Definition _patch_conflict_path (self : string) : string :=
  PosixPath.join self ".patch-conflict".

(** [_conflict_file_exists] *)
Definition _conflict_file_exists (self : string) : M bool :=
  Os.exists_ (_patch_conflict_path self).

(** [_create_conflict_file] *)
Definition _create_conflict_file (self patch_name : string) : M unit :=
  Os.write (_patch_conflict_path self) (Py.line_of patch_name).

(** [_teardown_conflict_file] *)
Definition _teardown_conflict_file (self : string) : M string :=
  present ← Os.exists_ (_patch_conflict_path self);
  if negb present then raise PathNotFound
  else
    content ← Os.read (_patch_conflict_path self);
    Os.unlink (_patch_conflict_path self);;
    mret (Py.strip content).

(** [_resolve_conflict] *)
Definition _resolve_conflict (self : string) (method : AmMethod) : M string :=
  Git.am_continue g self method;;
  _teardown_conflict_file self.

(** [abort] *)
Definition abort (self : string) : M unit :=
  _resolve_conflict self Abort;;
  Git.reset self "HEAD".

(** [link] *)
Definition link (self patch_repo_path0 : string) : M unit :=
  path ← patch_repo_path self;
  if Py.truthy path then raise AlreadyLinkedToPatchRepo
  else Git.config_add self "ply.patchrepo" patch_repo_path0.

(** [unlink] *)
Definition unlink (self : string) : M unit :=
  path ← patch_repo_path self;
  if negb (Py.truthy path) then raise NoLinkedPatchRepo
  else Git.config_unset self "ply.patchrepo".

(** The body of the [for] loop of [restore]. *)
Definition restore_step (self : string) (three_way_merge : bool)
    (patch_name : string) : M unit :=
  pr ← patch_repo self;
  let patch_path := PosixPath.join pr patch_name in
  try_except (Git.am g self patch_path three_way_merge)
    (λ e, match e with
          | PatchDidNotApplyCleanly =>
              Some (_create_conflict_file self patch_name;;
                    raise PatchDidNotApplyCleanly)
          | PatchAlreadyApplied =>
              Some (pr ← patch_repo self;
                    PatchRepo.remove_patch pr patch_name;;
                    warn ("Patch '" +:+ patch_name +:+
                          "' appears to be upstream, removing from patch-repo")
                         false)
          | _ => None
          end);;
  _add_patch_annotation self patch_name.

Fixpoint restore_loop (self : string) (three_way_merge : bool)
    (applied series : list string) : M unit :=
  match series with
  | [] => mret tt
  | patch_name :: rest =>
      if Py.mem patch_name applied
      then restore_loop self three_way_merge applied rest
      else
        restore_step self three_way_merge patch_name;;
        restore_loop self three_way_merge applied rest
  end.

(** [restore] *)
Definition restore (self : string) (three_way_merge : bool) : M unit :=
  dirty ← Git.uncommitted_changes self;
  if (dirty : bool) then raise UncommittedChanges
  else
    applied ← _applied_patches self;
    pr ← patch_repo self;
    series ← PatchRepo.series limit pr;
    restore_loop self three_way_merge applied series;;
    pr ← patch_repo self;
    dirty ← Git.uncommitted_changes pr;
    if (dirty : bool) then _commit_to_patch_repo self "Refreshing patches"
    else mret tt.

(** [skip] *)
Definition skip (self : string) : M unit :=
  patch_name ← _resolve_conflict self Skip;
  pr ← patch_repo self;
  PatchRepo.remove_patch pr patch_name;;
  restore self true.

(** [rollback] *)
Definition rollback (self : string) : M unit :=
  dirty ← Git.uncommitted_changes self;
  if (dirty : bool) then raise UncommittedChanges
  else
    based_on ← _last_upstream_commit_hash self;
    Git.reset self based_on.

(** [_create_patches] *)
Definition _create_patches (self since : string)
    : M (list string * option string) :=
  filenames ← Git.format_patch g self since;
  commit_msg ← Git.log self (Some since) PrettyBody 0;
  mret (filenames, Utils.get_patch_annotation commit_msg).

(** [resolve] *)
Definition resolve (self : string) : M unit :=
  patch_name ← _resolve_conflict self Resolved;
  created ← _create_patches self "HEAD^";
  _store_patch_files self [patch_name] created.1 created.2;;
  _add_patch_annotation self patch_name;;
  restore self true.

(** The naming loop of [save]; the result also carries the last value
    bound to [patch_name], if any. *)
Fixpoint name_loop (self : string) (prefix : option string)
    (filenames : list string) (patch_names : list string)
    (last : option string) : M (list string * option string) :=
  match filenames with
  | [] => mret (patch_names, last)
  | filename :: rest =>
      content ← Os.read (PosixPath.join self filename);
      let annotation := Utils.get_patch_annotation content in
      patch_name ←
        (if negb (Py.truthy annotation) then
           match Py.split1 "-" filename !! 1 with
           | None => raise IndexError
           | Some patch_name =>
               if Py.truthy prefix
               then mret (PosixPath.join (default "" prefix) patch_name)
               else mret patch_name
           end
         else mret (default "" annotation));
      name_loop self prefix rest (patch_names ++ [patch_name])
                (Some patch_name)
  end.

(** [save] *)
Definition save (self since : string) (prefix : option string) : M unit :=
  dirty ← Git.uncommitted_changes self;
  pdirty ← (if (dirty : bool) then mret true
            else pr ← patch_repo self; Git.uncommitted_changes pr);
  if (pdirty : bool) then raise UncommittedChanges
  else if Py.contains ".." since then raise ValueError
  else
    created ← _create_patches self since;
    let filenames := created.1 in
    named ← name_loop self prefix filenames [] None;
    _store_patch_files self named.1 filenames created.2;;
    commit_msg ←
      (if Nat.ltb 1 (length filenames)
       then mret ("Adding " +:+ pretty (length filenames) +:+ " patches")
       else match named.2 with
            | Some patch_name => mret ("Adding " +:+ patch_name)
            | None => raise NameError
            end);
    _commit_to_patch_repo self commit_msg;;
    pr ← patch_repo self;
    series ← PatchRepo.series limit pr;
    Git.reset self ("HEAD~" +:+ pretty (length series));;
    restore self true.

(** [status] *)
Definition status (self : string) : M string :=
  conflict ← _conflict_file_exists self;
  if (conflict : bool) then mret "restore-in-progress"
  else
    applied ← _applied_patches self;
    if Nat.eqb (length applied) 0 then mret "no-patches-applied"
    else mret "all-patches-applied".

(** [check_patch_repo] *)
Definition check_patch_repo (self : string)
    : M (string * gmap string (gset string)) :=
  pr ← patch_repo self;
  PatchRepo.check limit pr.

End with_oracle.

End WorkingRepo.

(** ** Sample worlds *)

Module Sample.

(** An oracle that reads the outcome off the patch text. *)
Definition oracle : GitOracle :=
  mkGitOracle
    (λ content _ r,
       if Py.contains "CONFLICT" content then AmConflict
       else if Py.contains "UPSTREAM" content then AmAlreadyApplied
       else AmApplied content (<[content := "applied"]> (Git.head_tree r)))
    (λ r, ("resolved by hand", <["resolved" := "yes"]> (Git.head_tree r)))
    (λ n c, ("000" +:+ pretty n +:+ "-refreshed.patch", commit_msg c))
    (λ msg _ _, "#" +:+ msg).

Definition upstream : Commit := mkCommit "#upstream" "upstream work" ∅.

Definition work : Repo :=
  mkRepo [upstream] ∅ false {["ply.patchrepo" := "/p"]} [].

(** A patch repository whose committed tree is [tree]. *)
Definition patch_repo_of (tree : gmap string string) : Repo :=
  mkRepo [mkCommit "#init" "Ply init" tree] tree false ∅ [].

(** A world with working repository [/w] and patch repository [/p] holding
    the given files, all of them committed. *)
Definition world_of (tree : gmap string string) : World :=
  mkWorld (kmap (PosixPath.join "/p") tree)
          {["/w" := work; "/p" := patch_repo_of tree]} [].

Definition l (s : string) : string := Py.line_of s.

(** A flat manifest with a blank line between two entries. *)
Definition blank_line_world : World :=
  world_of {[ "series" := l "a.patch" +:+ l "" +:+ l "b.patch";
              "a.patch" := "fix a"; "b.patch" := "fix b" ]}.

(** A manifest that includes the nested manifest [sub/series]. *)
Definition nested_series : string :=
  l "a.patch" +:+ l "-i sub/series" +:+ l "b.patch".

Definition nested_world : World :=
  world_of {[ "series" := nested_series;
              "sub/series" := l "x.patch" +:+ l "y.patch" ]}.

(** A patch repository with three patches in its series and a fourth
    patch file that is not in the series yet. *)
Definition shifted_world : World :=
  world_of {[ "series" := l "p.patch" +:+ l "x.patch" +:+ l "a.patch";
              "p.patch" := "fix p"; "x.patch" := "fix x";
              "a.patch" := "fix a"; "b.patch" := "fix b" ]}.

(** A patch repository that tracks [stray.patch] without listing it in
    the series. *)
Definition stray_world : World :=
  world_of {[ "series" := l "a.patch";
              "a.patch" := "fix a"; "stray.patch" := "fix stray" ]}.

(** Two patches that both modify [f]; the second also adds [g]. *)
Definition overlap_world : World :=
  world_of {[ "series" := l "a.patch" +:+ l "b.patch";
              "a.patch" := l "--- a/f" +:+ l "+++ b/f";
              "b.patch" := l "--- a/f" +:+ l "+++ b/f"
                           +:+ l "--- /dev/null" +:+ l "+++ b/g" ]}.

Definition overlap_changed (patch_name : string) : gset string :=
  if String.eqb patch_name "a.patch" then {["f"]} else {["f"; "g"]}.

(** A working repository whose HEAD commit mentions the marker in its
    free text without carrying an annotation. *)
Definition mention : Commit :=
  mkCommit "#mention" "Document the Ply-Patch marker" ∅.

Definition mention_world : World :=
  mkWorld ∅ {["/w" := mkRepo [mention] ∅ false ∅ []]} [].

(** Three patches, the second of which does not apply cleanly. *)
Definition conflict_world : World :=
  world_of {[ "series" := l "a.patch" +:+ l "b.patch" +:+ l "c.patch";
              "a.patch" := "fix a"; "b.patch" := "CONFLICT b";
              "c.patch" := "fix c" ]}.

(** The world in which [restore] has stopped on that conflict. *)
Definition conflicted_world : World :=
  (WorkingRepo.restore oracle 1 "/w" true conflict_world).2.

(** Two upstream commits, and a series whose first patch is upstream
    already. *)
Definition upstream_world : World :=
  mkWorld
    {[ "/p/series" := l "u.patch" +:+ l "c.patch";
       "/p/u.patch" := "UPSTREAM u"; "/p/c.patch" := "fix c" ]}
    {[ "/w" := mkRepo [upstream; mkCommit "#older" "older work" ∅] ∅ false
                 {["ply.patchrepo" := "/p"]} [];
       "/p" := patch_repo_of
                 {[ "series" := l "u.patch" +:+ l "c.patch";
                    "u.patch" := "UPSTREAM u"; "c.patch" := "fix c" ]} ]}
    [].

(** A working repository that is not linked to a patch repository. *)
Definition unlinked_world : World :=
  mkWorld ∅ {["/w" := mkRepo [upstream] ∅ false ∅ []]} [].

(** A working repository with two applied patches on top of upstream. *)
Definition applied_world : World :=
  mkWorld ∅
    {["/w" := mkRepo [mkCommit "#b" ("fix b" +:+ l "" +:+ l ""
                                     +:+ "Ply-Patch: b.patch") ∅;
                      mkCommit "#a" ("fix a" +:+ l "" +:+ l ""
                                     +:+ "Ply-Patch: a.patch") ∅;
                      upstream] ∅ false ∅ []]} [].

(** The same repository with a change that is not committed. *)
Definition dirty_world : World :=
  mkWorld ∅
    {["/w" := mkRepo [upstream] {["README" := "edited"]} false
                {["ply.patchrepo" := "/p"]} []]} [].

(** The world reached by restoring a series of two patches that apply. *)
Definition restored_world : World :=
  (WorkingRepo.restore oracle 1 "/w" true
     (world_of {[ "series" := l "a.patch" +:+ l "b.patch";
                  "a.patch" := "fix a"; "b.patch" := "fix b" ]})).2.

(** A manifest that includes itself. *)
Definition cyclic_world : World :=
  world_of {[ "series" := l "a.patch" +:+ l "-i series";
              "a.patch" := "fix a" ]}.

(** A world without any repository. *)
Definition empty_world : World := mkWorld ∅ ∅ [].

(** Two applied patches in the working repository, and a patch repository
    in which a change of the series is staged. *)
Definition staged_world : World :=
  mkWorld {["/p/series" := l "a.patch" +:+ l "b.patch"]}
    {["/w" := mkRepo [mkCommit "#b" ("fix b" +:+ l "" +:+ l ""
                                     +:+ "Ply-Patch: b.patch") ∅;
                      mkCommit "#a" ("fix a" +:+ l "" +:+ l ""
                                     +:+ "Ply-Patch: a.patch") ∅;
                      upstream] ∅ false {["ply.patchrepo" := "/p"]} [];
      "/p" := mkRepo [mkCommit "#init" "Ply init" {["series" := ""]}]
                {["series" := l "a.patch" +:+ l "b.patch"]} false ∅ []]} [].

(** A series made of one inclusion; the nested patch is upstream
    already. *)
Definition nested_upstream_world : World :=
  world_of {[ "series" := l "-i sub/series";
              "sub/series" := l "x.patch";
              "sub/x.patch" := "UPSTREAM x" ]}.

(** The patch repository of [stray_world] with one more file on disk,
    which is not tracked. *)
Definition untracked_world : World :=
  set_fs (<["/p/new.patch" := "fix new"]> (fs stray_world)) stray_world.

(** A manifest that includes [sub/series], which in turn includes
    [deep/series]. *)
Definition deep_world : World :=
  world_of {[ "series" := l "a.patch" +:+ l "-i sub/series" +:+ l "b.patch";
              "sub/series" := l "x.patch" +:+ l "-i deep/series";
              "deep/series" := l "z.patch" ]}.

End Sample.

(** ** Vocabulary of the statements *)

(** A string without a line break. *)
Fixpoint no_newline (s : string) : bool :=
  match s with
  | "" => true
  | String c s' => negb (Ascii.eqb c Py.newline) && no_newline s'
  end.

(** A name that survives a round trip through the series file: not empty,
    no surrounding white space, no line break. *)
Definition clean (name : string) : Prop :=
  name ≠ "" ∧ Py.strip name = name ∧ no_newline name = true.




(** The entries of the series file of the patch repository [self], as
    [_mutate_series_file] reads them. *)
Definition manifest (self : string) (w : World) : option (list string) :=
  content ← fs w !! PatchRepo.series_path self;
  Some (PatchRepo.read_entries (Py.file_lines content)).

(** [a] comes right before [b] in [l]. *)
Definition consecutive (a b : string) (l : list string) : Prop :=
  ∃ l1 l2, l = l1 ++ a :: b :: l2.

(** The patches of the series that touch [filename], in series order. *)
Definition touching (changed : string → gset string) (filename : string)
    (patches : list string) : list string :=
  filter (λ p, filename ∈ changed p) patches.

(** The label of an edge of the dependency graph (empty without the edge). *)
Definition labels (graph : gmap (string * string) (gset string))
    (edge : string * string) : gset string :=
  default ∅ (graph !! edge).

Definition merge_changes (o : option (list string)) (t : list string)
    : option (list string) :=
  match o, t with
  | None, [] => None
  | _, _ => Some (default [] o ++ t)
  end.

(** The edge [(dependent, parent)] is drawn for a list of patches when the
    parent comes right before the dependent and is not the empty name. *)
Definition linked (edge : string * string) (l : list string) : Prop :=
  consecutive edge.2 edge.1 l ∧ edge.2 ≠ "".

(** Every edge of the graph carries at least one file. *)
Definition labelled (graph : gmap (string * string) (gset string)) : Prop :=
  ∀ e files, graph !! e = Some files → files ≠ ∅.

(** Every run of [c] relates the world it starts in to the world it ends
    in by [R], whether it returns or raises. *)
Definition stable {A} (R : World → World → Prop) (c : M A) : Prop :=
  ∀ w, R w (c w).2.

Definition log_of (self : string) (w : World) : option (list Commit) :=
  repo_log <$> repos w !! self.
Definition reflog_of (self : string) (w : World) : option (list RefChange) :=
  repo_reflog <$> repos w !! self.
Definition config_of (self : string) (w : World)
    : option (gmap string string) :=
  repo_config <$> repos w !! self.

(** No repository has its history, its reflog or its configuration
    changed. *)
Definition same_heads (w w' : World) : Prop :=
  ∀ p, log_of p w' = log_of p w ∧ reflog_of p w' = reflog_of p w
       ∧ config_of p w' = config_of p w.

(** Every repository keeps its configuration, and every repository other
    than [self] keeps its history. *)
Definition keeps (self : string) (w w' : World) : Prop :=
  ∀ p, config_of p w' = config_of p w
       ∧ (p ≠ self → log_of p w' = log_of p w).

(** [c'] is [c] with the annotation of some patch appended to a message
    that does not contain the string Ply-Patch. *)
Definition annotation_of (c c' : Commit) : Prop :=
  Py.contains "Ply-Patch" (commit_msg c) = false
  ∧ ∃ patch_name,
      commit_msg c'
      = commit_msg c +:+ Py.nl +:+ Py.nl +:+ "Ply-Patch: " +:+ patch_name.

(** Among these reflog entries, every amendment is an annotation. *)
Definition amends_annotate (added : list RefChange) : Prop :=
  Forall (λ e, ref_action e = RefAmend →
               ∃ c c', ref_old e = Some c ∧ ref_new e = Some c'
                       ∧ annotation_of c c') added.

(** The reflog of [self] has only grown, and every amendment it has
    recorded since is an annotation. *)
Definition annotates_only (self : string) (w w' : World) : Prop :=
  ∀ r, repos w !! self = Some r →
       ∃ r' added, repos w' !! self = Some r'
                   ∧ repo_reflog r' = added ++ repo_reflog r
                   ∧ amends_annotate added.

(** The outcome [out] of a run started in [w] has committed to no
    repository other than [self], or has ended, successfully, with one
    commit to the linked patch repository, which had uncommitted changes. *)
Definition commits_last (g : GitOracle) (self : string) (w : World)
    (out : (Exc + ()) * World) : Prop :=
  keeps self w out.2
  ∨ ∃ w1 pr msg,
      keeps self w w1
      ∧ WorkingRepo.patch_repo self w1 = (inr pr, w1)
      ∧ Git.uncommitted_changes pr w1 = (inr true, w1)
      ∧ Git.commit g pr msg false w1 = out
      ∧ out.1 = inr tt.

(** No run of [c] raises [e]. *)
Definition never_raises {A} (e : Exc) (c : M A) : Prop :=
  ∀ w, (c w).1 ≠ inl e.

(** [a] occurs somewhere before [b] in [l]. *)
Definition before (a b : string) (l : list string) : Prop :=
  ∃ i j, i < j ∧ l !! i = Some a ∧ l !! j = Some b.

(** The file that a line of a patch names, when it is one of the two
    header lines that [_changed_files_for_patch] looks for. *)
Definition header_file (line : string) : option string :=
  if Py.startswith "--- a/" (Py.strip line)
  then Some (Py.replace "--- a/" "" (Py.strip line))
  else if Py.startswith "+++ b/" (Py.strip line)
  then Some (Py.replace "+++ b/" "" (Py.strip line))
  else None.

(** The history of [self] has only been cut back to a commit it already
    had: nothing was added and nothing rewritten. *)
Definition only_drops (self : string) (w w' : World) : Prop :=
  ∃ d, log_of self w' = drop d <$> log_of self w.

(** The repository [pr], which is not the working one, has received no
    commit during the run from [w] to [out], or exactly one, made as the
    last action of a run that succeeds, [pr] being the linked patch
    repository and having uncommitted changes then. *)
Definition commits_once (g : GitOracle) (self pr : string) (w : World)
    (out : (Exc + ()) * World) : Prop :=
  log_of pr out.2 = log_of pr w
  ∨ (out.1 = inr tt
     ∧ ∃ w1 msg c l,
         keeps self w w1
         ∧ WorkingRepo.patch_repo self w1 = (inr pr, w1)
         ∧ Git.uncommitted_changes pr w1 = (inr true, w1)
         ∧ Git.commit g pr msg false w1 = out
         ∧ log_of pr w = Some l
         ∧ log_of pr out.2 = Some (c :: l)).



(** A series manifest as the specification describes it: a sequence of
    entries, each of which is the name of a patch or the inclusion of a
    nested manifest, given by the path written after the directive. *)
#[local] Set Warnings "-register-all".

Inductive Entry : Type :=
| Patch (name : string)
| Inclusion (rel : string) (nested : list Entry).

(** The flattened series of an entry: a patch stands for itself; an
    inclusion stands for the flattened entries of the nested manifest, in
    their order, each prefixed by the directory of the nested manifest. *)
Fixpoint flattened (e : Entry) : list string :=
  match e with
  | Patch name => [name]
  | Inclusion rel nested =>
      map (PosixPath.join (PosixPath.dirname rel)) (flat_map flattened nested)
  end.

(** How deep the inclusions of an entry are nested. *)
Fixpoint depth (e : Entry) : nat :=
  match e with
  | Patch _ => 0
  | Inclusion _ nested => S (foldr Nat.max 0 (map depth nested))
  end.

(** The lines and the entries correspond one to one, in order. *)
Definition line_by_line (P : string → Entry → Prop)
    : list string → list Entry → Prop :=
  fix go (lines : list string) (entries : list Entry) {struct entries}
      : Prop :=
    match lines, entries with
    | [], [] => True
    | line :: lines', e :: entries' => P line e ∧ go lines' entries'
    | _, _ => False
    end.

(** The line [line] of a manifest of the patch repository [self] says the
    entry [e]: a patch name that is not a directive, or the directive
    followed by the path of a nested manifest whose file, in the patch
    repository, says the nested entries line by line. *)
Fixpoint written (self : string) (w : World) (line : string) (e : Entry)
    {struct e} : Prop :=
  match e with
  | Patch name =>
      Py.strip line = name ∧ Py.startswith "-i " name = false
  | Inclusion rel nested =>
      (∃ path, Py.strip line = "-i " +:+ path ∧ Py.strip path = rel)
      ∧ ∃ content,
          fs w !! PosixPath.join self rel = Some content
          ∧ line_by_line (written self w) (Py.file_lines content) nested
  end.


(** * Properties *)

#[local] Set Warnings "-clear-no-such-hyp".

(** ** Strings and lines *)

#[local] Arguments String.append !_ _ / : simpl nomatch.

Lemma append_nil_r (s : string) : s +:+ "" = s.
Proof. induction s as [|c s IH]; simpl; [done | by f_equal]. Qed.

Lemma append_assoc (a b c : string) : (a +:+ b) +:+ c = a +:+ (b +:+ c).
Proof. induction a as [|x a IH]; simpl; [done | by f_equal]. Qed.

Lemma rstrip_line_of (s : string) : Py.rstrip (Py.line_of s) = Py.rstrip s.
Proof.
  unfold Py.line_of. induction s as [|c s IH]; [done |].
  simpl. by rewrite IH.
Qed.

Lemma strip_line_of (s : string) : Py.strip (Py.line_of s) = Py.strip s.
Proof.
  unfold Py.strip. induction s as [|c s IH]; [done |].
  change (Py.line_of (String c s)) with (String c (Py.line_of s)).
  simpl. destruct (Py.is_space c); [exact IH |].
  apply (rstrip_line_of (String c s)).
Qed.

Lemma file_lines_line_of (s rest : string) :
  no_newline s = true →
  Py.file_lines (Py.line_of s +:+ rest) = Py.line_of s :: Py.file_lines rest.
Proof.
  unfold Py.line_of. induction s as [|c s IH]; intros Hs; [done |].
  simpl in Hs. apply andb_prop in Hs as [Hc Hs].
  simpl. destruct (Ascii.eqb c Py.newline); [done |].
  by rewrite (IH Hs).
Qed.

Lemma file_lines_write_entries (names : list string) :
  Forall (λ n, no_newline n = true) names →
  Py.file_lines (PatchRepo.write_entries names) = map Py.line_of names.
Proof.
  induction 1 as [|n names Hn _ IH]; [done |].
  simpl. by rewrite file_lines_line_of, IH.
Qed.

Lemma read_entries_lines (names : list string) :
  Forall clean names →
  PatchRepo.read_entries (map Py.line_of names) = names.
Proof.
  induction 1 as [|n names (Hne & Hstrip & _) _ IH]; [done |].
  simpl. rewrite strip_line_of, Hstrip, IH.
  by destruct n.
Qed.

(** Writing the series file and reading it back. *)
Lemma read_write_entries (names : list string) :
  Forall clean names →
  PatchRepo.read_entries (Py.file_lines (PatchRepo.write_entries names)) = names.
Proof.
  intros H. rewrite file_lines_write_entries; [by apply read_entries_lines |].
  eapply Forall_impl; [exact H |]. by intros n (_ & _ & ?).
Qed.

Lemma lstrip_head (s : string) :
  match Py.lstrip s with
  | "" => True
  | String c _ => Py.is_space c = false
  end.
Proof.
  induction s as [|c s IH]; [done |].
  simpl. by destruct (Py.is_space c) eqn:E.
Qed.

Lemma rstrip_head (c : ascii) (s : string) :
  Py.is_space c = false → ∃ r, Py.rstrip (String c s) = String c r.
Proof.
  intros Hc. simpl. destruct (Py.rstrip s); [rewrite Hc |]; eauto.
Qed.

Lemma rstrip_idem (s : string) : Py.rstrip (Py.rstrip s) = Py.rstrip s.
Proof.
  induction s as [|c s IH]; [done |].
  simpl. destruct (Py.rstrip s) as [|d r] eqn:E.
  - destruct (Py.is_space c) eqn:Hc; [done |]. simpl. by rewrite Hc.
  - change (Py.rstrip (String c (String d r)))
      with (match Py.rstrip (String d r) with
            | "" => if Py.is_space c then "" else String c ""
            | r' => String c r'
            end).
    rewrite IH. done.
Qed.

Lemma strip_idem (s : string) : Py.strip (Py.strip s) = Py.strip s.
Proof.
  unfold Py.strip. pose proof (lstrip_head s) as H.
  destruct (Py.lstrip s) as [|c t]; [done |].
  destruct (rstrip_head c t H) as [r Hr]. rewrite Hr.
  simpl Py.lstrip. rewrite H. by rewrite <- Hr, rstrip_idem.
Qed.

Lemma no_newline_lstrip (s : string) :
  no_newline s = true → no_newline (Py.lstrip s) = true.
Proof.
  induction s as [|c s IH]; [done |]. intros H.
  simpl. destruct (Py.is_space c); [| done].
  simpl in H. apply andb_prop in H as [_ H]. auto.
Qed.

Lemma no_newline_rstrip (s : string) :
  no_newline s = true → no_newline (Py.rstrip s) = true.
Proof.
  induction s as [|c s IH]; [done |]. intros H.
  simpl in H. apply andb_prop in H as [Hc H]. specialize (IH H).
  simpl. destruct (Py.rstrip s).
  - destruct (Py.is_space c); [done |]. simpl. by rewrite Hc.
  - simpl. simpl in IH. by rewrite Hc, IH.
Qed.

Lemma no_newline_strip (s : string) :
  no_newline s = true → no_newline (Py.strip s) = true.
Proof. intros H. by apply no_newline_rstrip, no_newline_lstrip. Qed.

(** Every line of a file is free of line breaks once stripped. *)
Lemma file_lines_strip (content : string) :
  Forall (λ line, no_newline (Py.strip line) = true) (Py.file_lines content).
Proof.
  assert (Forall (λ line, ∃ body, no_newline body = true ∧
            (line = body ∨ line = Py.line_of body)) (Py.file_lines content)) as H.
  { induction content as [|c s IH]; [constructor |].
    simpl. destruct (Ascii.eqb c Py.newline) eqn:Hc.
    - constructor; [| done]. exists "". by auto.
    - destruct (Py.file_lines s) as [|l ls].
      + repeat constructor. exists (String c ""). simpl. rewrite Hc. auto.
      + apply Forall_cons in IH as [(body & Hb & Hl) IH].
        constructor; [| done]. exists (String c body). simpl. rewrite Hc, Hb.
        split; [done |]. destruct Hl as [-> | ->]; auto. }
  eapply Forall_impl; [exact H |].
  intros line (body & Hb & [-> | ->]); [| rewrite strip_line_of];
    by apply no_newline_strip.
Qed.

(** What [_mutate_series_file] reads are clean names. *)
Lemma read_entries_clean (content : string) :
  Forall clean (PatchRepo.read_entries (Py.file_lines content)).
Proof.
  pose proof (file_lines_strip content) as H.
  induction H as [|line lines Hl _ IH]; [constructor |].
  simpl. destruct (Py.strip line) as [|c s] eqn:E; [done |].
  constructor; [| done].
  split; [done |]. split; [| done]. rewrite <- E. apply strip_idem.
Qed.

(** What follows the marker of an inclusion directive. *)
Lemma startswith_app (p s : string) :
  Py.startswith p s = true → ∃ rest, s = p +:+ rest.
Proof.
  revert s. induction p as [|a p IH]; intros s H; [by exists s |].
  destruct s as [|b s]; [done |]. simpl in H.
  apply andb_prop in H as [Hab H]. apply Ascii.eqb_eq in Hab as ->.
  destruct (IH s H) as [rest ->]. by exists rest.
Qed.

Lemma split1_directive (s : string) :
  Py.startswith "-i " s = true → Py.split1 " " s !! 1 = Some (Py.drop 3 s).
Proof.
  intros H. by destruct (startswith_app _ _ H) as [rest ->].
Qed.

#[local] Arguments Py.startswith : simpl never.
#[local] Arguments Py.strip : simpl never.
#[local] Arguments Py.split1 : simpl never.
#[local] Arguments Py.contains : simpl never.
#[local] Arguments PosixPath.join : simpl never.
#[local] Arguments PosixPath.dirname : simpl never.

(** ** The monad *)

Ltac munfold :=
  unfold mbind, M_bind, bind, mret, M_ret, ret, raise, lift in *.

Lemma bind_inr {A B} (c : M A) (k : A → M B) (w w' : World) (x : A) :
  c w = (inr x, w') → (x ← c; k x) w = k x w'.
Proof. intros H. munfold. by rewrite H. Qed.

Lemma bind_inl {A B} (c : M A) (k : A → M B) (w w' : World) (e : Exc) :
  c w = (inl e, w') → (x ← c; k x) w = (inl e, w').
Proof. intros H. munfold. by rewrite H. Qed.

(** ** The series manifest: [series] and [_recursive_series] *)

(** Reading the manifests changes nothing. *)
Lemma series_lines_world (rec : string → M (list string)) self lines w :
  (∀ p w0, (rec p w0).2 = w0) →
  (PatchRepo.series_lines rec self lines w).2 = w.
Proof.
  intros Hrec. revert w. induction lines as [|line rest IH]; intros w; [done |].
  simpl. destruct (Py.startswith "-i " (Py.strip line)).
  - destruct (_ !! 1); [| done]. munfold.
    pose proof (Hrec (PosixPath.join self (Py.strip s)) w) as H1.
    destruct (rec _ w) as [[e|cs] w1]; simpl in H1; subst w1; [done |].
    pose proof (IH w) as H2.
    destruct (PatchRepo.series_lines rec self rest w) as [[e|os] w2];
      simpl in H2; by subst w2.
  - munfold. pose proof (IH w) as H2.
    destruct (PatchRepo.series_lines rec self rest w) as [[e|os] w2];
      simpl in H2; by subst w2.
Qed.

Lemma recursive_series_world limit self path w :
  (PatchRepo._recursive_series limit self path w).2 = w.
Proof.
  revert path w. induction limit as [|limit IH]; intros path w; [done |].
  simpl. munfold. unfold Os.read. destruct (fs w !! path); [| done].
  apply series_lines_world. intros; apply IH.
Qed.

(** The loop over the lines of a manifest, split at any point. *)
Lemma series_lines_app rec self pre post w before others :
  (∀ p w0, (rec p w0).2 = w0) →
  PatchRepo.series_lines rec self pre w = (inr before, w) →
  PatchRepo.series_lines rec self post w = (inr others, w) →
  PatchRepo.series_lines rec self (pre ++ post) w = (inr (before ++ others), w).
Proof.
  intros Hrec. revert before.
  induction pre as [|line pre IH]; intros before Hpre Hpost.
  - simpl in Hpre. munfold. by simplify_eq.
  - simpl in *. destruct (Py.startswith "-i " (Py.strip line)).
    + destruct (_ !! 1) as [after|]; [| done]. munfold.
      pose proof (Hrec (PosixPath.join self (Py.strip after)) w) as H1.
      destruct (rec _ w) as [[e|cs] w1]; [done |]. simpl in H1. subst w1.
      destruct (PatchRepo.series_lines rec self pre w) as [[e|os] w2] eqn:E;
        [done |].
      simplify_eq. rewrite (IH os); [| done | done].
      by rewrite <- app_assoc.
    + munfold.
      destruct (PatchRepo.series_lines rec self pre w) as [[e|os] w2] eqn:E;
        [done |].
      simplify_eq. by rewrite (IH os).
Qed.


Lemma series_lines_mono (rec1 rec2 : string → M (list string)) self lines w es :
  (∀ p w0, (rec1 p w0).2 = w0) →
  (∀ p cs, rec1 p w = (inr cs, w) → rec2 p w = (inr cs, w)) →
  PatchRepo.series_lines rec1 self lines w = (inr es, w) →
  PatchRepo.series_lines rec2 self lines w = (inr es, w).
Proof.
  intros Hpure Hrec. revert es.
  induction lines as [|line rest IH]; intros es H; [done |].
  simpl in *. destruct (Py.startswith "-i " (Py.strip line)).
  - destruct (_ !! 1) as [after|]; [| done]. munfold.
    pose proof (Hpure (PosixPath.join self (Py.strip after)) w) as H1.
    destruct (rec1 _ w) as [[e|cs] w1] eqn:E1; [done |].
    simpl in H1. subst w1. rewrite (Hrec _ _ E1).
    destruct (PatchRepo.series_lines rec1 self rest w) as [[e|os] w2] eqn:E;
      [done |].
    simplify_eq. by rewrite (IH os).
  - munfold.
    destruct (PatchRepo.series_lines rec1 self rest w) as [[e|os] w2] eqn:E;
      [done |].
    simplify_eq. by rewrite (IH os).
Qed.

(** A result obtained within some recursion limit is obtained within every
    larger one. *)
Lemma recursive_series_S limit self path w es :
  PatchRepo._recursive_series limit self path w = (inr es, w) →
  PatchRepo._recursive_series (S limit) self path w = (inr es, w).
Proof.
  revert path es. induction limit as [|limit IH]; intros path es H; [done |].
  change (PatchRepo._recursive_series (S (S limit)) self path w)
    with ((content ← Os.read path;
           PatchRepo.series_lines (PatchRepo._recursive_series (S limit) self)
             self (Py.file_lines content)) w).
  change (PatchRepo._recursive_series (S limit) self path w)
    with ((content ← Os.read path;
           PatchRepo.series_lines (PatchRepo._recursive_series limit self)
             self (Py.file_lines content)) w) in H.
  munfold. unfold Os.read in *. destruct (fs w !! path); [| done].
  eapply series_lines_mono; [| | exact H].
  - intros; apply recursive_series_world.
  - intros p cs. apply IH.
Qed.

Lemma recursive_series_le limit limit' self path w es :
  limit ≤ limit' →
  PatchRepo._recursive_series limit self path w = (inr es, w) →
  PatchRepo._recursive_series limit' self path w = (inr es, w).
Proof.
  induction 1 as [|m _ IH]; [done |]. intros H.
  by apply recursive_series_S, IH.
Qed.

(** A manifest without inclusion directives: one entry per line, stripped. *)
Lemma series_lines_flat rec self lines w :
  Forall (λ line, Py.startswith "-i " (Py.strip line) = false) lines →
  PatchRepo.series_lines rec self lines w = (inr (map Py.strip lines), w).
Proof.
  induction 1 as [|line rest Hl _ IH]; [done |].
  simpl. rewrite Hl. munfold. by rewrite IH.
Qed.

Lemma series_flat limit self w content :
  fs w !! PatchRepo.series_path self = Some content →
  Forall (λ line, Py.startswith "-i " (Py.strip line) = false)
         (Py.file_lines content) →
  PatchRepo.series (S limit) self w
  = (inr (map Py.strip (Py.file_lines content)), w).
Proof.
  intros Hfile Hflat. unfold PatchRepo.series. simpl. munfold.
  unfold Os.read. rewrite Hfile. by apply series_lines_flat.
Qed.

Lemma startswith_append (p rest : string) :
  Py.startswith p (p +:+ rest) = true.
Proof.
  induction p as [|a p IH]; [done |].
  change (Ascii.eqb a a && Py.startswith p (p +:+ rest) = true).
  by rewrite Ascii.eqb_refl, IH.
Qed.

Lemma recursive_series_written self w limit :
  ∀ path content entries,
    fs w !! path = Some content →
    line_by_line (written self w) (Py.file_lines content) entries →
    foldr Nat.max 0 (map depth entries) < limit →
    PatchRepo._recursive_series limit self path w
    = (inr (flat_map flattened entries), w).
Proof.
  induction limit as [|limit IH]; intros path content entries Hfile Hwritten
    Hdepth; [lia |].
  simpl. rewrite (bind_inr _ _ w w content)
    by (unfold Os.read; by rewrite Hfile).
  assert (foldr Nat.max 0 (map depth entries) ≤ limit) as Hle by lia.
  clear Hdepth Hfile. revert entries Hwritten Hle.
  induction (Py.file_lines content) as [|line lines IHl];
    intros [|e entries] Hwritten Hle; try done.
  destruct Hwritten as [He Hrest]. simpl in Hle.
  assert (PatchRepo.series_lines (PatchRepo._recursive_series limit self)
            self lines w = (inr (flat_map flattened entries), w)) as Hothers
    by (apply IHl; [done | lia]).
  destruct e as [name | rel nested].
  - destruct He as [Hname Hplain]. simpl. rewrite Hname, Hplain.
    by rewrite (bind_inr _ _ _ _ _ Hothers).
  - destruct He as [(path0 & Hline & Hrel) (content0 & Hfile0 & Hnested)].
    simpl. rewrite Hline, startswith_append.
    rewrite (split1_directive _ (startswith_append "-i " path0)).
    change (Py.drop 3 ("-i " +:+ path0)) with path0. rewrite Hrel.
    rewrite (bind_inr _ _ w w (flat_map flattened nested)).
    + by rewrite (bind_inr _ _ _ _ _ Hothers).
    + apply (IH _ content0 nested Hfile0 Hnested). simpl in Hle. lia.
Qed.

(** C4.  Let the series file of a patch repository say, line by line, a
    sequence of entries, where a line is a patch name or an inclusion
    directive followed by the path of a nested manifest, whose file says the
    nested entries in the same way, to any depth.  Then [series], run with
    a recursion limit above the depth of the inclusions, answers the
    flattened entries: every patch name of the parent manifest in its
    place, and in place of each directive the flattened entries of the
    nested manifest, depth-first, in their order, each prefixed by the
    directory of the nested manifest; what comes before the directive stays
    before, what comes after stays after.  The world is unchanged. *)
Theorem series_inclusion_in_place (limit : nat) (self : string) (w : World)
    (content : string) (entries : list Entry) :
  fs w !! PatchRepo.series_path self = Some content →
  line_by_line (written self w) (Py.file_lines content) entries →
  foldr Nat.max 0 (map depth entries) < limit →
  PatchRepo.series limit self w = (inr (flat_map flattened entries), w)
  ∧ ∀ pre rel nested post,
      entries = pre ++ Inclusion rel nested :: post →
      flat_map flattened entries
      = flat_map flattened pre
        ++ map (PosixPath.join (PosixPath.dirname rel))
               (flat_map flattened nested)
        ++ flat_map flattened post.
Proof.
  intros Hfile Hwritten Hdepth. split.
  - unfold PatchRepo.series. by eapply recursive_series_written.
  - intros pre rel nested post ->. by rewrite flat_map_app.
Qed.

Lemma series_inclusion_in_place_witness :
  PatchRepo.series 3 "/p" Sample.deep_world
  = (inr ["a.patch"; "sub/x.patch"; "sub/deep/z.patch"; "b.patch"],
     Sample.deep_world).
Proof.
  destruct (series_inclusion_in_place 3 "/p" Sample.deep_world
              (Sample.l "a.patch" +:+ Sample.l "-i sub/series"
               +:+ Sample.l "b.patch")
              [Patch "a.patch";
               Inclusion "sub/series"
                 [Patch "x.patch";
                  Inclusion "deep/series" [Patch "z.patch"]];
               Patch "b.patch"])
    as [Hseries _].
  - vm_compute. reflexivity.
  - change (Py.file_lines _)
      with [Sample.l "a.patch"; Sample.l "-i sub/series"; Sample.l "b.patch"].
    split; [split; vm_compute; reflexivity |].
    split; [| split; [split; vm_compute; reflexivity | exact I]].
    split; [exists "sub/series"; split; vm_compute; reflexivity |].
    exists (Sample.l "x.patch" +:+ Sample.l "-i deep/series").
    split; [vm_compute; reflexivity |].
    change (Py.file_lines _)
      with [Sample.l "x.patch"; Sample.l "-i deep/series"].
    split; [split; vm_compute; reflexivity |].
    split; [| exact I].
    split; [exists "deep/series"; split; vm_compute; reflexivity |].
    exists (Sample.l "z.patch"). split; [vm_compute; reflexivity |].
    change (Py.file_lines _) with [Sample.l "z.patch"].
    split; [split; vm_compute; reflexivity | exact I].
  - vm_compute. lia.
  - rewrite Hseries. vm_compute. reflexivity.
Defined.

(** C5.  On a flat manifest with a blank line between two entries, [series]
    answers an empty name for the blank line, where [_mutate_series_file]
    reading the same file skips it. *)
Theorem series_keeps_blank_line :
  (PatchRepo.series 1 "/p" Sample.blank_line_world).1
  = inr ["a.patch"; ""; "b.patch"]
  ∧ PatchRepo.read_entries
      (Py.file_lines (Sample.l "a.patch" +:+ Sample.l "" +:+ Sample.l "b.patch"))
    = ["a.patch"; "b.patch"].
Proof. split; vm_compute; reflexivity. Qed.

(** ** Lists as Python uses them *)

Lemma mem_true (x : string) (l : list string) : Py.mem x l = true ↔ x ∈ l.
Proof.
  unfold Py.mem. rewrite existsb_exists. split.
  - intros (y & Hy & Heq). apply String.eqb_eq in Heq as ->.
    by apply list_elem_of_In.
  - intros H. exists x. split; [by apply list_elem_of_In |].
    apply String.eqb_refl.
Qed.

Lemma mem_false (x : string) (l : list string) : Py.mem x l = false ↔ x ∉ l.
Proof.
  rewrite <- mem_true. destruct (Py.mem x l); split; (done || by intros []).
Qed.

Lemma index_Some (x : string) (l : list string) :
  x ∈ l → ∃ i, Py.index x l = Some i ∧ i < length l.
Proof.
  induction l as [|y l IH]; [by intros ?%elem_of_nil |].
  intros H. simpl. destruct (String.eqb_spec y x) as [->|Hne].
  - exists 0. split; [done | simpl; lia].
  - apply elem_of_cons in H as [-> | H]; [done |].
    destruct (IH H) as (i & -> & Hi). exists (S i). split; [done | simpl; lia].
Qed.

Lemma index_None (x : string) (l : list string) :
  x ∉ l → Py.index x l = None.
Proof.
  induction l as [|y l IH]; [done |].
  intros H. apply not_elem_of_cons in H as [Hne H]. simpl.
  destruct (String.eqb_spec y x) as [->|_]; [done |]. by rewrite IH.
Qed.

Lemma remove_None (x : string) (l : list string) :
  x ∉ l → Py.remove x l = None.
Proof.
  induction l as [|y l IH]; [done |].
  intros H. apply not_elem_of_cons in H as [Hne H]. simpl.
  destruct (String.eqb_spec y x) as [->|_]; [done |]. by rewrite IH.
Qed.

(** [l.remove(x)] takes out the first occurrence of [x]. *)
Lemma remove_Some (x : string) (l : list string) :
  x ∈ l →
  ∃ pre post,
    l = pre ++ x :: post ∧ (x ∉ pre) ∧ Py.remove x l = Some (pre ++ post).
Proof.
  induction l as [|y l IH]; [by intros ?%elem_of_nil |].
  intros H. simpl. destruct (String.eqb_spec y x) as [->|Hne].
  - exists [], l. split; [done |]. split; [apply not_elem_of_nil | done].
  - apply elem_of_cons in H as [-> | H]; [done |].
    destruct (IH H) as (pre & post & -> & Hpre & ->).
    exists (y :: pre), post. split; [done |]. split; [| done].
    apply not_elem_of_cons. auto.
Qed.

(** ** Staging in the patch repository *)

Lemma add_run self path w r content :
  repos w !! self = Some r →
  fs w !! PosixPath.join self path = Some content →
  Git.add self path w
  = (inr tt,
     set_repos (<[self := set_index (<[path := content]> (repo_index r)) r]>
                  (repos w)) w).
Proof.
  intros Hr Hf. unfold Git.add, Git.get_repo, Git.read_opt, Git.put_repo.
  munfold. by rewrite Hr, Hf.
Qed.

(** Staging a file that is there succeeds and touches no file. *)
Lemma add_ok self path w :
  is_Some (repos w !! self) →
  is_Some (fs w !! PosixPath.join self path) →
  ∃ w', Git.add self path w = (inr tt, w') ∧ fs w' = fs w
        ∧ is_Some (repos w' !! self).
Proof.
  intros [r Hr] [c Hc]. eexists. split; [by apply add_run |].
  split; [done |]. simpl. by rewrite lookup_insert_eq.
Qed.


Lemma mutate_run self body w content entries' w1 :
  fs w !! PatchRepo.series_path self = Some content →
  body (PatchRepo.read_entries (Py.file_lines content)) w = (inr entries', w1) →
  is_Some (repos w1 !! self) →
  ∃ w', PatchRepo._mutate_series_file self body w = (inr tt, w')
        ∧ fs w' = <[PatchRepo.series_path self
                     := PatchRepo.write_entries entries']> (fs w1)
        ∧ is_Some (repos w' !! self).
Proof.
  intros Hf Hbody Hr. unfold PatchRepo._mutate_series_file.
  munfold. unfold Os.read. rewrite Hf, Hbody. unfold Os.write.
  apply add_ok; [done |]. simpl. by rewrite lookup_insert_eq.
Qed.

Lemma mutate_raise self body w content e w1 :
  fs w !! PatchRepo.series_path self = Some content →
  body (PatchRepo.read_entries (Py.file_lines content)) w = (inl e, w1) →
  PatchRepo._mutate_series_file self body w = (inl e, w1).
Proof.
  intros Hf Hbody. unfold PatchRepo._mutate_series_file.
  munfold. unfold Os.read. by rewrite Hf, Hbody.
Qed.

(** ** [add_patches]: the list it computes *)









Lemma manifest_Some self w entries :
  manifest self w = Some entries →
  ∃ content, fs w !! PatchRepo.series_path self = Some content
             ∧ entries = PatchRepo.read_entries (Py.file_lines content).
Proof.
  unfold manifest. destruct (fs w !! PatchRepo.series_path self) as [c|];
    [| done].
  simpl. intros [= <-]. by exists c.
Qed.

Lemma manifest_clean self w entries :
  manifest self w = Some entries → Forall clean entries.
Proof.
  intros (c & _ & ->)%manifest_Some. apply read_entries_clean.
Qed.

Lemma manifest_written self w (f : gmap string string) entries :
  fs w = <[PatchRepo.series_path self := PatchRepo.write_entries entries]> f →
  Forall clean entries →
  manifest self w = Some entries.
Proof.
  intros Hfs Hclean. unfold manifest. rewrite Hfs, lookup_insert_eq. simpl.
  by rewrite read_write_entries.
Qed.












(** ** [remove_patch] *)

Lemma rm_run self path w r blob :
  repos w !! self = Some r →
  repo_index r !! path = Some blob →
  Git.head_tree r !! path = Some blob →
  fs w !! PosixPath.join self path = None
  ∨ fs w !! PosixPath.join self path = Some blob →
  Git.rm self path w
  = (inr tt,
     set_fs (delete (PosixPath.join self path) (fs w))
       (set_repos (<[self := set_index (delete path (repo_index r)) r]>
                     (repos w)) w)).
Proof.
  intros Hr Hindex Hhead Hfile.
  unfold Git.rm, Git.get_repo, Git.read_opt, Git.put_repo, Git.delete_file.
  munfold. rewrite Hr. simpl. rewrite Hindex.
  by rewrite bool_decide_eq_true_2 by done.
Qed.

Lemma rm_raise self path w e w' :
  Git.rm self path w = (inl e, w') → w' = w.
Proof.
  unfold Git.rm, Git.get_repo, Git.read_opt, Git.put_repo, Git.delete_file.
  munfold.
  destruct (repos w !! self) as [r|]; [| by intros [= _ <-]]. simpl.
  destruct (repo_index r !! path); [| by intros [= _ <-]].
  destruct (bool_decide _); [done | by intros [= _ <-]].
Qed.

(** What a successful [rm] has done. *)
Lemma rm_ok self path w w1 :
  Git.rm self path w = (inr tt, w1) →
  ∃ r, repos w !! self = Some r
       ∧ is_Some (repo_index r !! path)
       ∧ w1 = set_fs (delete (PosixPath.join self path) (fs w))
                (set_repos (<[self := set_index (delete path (repo_index r))
                                        r]> (repos w)) w).
Proof.
  unfold Git.rm, Git.get_repo, Git.read_opt, Git.put_repo, Git.delete_file.
  munfold.
  destruct (repos w !! self) as [r|]; [| done]. simpl.
  destruct (repo_index r !! path) as [blob|] eqn:Hblob; [| done].
  destruct (bool_decide _); [| done].
  intros [= <-]. exists r. split; [done |]. split; [by eexists | done].
Qed.

(** After a successful [rm], the series file is the one that was there. *)
Lemma manifest_after_rm self patch_name w w1 entries :
  Git.rm self patch_name w = (inr tt, w1) →
  manifest self w = Some entries →
  PosixPath.join self patch_name ≠ PatchRepo.series_path self →
  manifest self w1 = Some entries
  ∧ fs w1 = delete (PosixPath.join self patch_name) (fs w)
  ∧ is_Some (repos w1 !! self).
Proof.
  intros (r & Hr & Htracked & ->)%rm_ok Hmanifest Hpath.
  split; [| split].
  - unfold manifest in *. simpl. by rewrite lookup_delete_ne.
  - done.
  - simpl. rewrite lookup_insert_eq. by eexists.
Qed.

(** C7.  A series made of one inclusion lists the patch [sub/x.patch] of
    the nested manifest, and [remove_patch] is called with such flattened
    names by [restore] and [skip].  On that name [remove_patch] deletes the
    patch file and then raises ValueError, because the name is not an entry
    of the series file itself; the series still lists the name afterwards.
    [restore], which removes a patch that is upstream already, ends in
    that ValueError. *)
Theorem remove_patch_nested_name :
  let w := Sample.nested_upstream_world in
  let out := PatchRepo.remove_patch "/p" "sub/x.patch" w in
  PatchRepo.series 2 "/p" w = (inr ["sub/x.patch"], w)
  ∧ fs w !! "/p/sub/x.patch" = Some "UPSTREAM x"
  ∧ out.1 = inl ValueError
  ∧ fs out.2 !! "/p/sub/x.patch" = None
  ∧ PatchRepo.series 2 "/p" out.2 = (inr ["sub/x.patch"], out.2)
  ∧ (WorkingRepo.restore Sample.oracle 2 "/w" true w).1 = inl ValueError.
Proof. vm_compute. repeat split; reflexivity. Qed.

(** C9.  [remove_patch] runs [rm] before it reads the series.  For a name
    whose file is on disk and which the series file does not list, the
    outcome follows the one of [rm]: when [rm] succeeds, the call raises
    ValueError in exactly the world that [rm] has left, with the patch file
    gone from the disk and from the index and the series file as it was, so
    the failure is not atomic; when [rm] itself fails, its error is the one
    of the call and nothing has changed. *)
Theorem remove_patch_fails_after_rm (self patch_name : string) (w : World)
    (entries : list string) (blob : string) :
  fs w !! PosixPath.join self patch_name = Some blob →
  manifest self w = Some entries →
  patch_name ∉ entries →
  PosixPath.join self patch_name ≠ PatchRepo.series_path self →
  (∀ w1, Git.rm self patch_name w = (inr tt, w1) →
         PatchRepo.remove_patch self patch_name w = (inl ValueError, w1)
         ∧ fs w1 !! PosixPath.join self patch_name = None
         ∧ (∃ r r1, repos w !! self = Some r ∧ repos w1 !! self = Some r1
                    ∧ is_Some (repo_index r !! patch_name)
                    ∧ repo_index r1 !! patch_name = None)
         ∧ manifest self w1 = Some entries
         ∧ w1 ≠ w)
  ∧ (∀ e w1, Git.rm self patch_name w = (inl e, w1) →
             PatchRepo.remove_patch self patch_name w = (inl e, w)
             ∧ w1 = w).
Proof.
  intros Hfile Hmanifest Hnot Hpath. split.
  - intros w1 Hrm.
    destruct (manifest_after_rm _ _ _ _ _ Hrm Hmanifest Hpath)
      as (Hmanifest1 & Hfs1 & Hrepo1).
    destruct (manifest_Some _ _ _ Hmanifest1) as (content & Hcontent & ->).
    split.
    { unfold PatchRepo.remove_patch. rewrite (bind_inr _ _ _ _ _ Hrm).
      apply mutate_raise with content; [done |].
      by rewrite (remove_None _ _ Hnot). }
    split; [rewrite Hfs1; apply lookup_delete_eq |].
    destruct (rm_ok _ _ _ _ Hrm) as (r & Hr & Htracked & Hw1).
    split.
    { exists r, (set_index (delete patch_name (repo_index r)) r).
      split; [done |]. split; [subst w1; simpl; apply lookup_insert_eq |].
      split; [done |]. simpl. apply lookup_delete_eq. }
    split; [done |]. intros Heq. rewrite Heq in Hfs1.
    rewrite Hfs1, lookup_delete_eq in Hfile. done.
  - intros e w1 Hrm. pose proof (rm_raise _ _ _ _ _ Hrm) as ->.
    split; [| done]. unfold PatchRepo.remove_patch.
    by rewrite (bind_inl _ _ _ _ _ Hrm).
Qed.

Lemma remove_patch_fails_after_rm_witness :
  ∃ w', PatchRepo.remove_patch "/p" "stray.patch" Sample.stray_world
        = (inl ValueError, w')
        ∧ fs w' !! "/p/stray.patch" = None
        ∧ fs Sample.stray_world !! "/p/stray.patch" = Some "fix stray".
Proof.
  destruct (remove_patch_fails_after_rm "/p" "stray.patch" Sample.stray_world
              ["a.patch"] "fix stray") as [Hafter _].
  - vm_compute. reflexivity.
  - vm_compute. reflexivity.
  - intros H%list_elem_of_singleton. discriminate.
  - vm_compute. discriminate.
  - destruct (Hafter (Git.rm "/p" "stray.patch" Sample.stray_world).2)
      as (Hrun & Hgone & _); [vm_compute; reflexivity |].
    eexists. split; [exact Hrun |]. split; [exact Hgone |].
    vm_compute. reflexivity.
Defined.

(** C9, counterexample to the claim read for every file on disk: a patch
    file that is on disk without being tracked, and that the series does
    not list.  [remove_patch] fails in [rm], before anything is removed,
    and the world is the one it started in. *)
Lemma remove_patch_untracked_file :
  fs Sample.untracked_world !! "/p/new.patch" = Some "fix new"
  ∧ manifest "/p" Sample.untracked_world = Some ["a.patch"]
  ∧ PatchRepo.remove_patch "/p" "new.patch" Sample.untracked_world
    = (inl GitException, Sample.untracked_world).
Proof. vm_compute. repeat split; reflexivity. Qed.

(** ** The dependency graph *)

Lemma foldl_append_change p l (fc : gmap string (list string)) f :
  NoDup l →
  foldl (PatchRepo.append_change p) fc l !! f
  = if decide (f ∈ l) then Some (default [] (fc !! f) ++ [p]) else fc !! f.
Proof.
  revert fc. induction l as [|x l IH]; intros fc Hnd; simpl.
  - destruct (decide (f ∈ [])) as [H|_]; [by apply elem_of_nil in H | done].
  - apply NoDup_cons in Hnd as [Hx Hnd]. rewrite IH by done.
    unfold PatchRepo.append_change.
    destruct (decide (f ∈ l)) as [Hl|Hl].
    + assert (x ≠ f) by (by intros ->).
      rewrite lookup_insert_ne by done.
      destruct (decide (f ∈ x :: l)) as [_|Hn]; [done |].
      exfalso. apply Hn. by right.
    + destruct (decide (x = f)) as [->|Hne].
      * rewrite lookup_insert_eq.
        destruct (decide (f ∈ f :: l)) as [_|Hn]; [done |].
        exfalso. apply Hn. by left.
      * rewrite lookup_insert_ne by done.
        destruct (decide (f ∈ x :: l)) as [[?|?]%elem_of_cons|_]; done.
Qed.

Lemma changes_loop_run self patches changed w
    (fc0 : gmap string (list string)) :
  (∀ p, p ∈ patches →
        PatchRepo._changed_files_for_patch self p w = (inr (changed p), w)) →
  ∃ fc, PatchRepo.changes_loop self patches fc0 w = (inr fc, w)
        ∧ ∀ f, fc !! f = merge_changes (fc0 !! f) (touching changed f patches).
Proof.
  revert fc0. induction patches as [|p ps IH]; intros fc0 Hread.
  - exists fc0. split; [done |]. intros f. unfold merge_changes, touching.
    simpl. destruct (fc0 !! f); simpl; [by rewrite app_nil_r | done].
  - destruct (IH (foldl (PatchRepo.append_change p) fc0
                        (elements (changed p)))) as (fc & Hrun & Hfc).
    { intros q Hq. apply Hread. by right. }
    exists fc. split.
    { simpl. munfold. rewrite (Hread p) by (by left). exact Hrun. }
    intros f. rewrite Hfc, foldl_append_change by apply NoDup_elements.
    unfold touching. rewrite filter_cons.
    destruct (decide (f ∈ elements (changed p))) as [Hin|Hin];
      rewrite elem_of_elements in Hin.
    + rewrite decide_True by done. unfold merge_changes. simpl.
      rewrite <- app_assoc. simpl.
      by destruct (fc0 !! f), (filter _ ps).
    + by rewrite decide_False by done.
Qed.

Lemma consecutive_cons a b x l :
  consecutive a b (x :: l) ↔ (x = a ∧ ∃ l', l = b :: l') ∨ consecutive a b l.
Proof.
  unfold consecutive. split.
  - intros (l1 & l2 & H). destruct l1 as [|y l1]; simpl in H; simplify_eq.
    + left. eauto.
    + right. eauto.
  - intros [[-> [l' ->]] | (l1 & l2 & ->)].
    + by exists [], l'.
    + by exists (x :: l1), l2.
Qed.

Lemma consecutive_short a b l : length l ≤ 1 → ¬ consecutive a b l.
Proof.
  intros Hlen (l1 & l2 & ->). rewrite length_app in Hlen. simpl in Hlen. lia.
Qed.

Lemma labels_add_edge edge filename graph e x :
  x ∈ labels (PatchRepo.add_edge edge filename graph) e
  ↔ x ∈ labels graph e ∨ (x = filename ∧ e = edge).
Proof.
  unfold labels, PatchRepo.add_edge.
  destruct (decide (edge = e)) as [->|Hne].
  - rewrite lookup_insert_eq. simpl. rewrite elem_of_union, elem_of_singleton.
    naive_solver.
  - rewrite lookup_insert_ne by done. naive_solver.
Qed.

Lemma dependents_loop_labels filename parent l graph e x :
  x ∈ labels (PatchRepo.dependents_loop filename parent l graph) e
  ↔ x ∈ labels graph e
    ∨ (x = filename ∧ linked e (option_list parent ++ l)).
Proof.
  revert parent graph. induction l as [|d rest IH]; intros parent graph.
  - simpl. split; [by left |]. intros [H | [_ [H _]]]; [done |].
    exfalso. eapply consecutive_short; [| exact H].
    rewrite app_nil_r. destruct parent; simpl; lia.
  - simpl. rewrite IH. unfold linked. simpl.
    destruct parent as [[|c p]|]; simpl.
    + rewrite !consecutive_cons. destruct e as [e1 e2]. simpl. naive_solver.
    + rewrite labels_add_edge, !consecutive_cons. destruct e as [e1 e2].
      simpl. split.
      * intros [[H | [-> [= -> ->]]] | [-> [[[-> [l' ->]] | H] Hne]]];
          naive_solver.
      * intros [H | [-> [[[<- [l' [= <- <-]]] | [[-> [l' ->]] | H]] Hne]]];
          naive_solver.
    + rewrite !consecutive_cons. naive_solver.
Qed.

Lemma files_loop_labels items graph e x :
  x ∈ labels (foldl (λ graph item,
                       PatchRepo.dependents_loop item.1 None item.2 graph)
                    graph items) e
  ↔ x ∈ labels graph e ∨ ∃ l, (x, l) ∈ items ∧ linked e l.
Proof.
  revert graph. induction items as [|[f l] items IH]; intros graph; simpl.
  - split; [by left |]. intros [H | (l & H & _)]; [done |].
    by apply elem_of_nil in H.
  - rewrite IH, dependents_loop_labels. simpl. split.
    + intros [[H | [-> H]] | (l' & H & Hl)].
      * by left.
      * right. exists l. split; [by left | done].
      * right. exists l'. split; [by right | done].
    + intros [H | (l' & [[= -> ->] | H]%elem_of_cons & Hl)].
      * left. by left.
      * left. right. done.
      * right. eauto.
Qed.

Lemma labelled_add_edge edge filename graph :
  labelled graph → labelled (PatchRepo.add_edge edge filename graph).
Proof.
  intros H e files. unfold PatchRepo.add_edge.
  destruct (decide (edge = e)) as [->|Hne].
  - rewrite lookup_insert_eq. intros [= <-]. set_solver.
  - rewrite lookup_insert_ne by done. apply H.
Qed.

Lemma labelled_dependents_loop filename parent l graph :
  labelled graph →
  labelled (PatchRepo.dependents_loop filename parent l graph).
Proof.
  revert parent graph. induction l as [|d rest IH]; intros parent graph H;
    [done |].
  simpl. apply IH. destruct (Py.truthy parent); [| done].
  by apply labelled_add_edge.
Qed.

Lemma labelled_files_loop items : labelled (PatchRepo.files_loop items).
Proof.
  unfold PatchRepo.files_loop.
  assert (labelled ∅) as H by (intros e files; by rewrite lookup_empty).
  revert H. generalize (∅ : gmap (string * string) (gset string)).
  induction items as [|item items IH]; intros graph H; [done |].
  simpl. apply IH. by apply labelled_dependents_loop.
Qed.

Lemma touching_elem changed filename patches p :
  p ∈ touching changed filename patches → filename ∈ changed p ∧ p ∈ patches.
Proof. unfold touching. by rewrite list_elem_of_filter. Qed.

Lemma consecutive_elem a b l : consecutive a b l → a ∈ l ∧ b ∈ l.
Proof.
  intros (l1 & l2 & ->). rewrite !elem_of_app, !elem_of_cons. tauto.
Qed.

(** C8.  With the flattened series [patches] and the files changed by each
    patch given by [changed] (no patch bears the empty name, which denotes
    the repository directory and not a file), [patch_dependencies] answers a
    graph in which a file belongs to the label of [(dependent, parent)]
    exactly when the parent comes right before the dependent among the
    patches touching that file, in series order; the edge is there exactly
    when some file links the two in this way; and two patches that touch
    disjoint sets of files have no edge between them, in either direction. *)
Theorem patch_dependencies_graph (limit : nat) (self : string) (w : World)
    (patches : list string) (changed : string → gset string) :
  PatchRepo.series limit self w = (inr patches, w) →
  (∀ p, p ∈ patches →
        PatchRepo._changed_files_for_patch self p w = (inr (changed p), w)) →
  "" ∉ patches →
  ∃ graph,
    PatchRepo.patch_dependencies limit self w = (inr graph, w)
    ∧ (∀ dependent parent filename,
         filename ∈ labels graph (dependent, parent)
         ↔ consecutive parent dependent (touching changed filename patches))
    ∧ (∀ dependent parent,
         is_Some (graph !! (dependent, parent))
         ↔ ∃ filename,
             consecutive parent dependent (touching changed filename patches))
    ∧ (∀ dependent parent,
         changed dependent ## changed parent →
         graph !! (dependent, parent) = None
         ∧ graph !! (parent, dependent) = None).
Proof.
  intros Hseries Hread Hnonempty.
  destruct (changes_loop_run self patches changed w ∅ Hread)
    as (fc & Hrun & Hfc).
  set (graph := PatchRepo.files_loop (map_to_list fc)).
  assert (∀ dependent parent filename,
            filename ∈ labels graph (dependent, parent)
            ↔ consecutive parent dependent (touching changed filename patches))
    as Hlabels.
  { intros d p f. unfold graph, PatchRepo.files_loop.
    rewrite files_loop_labels. unfold labels at 1. rewrite lookup_empty.
    simpl. split.
    - intros [H | (l & Hl & [Hc _])]; [by apply not_elem_of_empty in H |].
      apply elem_of_map_to_list in Hl. rewrite Hfc, lookup_empty in Hl.
      unfold merge_changes in Hl.
      destruct (touching changed f patches); simplify_eq. exact Hc.
    - intros Hc. right. exists (touching changed f patches). split.
      + apply elem_of_map_to_list. rewrite Hfc, lookup_empty.
        unfold merge_changes.
        destruct (touching changed f patches) eqn:E; [| done].
        exfalso. by apply (consecutive_short p d []); [simpl; lia |].
      + split; [exact Hc |]. simpl. intros ->.
        apply consecutive_elem in Hc as [Hc _].
        apply touching_elem in Hc as [_ Hc]. done. }
  assert (∀ dependent parent,
            is_Some (graph !! (dependent, parent))
            ↔ ∃ filename,
                consecutive parent dependent
                  (touching changed filename patches)) as Hedges.
  { intros d p. split.
    - intros [files Hfiles].
      pose proof (labelled_files_loop (map_to_list fc) _ _ Hfiles) as Hne.
      apply set_choose_L in Hne as [f Hf]. exists f. apply Hlabels.
      unfold labels. fold graph in Hfiles. by rewrite Hfiles.
    - intros [f Hf]. apply Hlabels in Hf. unfold labels in Hf.
      destruct (graph !! (d, p)); [by eexists |].
      by apply not_elem_of_empty in Hf. }
  exists graph. split.
  { unfold PatchRepo.patch_dependencies, PatchRepo._changes_by_filename.
    munfold. by rewrite Hseries, Hrun. }
  split; [exact Hlabels |]. split; [exact Hedges |].
  intros d p Hdisj.
  assert (∀ a b f, changed a ## changed b →
                   ¬ consecutive b a (touching changed f patches)) as Hno.
  { intros a b f Hab Hc. apply consecutive_elem in Hc as [Hb Ha].
    apply touching_elem in Ha as [Ha _]. apply touching_elem in Hb as [Hb _].
    by apply (Hab f). }
  split; apply eq_None_not_Some; intros [f Hf]%Hedges;
    eapply Hno; [| exact Hf | | exact Hf]; done.
Qed.

Lemma patch_dependencies_graph_witness :
  ∃ graph,
    PatchRepo.patch_dependencies 1 "/p" Sample.overlap_world
    = (inr graph, Sample.overlap_world)
    ∧ "f" ∈ labels graph ("b.patch", "a.patch")
    ∧ "g" ∉ labels graph ("b.patch", "a.patch").
Proof.
  destruct (patch_dependencies_graph 1 "/p" Sample.overlap_world
              ["a.patch"; "b.patch"] Sample.overlap_changed)
    as (graph & Hrun & Hlabels & _).
  - vm_compute. reflexivity.
  - intros p [->|[->|H]%elem_of_cons]%elem_of_cons.
    + vm_compute. reflexivity.
    + vm_compute. reflexivity.
    + by apply elem_of_nil in H.
  - intros [H|[H|H]%elem_of_cons]%elem_of_cons; try discriminate.
    by apply elem_of_nil in H.
  - exists graph. split; [exact Hrun |]. split.
    + apply Hlabels. by exists [], [].
    + intros H%Hlabels. eapply consecutive_short; [| exact H].
      vm_compute. constructor.
Defined.

(** ** Runs that keep a relation between worlds *)

Lemma stable_ret {A} R `{!Reflexive R} (x : A) : stable R (mret x : M A).
Proof. intros w. simpl. reflexivity. Qed.

Lemma stable_raise {A} R `{!Reflexive R} (e : Exc) : stable R (raise e : M A).
Proof. intros w. simpl. reflexivity. Qed.

Lemma stable_lift {A} R `{!Reflexive R} (r : Exc + A) : stable R (lift r).
Proof. intros w. simpl. reflexivity. Qed.

Lemma stable_bind {A B} R `{!Transitive R} (c : M A) (k : A → M B) :
  stable R c → (∀ x, stable R (k x)) → stable R (x ← c; k x).
Proof.
  intros Hc Hk w. munfold. specialize (Hc w).
  destruct (c w) as [[e|x] w1]; [exact Hc |].
  etrans; [exact Hc | apply Hk].
Qed.

Lemma stable_try_except {A} R `{!Transitive R} (c : M A) handler :
  stable R c → (∀ e h, handler e = Some h → stable R h) →
  stable R (try_except c handler).
Proof.
  intros Hc Hh w. unfold try_except. specialize (Hc w).
  destruct (c w) as [[e|x] w1]; [| exact Hc].
  destruct (handler e) as [h|] eqn:E; [| exact Hc].
  etrans; [exact Hc | by apply (Hh e h)].
Qed.

Lemma stable_weaken {A} (R R' : World → World → Prop) (c : M A) :
  (∀ w w', R w w' → R' w w') → stable R c → stable R' c.
Proof. intros H Hc w. apply H, Hc. Qed.

#[local] Instance same_heads_preorder : PreOrder same_heads.
Proof.
  split.
  - by intros w p.
  - intros w1 w2 w3 H12 H23 p.
    destruct (H12 p) as (? & ? & ?), (H23 p) as (? & ? & ?).
    split_and!; congruence.
Qed.

#[local] Instance keeps_preorder self : PreOrder (keeps self).
Proof.
  split.
  - by intros w p.
  - intros w1 w2 w3 H12 H23 p.
    destruct (H12 p) as [? H1], (H23 p) as [? H2].
    split; [congruence |]. intros Hp. rewrite H2, H1; done.
Qed.

#[local] Instance annotates_only_preorder self : PreOrder (annotates_only self).
Proof.
  split.
  - intros w r Hr. exists r, []. split; [done |]. split; [done | constructor].
  - intros w1 w2 w3 H12 H23 r Hr.
    destruct (H12 r Hr) as (r2 & added2 & Hr2 & Hlog2 & Ha2).
    destruct (H23 r2 Hr2) as (r3 & added3 & Hr3 & Hlog3 & Ha3).
    exists r3, (added3 ++ added2). split; [done |]. split.
    + by rewrite Hlog3, Hlog2, app_assoc.
    + by apply Forall_app.
Qed.

Lemma same_heads_keeps self w w' : same_heads w w' → keeps self w w'.
Proof. intros H p. destruct (H p) as (? & ? & ?). by split. Qed.

Lemma same_heads_annotates_only self w w' :
  same_heads w w' → annotates_only self w w'.
Proof.
  intros H r Hr. destruct (H self) as (_ & Hreflog & _).
  unfold reflog_of in Hreflog. rewrite Hr in Hreflog. simpl in Hreflog.
  destruct (repos w' !! self) as [r'|]; [| done].
  exists r', []. simpl in Hreflog. split; [done |].
  split; [simpl; congruence | constructor].
Qed.

(** Replacing a repository by one with the same history, reflog and
    configuration. *)
Lemma put_same_heads self r r' w :
  repos w !! self = Some r →
  repo_log r' = repo_log r → repo_reflog r' = repo_reflog r →
  repo_config r' = repo_config r →
  same_heads w (set_repos (<[self := r']> (repos w)) w).
Proof.
  intros Hr Hlog Hreflog Hconfig p.
  unfold log_of, reflog_of, config_of. simpl.
  destruct (decide (self = p)) as [<-|Hne].
  - rewrite lookup_insert_eq, Hr. simpl. by rewrite Hlog, Hreflog, Hconfig.
  - by rewrite lookup_insert_ne.
Qed.

(** A run that leaves the repositories alone. *)
Lemma stable_same_repos {A} (c : M A) :
  (∀ w, repos (c w).2 = repos w) → stable same_heads c.
Proof.
  intros H w p. unfold log_of, reflog_of, config_of. by rewrite H.
Qed.

Create HintDb stable discriminated.

Lemma stable_os_read path : stable same_heads (Os.read path).
Proof.
  apply stable_same_repos. intros w. unfold Os.read. by destruct (fs w !! path).
Qed.

Lemma stable_os_write path content : stable same_heads (Os.write path content).
Proof. by apply stable_same_repos. Qed.

Lemma stable_os_exists path : stable same_heads (Os.exists_ path).
Proof. by apply stable_same_repos. Qed.

Lemma stable_os_unlink path : stable same_heads (Os.unlink path).
Proof.
  apply stable_same_repos. intros w. unfold Os.unlink.
  by destruct (fs w !! path).
Qed.

Lemma stable_os_rename src dst : stable same_heads (Os.rename src dst).
Proof.
  apply stable_same_repos. intros w. unfold Os.rename.
  by destruct (fs w !! src).
Qed.

Lemma stable_warn msg quiet : stable same_heads (warn msg quiet).
Proof. apply stable_same_repos. intros w. unfold warn. by destruct quiet. Qed.

Lemma stable_get_repo self : stable same_heads (Git.get_repo self).
Proof.
  apply stable_same_repos. intros w. unfold Git.get_repo.
  by destruct (repos w !! self).
Qed.

Lemma stable_read_opt path : stable same_heads (Git.read_opt path).
Proof. by apply stable_same_repos. Qed.

Lemma stable_delete_file path : stable same_heads (Git.delete_file path).
Proof. by apply stable_same_repos. Qed.

#[local] Hint Resolve stable_os_read stable_os_write stable_os_exists
  stable_os_unlink stable_os_rename stable_warn stable_get_repo
  stable_read_opt stable_delete_file : stable.

(** One step of a structural proof that a run keeps a relation. *)
Ltac stable_step :=
  first
    [ apply stable_ret; apply _
    | apply stable_raise; apply _
    | apply stable_lift; apply _
    | solve [eauto with stable]
    | apply stable_bind; [apply _ | | intros ?]
    | apply stable_try_except; [apply _ | | intros ? ?]
    | match goal with
      | |- stable _ (match ?x with _ => _ end) => destruct x
      end ].

Ltac stable_steps := repeat stable_step.

Lemma stable_uncommitted_changes self :
  stable same_heads (Git.uncommitted_changes self).
Proof. unfold Git.uncommitted_changes. stable_steps. Qed.

Lemma stable_log self since pretty skip :
  stable same_heads (Git.log self since pretty skip).
Proof. unfold Git.log. stable_steps. Qed.

Lemma stable_config_get self key : stable same_heads (Git.config_get self key).
Proof. unfold Git.config_get. stable_steps. Qed.

Lemma stable_add self path : stable same_heads (Git.add self path).
Proof.
  intros w. unfold Git.add, Git.get_repo, Git.read_opt, Git.put_repo. munfold.
  destruct (repos w !! self) as [r|] eqn:Hr; [| reflexivity].
  destruct (fs w !! _); simpl.
  - by eapply put_same_heads.
  - destruct (repo_index r !! path); [by eapply put_same_heads | reflexivity].
Qed.

Lemma stable_rm self path : stable same_heads (Git.rm self path).
Proof.
  intros w.
  unfold Git.rm, Git.get_repo, Git.read_opt, Git.put_repo, Git.delete_file.
  munfold. destruct (repos w !! self) as [r|] eqn:Hr; [| reflexivity].
  simpl. destruct (repo_index r !! path); [| reflexivity].
  destruct (bool_decide _); [| reflexivity].
  simpl. intros p. by eapply (put_same_heads self r _ w).
Qed.

Lemma stable_write_files self files :
  stable same_heads (Git.write_files self files).
Proof.
  induction files as [|[name content] files IH]; simpl; stable_steps.
Qed.

Lemma stable_format_patch g self since :
  stable same_heads (Git.format_patch g self since).
Proof.
  unfold Git.format_patch. pose proof stable_write_files. stable_steps.
Qed.

#[local] Hint Resolve stable_uncommitted_changes stable_log stable_config_get
  stable_add stable_rm stable_format_patch : stable.

Lemma stable_pure {A} R `{!Reflexive R} (c : M A) :
  (∀ w, (c w).2 = w) → stable R c.
Proof. intros H w. rewrite H. reflexivity. Qed.

Lemma stable_series limit self : stable same_heads (PatchRepo.series limit self).
Proof.
  apply stable_pure; [apply _ |]. intros w. apply recursive_series_world.
Qed.

Lemma stable_mutate_series_file self body :
  (∀ entries, stable same_heads (body entries)) →
  stable same_heads (PatchRepo._mutate_series_file self body).
Proof. intros H. unfold PatchRepo._mutate_series_file. stable_steps. Qed.

Lemma stable_add_patches_loop self base idx patch_names entries :
  stable same_heads
    (PatchRepo.add_patches_loop self base idx patch_names entries).
Proof.
  revert idx entries.
  induction patch_names as [|n names IH]; intros idx entries; simpl;
    stable_steps.
Qed.

Lemma stable_add_patches self patch_names parent :
  stable same_heads (PatchRepo.add_patches self patch_names parent).
Proof.
  unfold PatchRepo.add_patches. apply stable_mutate_series_file.
  intros entries. pose proof stable_add_patches_loop. stable_steps.
Qed.

Lemma stable_remove_patch self patch_name :
  stable same_heads (PatchRepo.remove_patch self patch_name).
Proof.
  unfold PatchRepo.remove_patch. stable_steps.
Qed.

#[local] Hint Resolve stable_series stable_add_patches stable_remove_patch
  : stable.

Lemma stable_applied_patches self :
  stable same_heads (WorkingRepo._applied_patches self).
Proof. unfold WorkingRepo._applied_patches. stable_steps. Qed.

#[local] Hint Resolve stable_applied_patches : stable.

Lemma stable_last_upstream_commit_hash self :
  stable same_heads (WorkingRepo._last_upstream_commit_hash self).
Proof. unfold WorkingRepo._last_upstream_commit_hash. stable_steps. Qed.

Lemma stable_patch_repo_path self :
  stable same_heads (WorkingRepo.patch_repo_path self).
Proof.
  unfold WorkingRepo.patch_repo_path. stable_steps.
  destruct e; intros; simplify_eq; stable_steps.
Qed.

#[local] Hint Resolve stable_last_upstream_commit_hash stable_patch_repo_path
  : stable.

Lemma stable_patch_repo self : stable same_heads (WorkingRepo.patch_repo self).
Proof. unfold WorkingRepo.patch_repo. stable_steps. Qed.

#[local] Hint Resolve stable_patch_repo : stable.

Lemma stable_store_loop self patch_names filenames :
  stable same_heads (WorkingRepo.store_loop self patch_names filenames).
Proof.
  revert filenames.
  induction patch_names as [|n names IH]; intros [|f filenames]; simpl;
    stable_steps.
Qed.

#[local] Hint Resolve stable_store_loop : stable.

Lemma stable_store_patch_files self patch_names filenames parent :
  stable same_heads
    (WorkingRepo._store_patch_files self patch_names filenames parent).
Proof. unfold WorkingRepo._store_patch_files. stable_steps. Qed.

Lemma stable_create_conflict_file self patch_name :
  stable same_heads (WorkingRepo._create_conflict_file self patch_name).
Proof. unfold WorkingRepo._create_conflict_file. stable_steps. Qed.

Lemma stable_teardown_conflict_file self :
  stable same_heads (WorkingRepo._teardown_conflict_file self).
Proof. unfold WorkingRepo._teardown_conflict_file. stable_steps. Qed.

Lemma stable_create_patches g self since :
  stable same_heads (WorkingRepo._create_patches g self since).
Proof. unfold WorkingRepo._create_patches. stable_steps. Qed.

#[local] Hint Resolve stable_store_patch_files stable_create_conflict_file
  stable_teardown_conflict_file stable_create_patches : stable.

(** ** Annotations *)

Lemma contains_annotation (msg patch_name : string) :
  Py.contains "Ply-Patch"
    (msg +:+ Py.nl +:+ Py.nl +:+ "Ply-Patch: " +:+ patch_name) = true.
Proof.
  induction msg as [|c msg IH]; [reflexivity |].
  change (Py.contains "Ply-Patch"
            (String c (msg +:+ Py.nl +:+ Py.nl +:+ "Ply-Patch: " +:+ patch_name))
          = true).
  change (Py.startswith "Ply-Patch"
            (String c (msg +:+ Py.nl +:+ Py.nl +:+ "Ply-Patch: " +:+ patch_name))
          || Py.contains "Ply-Patch"
               (msg +:+ Py.nl +:+ Py.nl +:+ "Ply-Patch: " +:+ patch_name)
          = true).
  rewrite IH. apply orb_true_r.
Qed.

Lemma annotation_contains (commit_msg patch_name : string) :
  Utils.get_patch_annotation commit_msg = Some patch_name →
  Py.contains "Ply-Patch" commit_msg = true.
Proof.
  induction commit_msg as [|c msg IH]; [done |].
  change (Utils.get_patch_annotation (String c msg))
    with (if Py.startswith "Ply-Patch: " (String c msg)
          then Some (Utils.until_newline (Py.drop 11 (String c msg)))
          else Utils.get_patch_annotation msg).
  change (Py.contains "Ply-Patch" (String c msg))
    with (Py.startswith "Ply-Patch" (String c msg)
          || Py.contains "Ply-Patch" msg).
  destruct (Py.startswith "Ply-Patch: " (String c msg)) eqn:E.
  - intros _. apply startswith_app in E as [rest ->]. reflexivity.
  - intros H. rewrite (IH H). apply orb_true_r.
Qed.

Lemma log_head self w r c older :
  repos w !! self = Some r → repo_log r = c :: older →
  Git.log self None PrettyBody 0 w = (inr (commit_msg c), w).
Proof.
  intros Hr Hlog. unfold Git.log, Git.get_repo. munfold.
  rewrite Hr. simpl. unfold Git.rev_parse. simpl. by rewrite Hlog.
Qed.

(** What [_add_patch_annotation] does to a repository with HEAD [c]. *)
Lemma add_patch_annotation_run g self patch_name w r c older :
  repos w !! self = Some r → repo_log r = c :: older →
  WorkingRepo._add_patch_annotation g self patch_name w
  = if Py.contains "Ply-Patch" (commit_msg c) then (inr tt, w)
    else
      let msg := commit_msg c +:+ Py.nl +:+ Py.nl +:+ "Ply-Patch: "
                 +:+ patch_name in
      let c' := mkCommit (hash_of g msg (repo_index r) older) msg
                  (repo_index r) in
      (inr tt,
       set_repos (<[self := move_head RefAmend (c' :: older) r]> (repos w)) w).
Proof.
  intros Hr Hlog. unfold WorkingRepo._add_patch_annotation.
  rewrite (bind_inr _ _ w w (commit_msg c)) by (by eapply log_head).
  destruct (Py.contains "Ply-Patch" (commit_msg c)); [done |].
  simpl. unfold Git.commit, Git.get_repo, Git.put_repo. munfold.
  by rewrite Hr, Hlog.
Qed.

Lemma put_annotates_only self self' r r' added w :
  repos w !! self' = Some r →
  repo_reflog r' = added ++ repo_reflog r →
  amends_annotate added →
  annotates_only self w (set_repos (<[self' := r']> (repos w)) w).
Proof.
  intros Hr Hlog Ha r0 Hr0. simpl.
  destruct (decide (self' = self)) as [->|Hne].
  - rewrite lookup_insert_eq. simplify_eq. by exists r', added.
  - rewrite lookup_insert_ne by done. exists r0, [].
    split; [done |]. split; [done | constructor].
Qed.

Lemma amends_annotate_other action old new :
  action ≠ RefAmend → amends_annotate [mkRefChange action old new].
Proof. intros H. repeat constructor. by intros ?. Qed.

Lemma stable_add_patch_annotation g self self' patch_name :
  stable (annotates_only self)
         (WorkingRepo._add_patch_annotation g self' patch_name).
Proof.
  intros w. destruct (repos w !! self') as [r|] eqn:Hr.
  - destruct (repo_log r) as [|c older] eqn:Hlog.
    + unfold WorkingRepo._add_patch_annotation, Git.log, Git.get_repo.
      munfold. rewrite Hr. simpl. unfold Git.rev_parse. simpl.
      rewrite Hlog. simpl. reflexivity.
    + rewrite (add_patch_annotation_run g self' patch_name w r c older)
        by done.
      destruct (Py.contains "Ply-Patch" (commit_msg c)) eqn:E;
        [reflexivity |].
      simpl. eapply (put_annotates_only _ _ r _ [_]); [done | done |].
      repeat constructor. intros _. rewrite Hlog. simpl.
      eexists _, _. split; [done |]. split; [done |].
      split; [done |]. by exists patch_name.
  - unfold WorkingRepo._add_patch_annotation, Git.log, Git.get_repo.
    munfold. rewrite Hr. reflexivity.
Qed.

Lemma stable_commit_new g self self' msg :
  stable (annotates_only self) (Git.commit g self' msg false).
Proof.
  intros w. unfold Git.commit, Git.get_repo, Git.put_repo. munfold.
  destruct (repos w !! self') as [r|] eqn:Hr; [| reflexivity].
  simpl. destruct (bool_decide _); [reflexivity |].
  simpl. eapply (put_annotates_only _ _ r _ [_]); [done | done |].
  by apply amends_annotate_other.
Qed.

Lemma stable_am g self self' patch_path three_way :
  stable (annotates_only self) (Git.am g self' patch_path three_way).
Proof.
  intros w. unfold Git.am, Git.get_repo, Git.read_opt, Git.put_repo. munfold.
  destruct (repos w !! self') as [r|] eqn:Hr; [| reflexivity].
  destruct (repo_unmerged r); [reflexivity |].
  destruct (fs w !! patch_path); [| reflexivity]. simpl.
  destruct (am_outcome g _ _ _); simpl; [| | reflexivity].
  - eapply (put_annotates_only _ _ r _ [_]); [done | done |].
    by apply amends_annotate_other.
  - eapply (put_annotates_only _ _ r _ []); [done | done | constructor].
Qed.

Lemma stable_am_continue g self self' method :
  stable (annotates_only self) (Git.am_continue g self' method).
Proof.
  intros w. unfold Git.am_continue, Git.get_repo, Git.put_repo. munfold.
  destruct (repos w !! self') as [r|] eqn:Hr; [| reflexivity].
  destruct (repo_unmerged r); [| reflexivity]. simpl.
  destruct method; simpl.
  - eapply (put_annotates_only _ _ r _ []); [done | done | constructor].
  - eapply (put_annotates_only _ _ r _ []); [done | done | constructor].
  - destruct (am_resolved_commit g r) as [msg tree]. simpl.
    eapply (put_annotates_only _ _ r _ [_]); [done | done |].
    by apply amends_annotate_other.
Qed.

Lemma stable_reset self self' rev :
  stable (annotates_only self) (Git.reset self' rev).
Proof.
  intros w. unfold Git.reset, Git.get_repo, Git.put_repo. munfold.
  destruct (repos w !! self') as [r|] eqn:Hr; [| reflexivity].
  simpl. destruct (Git.rev_parse rev (repo_log r)); [| reflexivity].
  simpl. eapply (put_annotates_only _ _ r _ [_]); [done | done |].
  by apply amends_annotate_other.
Qed.

Lemma stable_annotates_only {A} self (c : M A) :
  stable same_heads c → stable (annotates_only self) c.
Proof. apply stable_weaken, same_heads_annotates_only. Qed.

#[local] Hint Resolve stable_add_patch_annotation stable_commit_new stable_am
  stable_am_continue stable_reset stable_annotates_only : stable.

Lemma annotates_restore_step g self three_way patch_name :
  stable (annotates_only self)
         (WorkingRepo.restore_step g self three_way patch_name).
Proof.
  unfold WorkingRepo.restore_step. stable_steps.
  destruct e; intros; simplify_eq; stable_steps.
Qed.

#[local] Hint Resolve annotates_restore_step : stable.

Lemma annotates_restore_loop g self three_way applied series :
  stable (annotates_only self)
         (WorkingRepo.restore_loop g self three_way applied series).
Proof. induction series as [|p series IH]; simpl; stable_steps. Qed.

Lemma annotates_commit_to_patch_repo g self msg :
  stable (annotates_only self) (WorkingRepo._commit_to_patch_repo g self msg).
Proof. unfold WorkingRepo._commit_to_patch_repo. stable_steps. Qed.

#[local] Hint Resolve annotates_restore_loop annotates_commit_to_patch_repo
  : stable.

Lemma annotates_restore g limit self three_way :
  stable (annotates_only self) (WorkingRepo.restore g limit self three_way).
Proof. unfold WorkingRepo.restore. stable_steps. Qed.

Lemma annotates_resolve_conflict g self method :
  stable (annotates_only self) (WorkingRepo._resolve_conflict g self method).
Proof. unfold WorkingRepo._resolve_conflict. stable_steps. Qed.

#[local] Hint Resolve annotates_restore annotates_resolve_conflict : stable.

Lemma annotates_resolve g limit self :
  stable (annotates_only self) (WorkingRepo.resolve g limit self).
Proof. unfold WorkingRepo.resolve. stable_steps. Qed.

Lemma stable_name_loop self prefix filenames patch_names last :
  stable same_heads
         (WorkingRepo.name_loop self prefix filenames patch_names last).
Proof.
  revert patch_names last.
  induction filenames as [|f filenames IH]; intros patch_names last; simpl;
    stable_steps.
Qed.

#[local] Hint Resolve stable_name_loop : stable.

Lemma annotates_save g limit self since prefix :
  stable (annotates_only self) (WorkingRepo.save g limit self since prefix).
Proof. unfold WorkingRepo.save. stable_steps. Qed.

(** C10.  [_add_patch_annotation] on a repository with HEAD [c] changes
    nothing when the message of [c] contains the string Ply-Patch, and
    otherwise amends HEAD with the annotation appended to that message.  A
    message that carries an annotation contains the string, and so does the
    message that the step writes: no commit is annotated twice.  Every
    amendment that [restore], [resolve] and [save] record in the reflog of
    the working repository is such an annotation of a commit whose message
    did not contain the string. *)
Theorem annotation_only_without_mention (g : GitOracle) (limit : nat)
    (self : string) :
  (∀ patch_name w r c older,
     repos w !! self = Some r → repo_log r = c :: older →
     WorkingRepo._add_patch_annotation g self patch_name w
     = if Py.contains "Ply-Patch" (commit_msg c) then (inr tt, w)
       else
         let msg := commit_msg c +:+ Py.nl +:+ Py.nl +:+ "Ply-Patch: "
                    +:+ patch_name in
         let c' := mkCommit (hash_of g msg (repo_index r) older) msg
                     (repo_index r) in
         (inr tt,
          set_repos (<[self := move_head RefAmend (c' :: older) r]> (repos w))
                    w))
  ∧ (∀ commit_msg patch_name,
       Utils.get_patch_annotation commit_msg = Some patch_name →
       Py.contains "Ply-Patch" commit_msg = true)
  ∧ (∀ commit_msg patch_name,
       Py.contains "Ply-Patch"
         (commit_msg +:+ Py.nl +:+ Py.nl +:+ "Ply-Patch: " +:+ patch_name)
       = true)
  ∧ (∀ three_way,
       stable (annotates_only self)
              (WorkingRepo.restore g limit self three_way))
  ∧ stable (annotates_only self) (WorkingRepo.resolve g limit self)
  ∧ (∀ since prefix,
       stable (annotates_only self)
              (WorkingRepo.save g limit self since prefix)).
Proof.
  split; [apply add_patch_annotation_run |].
  split; [apply annotation_contains |].
  split; [apply contains_annotation |].
  split; [apply annotates_restore |].
  split; [apply annotates_resolve | apply annotates_save].
Qed.

Lemma annotation_only_without_mention_witness :
  WorkingRepo._add_patch_annotation Sample.oracle "/w" "a.patch"
    Sample.mention_world
  = (inr tt, Sample.mention_world).
Proof.
  destruct (annotation_only_without_mention Sample.oracle 1 "/w")
    as [Hstep _].
  exact (Hstep "a.patch" Sample.mention_world
           (mkRepo [Sample.mention] ∅ false ∅ []) Sample.mention [] eq_refl
           eq_refl).
Defined.

(** ** Commits to the patch repository *)

Lemma stable_keeps {A} self (c : M A) :
  stable same_heads c → stable (keeps self) c.
Proof. apply stable_weaken, same_heads_keeps. Qed.

Lemma put_keeps self r r' w :
  repos w !! self = Some r → repo_config r' = repo_config r →
  keeps self w (set_repos (<[self := r']> (repos w)) w).
Proof.
  intros Hr Hconfig p. unfold config_of, log_of. simpl.
  destruct (decide (self = p)) as [<-|Hne].
  - rewrite lookup_insert_eq, Hr. simpl. by rewrite Hconfig.
  - by rewrite lookup_insert_ne.
Qed.

Lemma keeps_commit g self msg amend :
  stable (keeps self) (Git.commit g self msg amend).
Proof.
  intros w. unfold Git.commit, Git.get_repo, Git.put_repo. munfold.
  destruct (repos w !! self) as [r|] eqn:Hr; [| reflexivity].
  destruct amend; simpl;
    [| destruct (bool_decide _); [reflexivity | by eapply put_keeps]].
  destruct (repo_log r); simpl; [reflexivity | by eapply put_keeps].
Qed.

Lemma keeps_am g self patch_path three_way :
  stable (keeps self) (Git.am g self patch_path three_way).
Proof.
  intros w. unfold Git.am, Git.get_repo, Git.read_opt, Git.put_repo. munfold.
  destruct (repos w !! self) as [r|] eqn:Hr; [| reflexivity].
  destruct (repo_unmerged r); [reflexivity |].
  destruct (fs w !! patch_path); [| reflexivity]. simpl.
  destruct (am_outcome g _ _ _); simpl;
    [by eapply put_keeps | by eapply put_keeps | reflexivity].
Qed.

Lemma keeps_am_continue g self method :
  stable (keeps self) (Git.am_continue g self method).
Proof.
  intros w. unfold Git.am_continue, Git.get_repo, Git.put_repo. munfold.
  destruct (repos w !! self) as [r|] eqn:Hr; [| reflexivity].
  destruct (repo_unmerged r); [| reflexivity]. simpl.
  destruct method; simpl; try (by eapply put_keeps).
  destruct (am_resolved_commit g r) as [msg tree]. by eapply put_keeps.
Qed.

#[local] Hint Resolve stable_keeps keeps_commit keeps_am keeps_am_continue
  : stable.

Lemma keeps_add_patch_annotation g self patch_name :
  stable (keeps self) (WorkingRepo._add_patch_annotation g self patch_name).
Proof. unfold WorkingRepo._add_patch_annotation. stable_steps. Qed.

#[local] Hint Resolve keeps_add_patch_annotation : stable.

Lemma keeps_restore_step g self three_way patch_name :
  stable (keeps self) (WorkingRepo.restore_step g self three_way patch_name).
Proof.
  unfold WorkingRepo.restore_step. stable_steps.
  destruct e; intros; simplify_eq; stable_steps.
Qed.

#[local] Hint Resolve keeps_restore_step : stable.

Lemma keeps_restore_loop g self three_way applied series :
  stable (keeps self)
         (WorkingRepo.restore_loop g self three_way applied series).
Proof. induction series as [|p series IH]; simpl; stable_steps. Qed.

Lemma keeps_resolve_conflict g self method :
  stable (keeps self) (WorkingRepo._resolve_conflict g self method).
Proof. unfold WorkingRepo._resolve_conflict. stable_steps. Qed.

#[local] Hint Resolve keeps_restore_loop keeps_resolve_conflict : stable.

(** Queries leave the world as it is. *)
Lemma pure_get_repo self : stable eq (Git.get_repo self).
Proof. intros w. unfold Git.get_repo. by destruct (repos w !! self). Qed.

#[local] Hint Resolve pure_get_repo : stable.

Lemma pure_uncommitted_changes self :
  stable eq (Git.uncommitted_changes self).
Proof. unfold Git.uncommitted_changes. stable_steps. Qed.

Lemma pure_log self since pretty skip :
  stable eq (Git.log self since pretty skip).
Proof. unfold Git.log. stable_steps. Qed.

Lemma pure_config_get self key : stable eq (Git.config_get self key).
Proof. unfold Git.config_get. stable_steps. Qed.

Lemma pure_applied_patches self : stable eq (WorkingRepo._applied_patches self).
Proof. unfold WorkingRepo._applied_patches. stable_steps. Qed.

#[local] Hint Resolve pure_uncommitted_changes pure_log pure_config_get
  pure_applied_patches : stable.

Lemma pure_last_upstream_commit_hash self :
  stable eq (WorkingRepo._last_upstream_commit_hash self).
Proof. unfold WorkingRepo._last_upstream_commit_hash. stable_steps. Qed.

Lemma pure_patch_repo_path self : stable eq (WorkingRepo.patch_repo_path self).
Proof.
  unfold WorkingRepo.patch_repo_path. stable_steps.
  destruct e; intros; simplify_eq; stable_steps.
Qed.

#[local] Hint Resolve pure_last_upstream_commit_hash pure_patch_repo_path
  : stable.

Lemma pure_patch_repo self : stable eq (WorkingRepo.patch_repo self).
Proof. unfold WorkingRepo.patch_repo. stable_steps. Qed.

Lemma commits_last_keeps g self w out :
  keeps self w out.2 → commits_last g self w out.
Proof. by left. Qed.

(** A run that commits nowhere but in [self], followed by a run that
    commits last. *)
Lemma commits_last_bind {A} g self (c : M A) (k : A → M ()) :
  stable (keeps self) c →
  (∀ x w, commits_last g self w (k x w)) →
  ∀ w, commits_last g self w ((x ← c; k x) w).
Proof.
  intros Hc Hk w. munfold. specialize (Hc w).
  destruct (c w) as [[e|x] w1]; [by left |].
  destruct (Hk x w1) as [H | (w2 & pr & msg & H & Hrest)].
  - left. by etrans.
  - right. exists w2, pr, msg. split; [by etrans | exact Hrest].
Qed.

(** The end of [restore]: one commit if the patch repository has
    uncommitted changes. *)
Lemma commits_last_finish g self w :
  commits_last g self w
    ((pr ← WorkingRepo.patch_repo self;
      dirty ← Git.uncommitted_changes pr;
      if (dirty : bool)
      then WorkingRepo._commit_to_patch_repo g self "Refreshing patches"
      else mret tt) w).
Proof.
  munfold.
  pose proof (pure_patch_repo self w) as Hw1.
  destruct (WorkingRepo.patch_repo self w) as [[e|pr] w1] eqn:Hpr;
    simpl in Hw1; subst w1; [by left |].
  pose proof (pure_uncommitted_changes pr w) as Hw2.
  destruct (Git.uncommitted_changes pr w) as [[e|dirty] w2] eqn:Hdirty;
    simpl in Hw2; subst w2; [by left |].
  destruct dirty; [| by left].
  unfold WorkingRepo._commit_to_patch_repo. munfold.
  pose proof (pure_last_upstream_commit_hash self w) as Hw3.
  destruct (WorkingRepo._last_upstream_commit_hash self w)
    as [[e|based_on] w3]; simpl in Hw3; subst w3; [by left |].
  rewrite Hpr. right. eexists w, pr, _. split; [reflexivity |].
  split; [done |]. split; [done |]. split; [reflexivity |].
  unfold Git.uncommitted_changes, Git.get_repo in Hdirty. munfold.
  unfold Git.commit, Git.get_repo. munfold.
  destruct (repos w !! pr) as [r|]; [| done]. simpl in *.
  assert (repo_index r ≠ Git.head_tree r) as Hne
    by (apply (bool_decide_eq_true_1 (repo_index r ≠ Git.head_tree r));
        congruence).
  by rewrite bool_decide_eq_false_2.
Qed.

Lemma commits_last_restore g limit self three_way w :
  commits_last g self w (WorkingRepo.restore g limit self three_way w).
Proof.
  unfold WorkingRepo.restore.
  apply commits_last_bind; [stable_steps |]. intros dirty w1.
  destruct dirty; [by left |].
  apply commits_last_bind; [stable_steps |]. intros applied w2.
  apply commits_last_bind; [stable_steps |]. intros pr w3.
  apply commits_last_bind; [stable_steps |]. intros series w4.
  apply commits_last_bind; [stable_steps |]. intros [] w5.
  apply commits_last_finish.
Qed.

Lemma commits_last_resolve g limit self w :
  commits_last g self w (WorkingRepo.resolve g limit self w).
Proof.
  unfold WorkingRepo.resolve.
  apply commits_last_bind; [stable_steps |]. intros patch_name w1.
  apply commits_last_bind; [stable_steps |]. intros created w2.
  apply commits_last_bind; [stable_steps |]. intros [] w3.
  apply commits_last_bind; [stable_steps |]. intros [] w4.
  apply commits_last_restore.
Qed.

(** C2.  During [resolve], a repository other than the working one (the
    patch repository in particular) either receives no commit at all, or
    receives exactly one, made as the very last action of a call that
    succeeds: up to that point ([w1]) no repository but the working one has
    a new commit, the repository committed to is the linked patch
    repository, and it has uncommitted changes then. *)
Theorem resolve_commits_patch_repo_once (g : GitOracle) (limit : nat)
    (self pr : string) (w : World) :
  pr ≠ self →
  let out := WorkingRepo.resolve g limit self w in
  log_of pr out.2 = log_of pr w
  ∨ (out.1 = inr tt
     ∧ ∃ w1 msg c l,
         keeps self w w1
         ∧ WorkingRepo.patch_repo self w1 = (inr pr, w1)
         ∧ Git.uncommitted_changes pr w1 = (inr true, w1)
         ∧ Git.commit g pr msg false w1 = out
         ∧ log_of pr w = Some l
         ∧ log_of pr out.2 = Some (c :: l)).
Proof.
  intros Hpr out.
  destruct (commits_last_resolve g limit self w)
    as [H | (w1 & pr' & msg & Hkeeps & Hlinked & Hdirty & Hcommit & Hok)].
  { left. by apply H. }
  fold out in Hcommit, Hok.
  assert (log_of pr w1 = log_of pr w) as Hlog by (by apply Hkeeps).
  unfold Git.commit, Git.get_repo, Git.put_repo in Hcommit. munfold.
  destruct (repos w1 !! pr') as [r|] eqn:Hr;
    [| rewrite <- Hcommit in Hok; done].
  simpl in Hcommit.
  destruct (bool_decide (repo_index r = Git.head_tree r)) eqn:Hstaged;
    [rewrite <- Hcommit in Hok; done |].
  destruct (decide (pr' = pr)) as [->|Hne].
  - right. split; [exact Hok |].
    exists w1, msg, (mkCommit (hash_of g msg (repo_index r) (repo_log r)) msg
                       (repo_index r)), (repo_log r).
    split; [done |]. split; [done |]. split; [done |]. split.
    { unfold Git.commit, Git.get_repo, Git.put_repo. munfold.
      rewrite Hr. simpl. by rewrite Hstaged. }
    split.
    + rewrite <- Hlog. unfold log_of. by rewrite Hr.
    + rewrite <- Hcommit. unfold log_of. simpl. by rewrite lookup_insert_eq.
  - left. rewrite <- Hlog, <- Hcommit. unfold log_of. simpl.
    by rewrite lookup_insert_ne.
Qed.

Lemma resolve_commits_patch_repo_once_witness :
  let out := WorkingRepo.resolve Sample.oracle 1 "/w" Sample.conflicted_world in
  log_of "/p" out.2 = log_of "/p" Sample.conflicted_world
  ∨ (out.1 = inr tt
     ∧ ∃ w1 msg c l,
         keeps "/w" Sample.conflicted_world w1
         ∧ WorkingRepo.patch_repo "/w" w1 = (inr "/p", w1)
         ∧ Git.uncommitted_changes "/p" w1 = (inr true, w1)
         ∧ Git.commit Sample.oracle "/p" msg false w1 = out
         ∧ log_of "/p" Sample.conflicted_world = Some l
         ∧ log_of "/p" out.2 = Some (c :: l)).
Proof.
  apply (resolve_commits_patch_repo_once Sample.oracle 1 "/w" "/p"
           Sample.conflicted_world).
  discriminate.
Defined.

(** ** Where PatchDidNotApplyCleanly comes from *)

Lemma never_ret {A} e (x : A) : never_raises e (mret x : M A).
Proof. by intros w. Qed.

Lemma never_raise {A} e e' : e' ≠ e → never_raises e (raise e' : M A).
Proof. intros H w. simpl. congruence. Qed.

Lemma never_bind {A B} e (c : M A) (k : A → M B) :
  never_raises e c → (∀ x, never_raises e (k x)) →
  never_raises e (x ← c; k x).
Proof.
  intros Hc Hk w. munfold. specialize (Hc w).
  destruct (c w) as [[e'|x] w1]; [| apply Hk].
  simpl in *. congruence.
Qed.

Lemma never_try_except {A} e (c : M A) handler :
  (∀ e', handler e' = None → e' = e → never_raises e c) →
  (∀ e' h, handler e' = Some h → never_raises e h) →
  never_raises e (try_except c handler).
Proof.
  intros Hc Hh w. unfold try_except.
  destruct (c w) as [[e'|x] w1] eqn:E; [| done].
  destruct (handler e') as [h|] eqn:Eh; [by apply (Hh e' h) |].
  simpl. intros [= ->]. apply (Hc e Eh eq_refl w). by rewrite E.
Qed.

Lemma never_get_repo self :
  never_raises PatchDidNotApplyCleanly (Git.get_repo self).
Proof. intros w. unfold Git.get_repo. by destruct (repos w !! self). Qed.

Lemma never_os_read path : never_raises PatchDidNotApplyCleanly (Os.read path).
Proof. intros w. unfold Os.read. by destruct (fs w !! path). Qed.

Lemma never_os_write path content :
  never_raises PatchDidNotApplyCleanly (Os.write path content).
Proof. by intros w. Qed.

Lemma never_warn msg quiet : never_raises PatchDidNotApplyCleanly (warn msg quiet).
Proof. intros w. unfold warn. by destruct quiet. Qed.

Lemma never_read_opt path :
  never_raises PatchDidNotApplyCleanly (Git.read_opt path).
Proof. by intros w. Qed.

Lemma never_delete_file path :
  never_raises PatchDidNotApplyCleanly (Git.delete_file path).
Proof. by intros w. Qed.

Lemma never_put_repo self r :
  never_raises PatchDidNotApplyCleanly (Git.put_repo self r).
Proof. by intros w. Qed.

Create HintDb never discriminated.

#[local] Hint Resolve never_get_repo never_os_read never_os_write never_warn
  never_read_opt never_delete_file never_put_repo : never.

Ltac never_step :=
  first
    [ apply never_ret
    | apply never_raise; discriminate
    | solve [eauto with never]
    | apply never_bind; [| intros ?]
    | match goal with
      | |- never_raises _ (match ?x with _ => _ end) => destruct x
      end ].

Ltac never_steps := repeat never_step.

Lemma never_uncommitted_changes self :
  never_raises PatchDidNotApplyCleanly (Git.uncommitted_changes self).
Proof. unfold Git.uncommitted_changes. never_steps. Qed.

Lemma never_log self since pretty skip :
  never_raises PatchDidNotApplyCleanly (Git.log self since pretty skip).
Proof. unfold Git.log. never_steps. Qed.

Lemma never_config_get self key :
  never_raises PatchDidNotApplyCleanly (Git.config_get self key).
Proof. unfold Git.config_get. never_steps. Qed.

Lemma never_commit g self msg amend :
  never_raises PatchDidNotApplyCleanly (Git.commit g self msg amend).
Proof. unfold Git.commit. never_steps. Qed.

Lemma never_add self path :
  never_raises PatchDidNotApplyCleanly (Git.add self path).
Proof. unfold Git.add. never_steps. Qed.

Lemma never_rm self path :
  never_raises PatchDidNotApplyCleanly (Git.rm self path).
Proof. unfold Git.rm. never_steps. Qed.

#[local] Hint Resolve never_uncommitted_changes never_log never_config_get
  never_commit never_add never_rm : never.

Lemma never_remove_patch self patch_name :
  never_raises PatchDidNotApplyCleanly
               (PatchRepo.remove_patch self patch_name).
Proof.
  unfold PatchRepo.remove_patch, PatchRepo._mutate_series_file. never_steps.
Qed.

Lemma never_add_patch_annotation g self patch_name :
  never_raises PatchDidNotApplyCleanly
               (WorkingRepo._add_patch_annotation g self patch_name).
Proof. unfold WorkingRepo._add_patch_annotation. never_steps. Qed.

Lemma never_patch_repo_path self :
  never_raises PatchDidNotApplyCleanly (WorkingRepo.patch_repo_path self).
Proof.
  unfold WorkingRepo.patch_repo_path. apply never_try_except.
  - intros e' _ ->. never_steps.
  - intros e' h. destruct e'; intros; simplify_eq. never_steps.
Qed.

#[local] Hint Resolve never_remove_patch never_add_patch_annotation
  never_patch_repo_path : never.

Lemma never_patch_repo self :
  never_raises PatchDidNotApplyCleanly (WorkingRepo.patch_repo self).
Proof. unfold WorkingRepo.patch_repo. never_steps. Qed.

Lemma never_applied_patches self :
  never_raises PatchDidNotApplyCleanly (WorkingRepo._applied_patches self).
Proof.
  unfold WorkingRepo._applied_patches. never_steps.
  intros w. simpl. induction (map commit_msg (repo_log x)) as [|m ms IH];
    simpl; [done |].
  destruct (negb _); [done |]. by destruct (WorkingRepo.applied_walk ms).
Qed.

#[local] Hint Resolve never_patch_repo never_applied_patches : never.

Lemma never_last_upstream_commit_hash self :
  never_raises PatchDidNotApplyCleanly
               (WorkingRepo._last_upstream_commit_hash self).
Proof. unfold WorkingRepo._last_upstream_commit_hash. never_steps. Qed.

#[local] Hint Resolve never_last_upstream_commit_hash : never.

Lemma never_commit_to_patch_repo g self msg :
  never_raises PatchDidNotApplyCleanly
               (WorkingRepo._commit_to_patch_repo g self msg).
Proof. unfold WorkingRepo._commit_to_patch_repo. never_steps. Qed.

Lemma never_series_lines rec self lines :
  (∀ p, never_raises PatchDidNotApplyCleanly (rec p)) →
  never_raises PatchDidNotApplyCleanly (PatchRepo.series_lines rec self lines).
Proof.
  intros Hrec. induction lines as [|line lines IH]; simpl; never_steps.
Qed.

Lemma never_series limit self :
  never_raises PatchDidNotApplyCleanly (PatchRepo.series limit self).
Proof.
  unfold PatchRepo.series. generalize (PatchRepo.series_path self).
  induction limit as [|limit IH]; intros path; simpl; never_steps.
  by apply never_series_lines.
Qed.

#[local] Hint Resolve never_commit_to_patch_repo never_series : never.

(** ** [restore] stopping on a conflict *)

Lemma am_conflict g self patch_path three_way w w1 :
  Git.am g self patch_path three_way w = (inl PatchDidNotApplyCleanly, w1) →
  ∃ r, repos w !! self = Some r
       ∧ w1 = set_repos (<[self := set_unmerged true r]> (repos w)) w.
Proof.
  unfold Git.am, Git.get_repo, Git.read_opt, Git.put_repo. munfold.
  destruct (repos w !! self) as [r|] eqn:Hr; [| done].
  destruct (repo_unmerged r); [done |].
  destruct (fs w !! patch_path); [| done]. simpl.
  destruct (am_outcome g _ _ _); simpl; [done | | done].
  intros [= <-]. by exists r.
Qed.

Lemma restore_step_conflict g self three_way patch_name w w' :
  WorkingRepo.restore_step g self three_way patch_name w
  = (inl PatchDidNotApplyCleanly, w') →
  ∃ pr w1,
    WorkingRepo.patch_repo self w = (inr pr, w)
    ∧ Git.am g self (PosixPath.join pr patch_name) three_way w
      = (inl PatchDidNotApplyCleanly, w1)
    ∧ WorkingRepo._create_conflict_file self patch_name w1 = (inr tt, w').
Proof.
  unfold WorkingRepo.restore_step. munfold.
  pose proof (pure_patch_repo self w) as Hpure.
  pose proof (never_patch_repo self w) as Hnever.
  destruct (WorkingRepo.patch_repo self w) as [[e|pr] w0] eqn:Hpr;
    simpl in Hpure, Hnever; subst w0; [by intros [= -> _] |].
  unfold try_except.
  destruct (Git.am g self (PosixPath.join pr patch_name) three_way w)
    as [[e|[]] wa] eqn:Ham.
  - destruct e; try (by intros [= _]).
    + unfold WorkingRepo._create_conflict_file, Os.write. simpl.
      intros [= <-]. by exists pr, wa.
    + pose proof (never_patch_repo self wa) as H1. munfold.
      destruct (WorkingRepo.patch_repo self wa) as [[e|pr1] wb];
        [by intros [= -> _] |].
      pose proof (never_remove_patch pr1 patch_name wb) as H2.
      destruct (PatchRepo.remove_patch pr1 patch_name wb) as [[e|[]] wc];
        [by intros [= -> _] |].
      unfold warn. simpl.
      match goal with
      | |- context [WorkingRepo._add_patch_annotation g self patch_name ?w2] =>
          pose proof (never_add_patch_annotation g self patch_name w2) as H3;
          destruct (WorkingRepo._add_patch_annotation g self patch_name w2)
            as [[e|[]] wd]
      end; [by intros [= -> _] | done].
  - pose proof (never_add_patch_annotation g self patch_name wa) as H3.
    destruct (WorkingRepo._add_patch_annotation g self patch_name wa)
      as [[e|[]] wd]; [by intros [= -> _] | done].
Qed.

Lemma restore_loop_conflict g self three_way applied series w w' :
  WorkingRepo.restore_loop g self three_way applied series w
  = (inl PatchDidNotApplyCleanly, w') →
  ∃ pre patch_name post w0,
    series = pre ++ patch_name :: post
    ∧ Py.mem patch_name applied = false
    ∧ WorkingRepo.restore_loop g self three_way applied pre w = (inr tt, w0)
    ∧ WorkingRepo.restore_step g self three_way patch_name w0
      = (inl PatchDidNotApplyCleanly, w').
Proof.
  revert w. induction series as [|p series IH]; intros w; [done |].
  simpl. destruct (Py.mem p applied) eqn:Hmem.
  - intros H. destruct (IH w H) as (pre & q & post & w0 & -> & Hq & Hpre & Hq').
    exists (p :: pre), q, post, w0. simpl. rewrite Hmem. done.
  - munfold.
    destruct (WorkingRepo.restore_step g self three_way p w)
      as [[e|[]] w1] eqn:Hstep.
    + intros [= -> ->]. exists [], p, series, w. done.
    + intros H.
      destruct (IH w1 H) as (pre & q & post & w0 & -> & Hq & Hpre & Hq').
      exists (p :: pre), q, post, w0. simpl. rewrite Hmem. munfold.
      rewrite Hstep. done.
Qed.

Lemma restore_loop_app g self three_way applied pre rest w w0 :
  WorkingRepo.restore_loop g self three_way applied pre w = (inr tt, w0) →
  WorkingRepo.restore_loop g self three_way applied (pre ++ rest) w
  = WorkingRepo.restore_loop g self three_way applied rest w0.
Proof.
  revert w. induction pre as [|p pre IH]; intros w; simpl.
  - by intros [= ->].
  - destruct (Py.mem p applied); [apply IH |]. munfold.
    destruct (WorkingRepo.restore_step g self three_way p w) as [[e|[]] w1];
      [done | apply IH].
Qed.

(** C1.  [restore] ends in PatchDidNotApplyCleanly exactly when the working
    tree is clean and the series has a patch [patch_name], not applied
    before, such that: the loop over the patches that precede it runs to its
    end (world [w0]); applying [patch_name] there raises the exception; and
    the conflict file is then written, after which the exception goes on to
    the caller.  The conflict file holds the line [patch_name], and the
    history of the working repository is the one of [w0], with the commits
    that the earlier patches of this invocation have created. *)
Theorem restore_conflict (g : GitOracle) (limit : nat) (self : string)
    (three_way : bool) (w w' : World) :
  WorkingRepo.restore g limit self three_way w
  = (inl PatchDidNotApplyCleanly, w')
  ↔ ∃ applied pr0 pre patch_name post pr w0 w1,
      Git.uncommitted_changes self w = (inr false, w)
      ∧ WorkingRepo._applied_patches self w = (inr applied, w)
      ∧ WorkingRepo.patch_repo self w = (inr pr0, w)
      ∧ PatchRepo.series limit pr0 w = (inr (pre ++ patch_name :: post), w)
      ∧ Py.mem patch_name applied = false
      ∧ WorkingRepo.restore_loop g self three_way applied pre w = (inr tt, w0)
      ∧ WorkingRepo.patch_repo self w0 = (inr pr, w0)
      ∧ Git.am g self (PosixPath.join pr patch_name) three_way w0
        = (inl PatchDidNotApplyCleanly, w1)
      ∧ WorkingRepo._create_conflict_file self patch_name w1 = (inr tt, w')
      ∧ fs w' !! WorkingRepo._patch_conflict_path self
        = Some (Py.line_of patch_name)
      ∧ log_of self w' = log_of self w0.
Proof.
  split.
  - unfold WorkingRepo.restore. munfold.
    pose proof (pure_uncommitted_changes self w) as Hp1.
    pose proof (never_uncommitted_changes self w) as Hn1.
    destruct (Git.uncommitted_changes self w) as [[e|dirty] wa] eqn:Hdirty;
      simpl in Hp1, Hn1; subst wa; [by intros [= -> _] |].
    destruct dirty; [done |].
    pose proof (pure_applied_patches self w) as Hp2.
    pose proof (never_applied_patches self w) as Hn2.
    destruct (WorkingRepo._applied_patches self w) as [[e|applied] wa]
      eqn:Happlied; simpl in Hp2, Hn2; subst wa; [by intros [= -> _] |].
    pose proof (pure_patch_repo self w) as Hp3.
    pose proof (never_patch_repo self w) as Hn3.
    destruct (WorkingRepo.patch_repo self w) as [[e|pr0] wa] eqn:Hpr0;
      simpl in Hp3, Hn3; subst wa; [by intros [= -> _] |].
    pose proof (recursive_series_world limit pr0 (PatchRepo.series_path pr0) w)
      as Hp4.
    pose proof (never_series limit pr0 w) as Hn4.
    unfold PatchRepo.series in *.
    destruct (PatchRepo._recursive_series limit pr0 _ w) as [[e|series] wa]
      eqn:Hseries; simpl in Hp4, Hn4; subst wa; [by intros [= -> _] |].
    destruct (WorkingRepo.restore_loop g self three_way applied series w)
      as [[e|[]] w2] eqn:Hloop.
    + intros [= -> ->].
      destruct (restore_loop_conflict _ _ _ _ _ _ _ Hloop)
        as (pre & p & post & w0 & -> & Hmem & Hpre & Hstep).
      destruct (restore_step_conflict _ _ _ _ _ _ Hstep)
        as (pr & w1 & Hpr & Ham & Hfile).
      exists applied, pr0, pre, p, post, pr, w0, w1.
      split_and!; try done.
      * unfold WorkingRepo._create_conflict_file, Os.write in Hfile.
        simplify_eq. simpl. apply lookup_insert_eq.
      * destruct (am_conflict _ _ _ _ _ _ Ham) as (r & Hr & ->).
        unfold WorkingRepo._create_conflict_file, Os.write in Hfile.
        simplify_eq. unfold log_of. simpl.
        by rewrite lookup_insert_eq, Hr.
    + pose proof (never_patch_repo self w2) as Hn5.
      destruct (WorkingRepo.patch_repo self w2) as [[e|pr1] w3];
        [by intros [= -> _] |].
      pose proof (never_uncommitted_changes pr1 w3) as Hn6.
      destruct (Git.uncommitted_changes pr1 w3) as [[e|dirty] w4];
        [by intros [= -> _] |].
      destruct dirty; [| done].
      pose proof (never_commit_to_patch_repo g self "Refreshing patches" w4)
        as Hn7.
      destruct (WorkingRepo._commit_to_patch_repo g self _ w4) as [[e|[]] w5];
        [by intros [= -> _] | done].
  - intros (applied & pr0 & pre & p & post & pr & w0 & w1 & Hdirty & Happlied
            & Hpr0 & Hseries & Hmem & Hpre & Hpr & Ham & Hfile & _ & _).
    unfold WorkingRepo.restore. munfold.
    rewrite Hdirty, Happlied, Hpr0, Hseries.
    rewrite (restore_loop_app _ _ _ _ _ _ _ _ Hpre). simpl. rewrite Hmem.
    unfold WorkingRepo.restore_step. munfold. rewrite Hpr.
    unfold try_except. rewrite Ham. munfold. by rewrite Hfile.
Qed.

Lemma restore_conflict_witness :
  ∃ patch_name,
    fs Sample.conflicted_world !! WorkingRepo._patch_conflict_path "/w"
    = Some (Py.line_of patch_name).
Proof.
  destruct (restore_conflict Sample.oracle 1 "/w" true Sample.conflict_world
              Sample.conflicted_world)
    as [H _].
  destruct H as (applied & pr0 & pre & patch_name & post & pr & w0 & w1 & H);
    [vm_compute; reflexivity |].
  exists patch_name. apply H.
Defined.

(** C3.  A series whose first patch is upstream already, on a branch whose
    HEAD is an upstream commit: [restore] removes the patch from the patch
    repository and returns normally, but it goes on to
    [_add_patch_annotation] for that patch, which amends the upstream HEAD
    commit with the annotation of the patch just removed. *)
Theorem restore_already_applied_amends_head :
  let out := WorkingRepo.restore Sample.oracle 1 "/w" true
               Sample.upstream_world in
  out.1 = inr tt
  ∧ manifest "/p" out.2 = Some ["c.patch"]
  ∧ fs out.2 !! "/p/u.patch" = None
  ∧ map commit_msg <$> log_of "/w" Sample.upstream_world
    = Some ["upstream work"; "older work"]
  ∧ map commit_msg <$> log_of "/w" out.2
    = Some ["fix c" +:+ Py.nl +:+ Py.nl +:+ "Ply-Patch: c.patch";
            "upstream work" +:+ Py.nl +:+ Py.nl +:+ "Ply-Patch: u.patch";
            "older work"].
Proof. vm_compute. repeat split; reflexivity. Qed.

(** * Further properties of the code *)

(** ** The conflict marker *)

(** X1.  Writing the conflict file for a patch and tearing it down gives
    back the name, stripped of surrounding white space, and leaves no
    conflict file behind. *)
Theorem conflict_file_round_trip (self patch_name : string) (w : World) :
  (WorkingRepo._create_conflict_file self patch_name;;
   WorkingRepo._teardown_conflict_file self) w
  = (inr (Py.strip patch_name),
     set_fs (delete (WorkingRepo._patch_conflict_path self) (fs w)) w).
Proof.
  unfold WorkingRepo._create_conflict_file,
    WorkingRepo._teardown_conflict_file, Os.write, Os.exists_, Os.read,
    Os.unlink.
  munfold. simpl. rewrite lookup_insert_eq. simpl.
  rewrite lookup_insert_eq. simpl. rewrite lookup_insert_eq.
  rewrite strip_line_of. unfold set_fs. simpl. by rewrite delete_insert_eq.
Qed.

(** X2.  Without a conflict file, [_teardown_conflict_file] raises
    PathNotFound and changes nothing. *)
Theorem teardown_without_conflict_file (self : string) (w : World) :
  fs w !! WorkingRepo._patch_conflict_path self = None →
  WorkingRepo._teardown_conflict_file self w = (inl PathNotFound, w).
Proof.
  intros H. unfold WorkingRepo._teardown_conflict_file, Os.exists_. munfold.
  rewrite H. rewrite bool_decide_eq_false_2; [done |]. by intros [? ?].
Qed.

Lemma teardown_without_conflict_file_witness :
  WorkingRepo._teardown_conflict_file "/w" Sample.mention_world
  = (inl PathNotFound, Sample.mention_world).
Proof.
  apply (teardown_without_conflict_file "/w" Sample.mention_world).
  reflexivity.
Defined.

(** A [restore] that ends in PatchDidNotApplyCleanly has just written the
    conflict file. *)
Lemma restore_conflict_marker g limit self three_way w w' :
  WorkingRepo.restore g limit self three_way w
  = (inl PatchDidNotApplyCleanly, w') →
  is_Some (fs w' !! WorkingRepo._patch_conflict_path self).
Proof.
  unfold WorkingRepo.restore. munfold.
  pose proof (never_uncommitted_changes self w) as Hn1.
  destruct (Git.uncommitted_changes self w) as [[e|dirty] wa];
    [by intros [= -> _] |].
  destruct dirty; [done |].
  pose proof (never_applied_patches self wa) as Hn2.
  destruct (WorkingRepo._applied_patches self wa) as [[e|applied] wb];
    [by intros [= -> _] |].
  pose proof (never_patch_repo self wb) as Hn3.
  destruct (WorkingRepo.patch_repo self wb) as [[e|pr0] wc];
    [by intros [= -> _] |].
  pose proof (never_series limit pr0 wc) as Hn4.
  destruct (PatchRepo.series limit pr0 wc) as [[e|series] wd];
    [by intros [= -> _] |].
  destruct (WorkingRepo.restore_loop g self three_way applied series wd)
    as [[e|[]] w2] eqn:Hloop.
  - intros [= -> ->].
    destruct (restore_loop_conflict _ _ _ _ _ _ _ Hloop)
      as (pre & p & post & w0 & -> & Hmem & Hpre & Hstep).
    destruct (restore_step_conflict _ _ _ _ _ _ Hstep)
      as (pr & w1 & Hpr & Ham & Hfile).
    unfold WorkingRepo._create_conflict_file, Os.write in Hfile.
    simplify_eq. simpl. rewrite lookup_insert_eq. by eexists.
  - pose proof (never_patch_repo self w2) as Hn5.
    destruct (WorkingRepo.patch_repo self w2) as [[e|pr1] w3];
      [by intros [= -> _] |].
    pose proof (never_uncommitted_changes pr1 w3) as Hn6.
    destruct (Git.uncommitted_changes pr1 w3) as [[e|dirty] w4];
      [by intros [= -> _] |].
    destruct dirty; [| done].
    pose proof (never_commit_to_patch_repo g self "Refreshing patches" w4)
      as Hn7.
    destruct (WorkingRepo._commit_to_patch_repo g self _ w4) as [[e|[]] w5];
      [by intros [= -> _] | done].
Qed.

(** X3.  After a [restore] that ended in PatchDidNotApplyCleanly, [status]
    answers restore-in-progress, whatever the history is, and changes
    nothing. *)
Theorem status_after_conflict (g : GitOracle) (limit : nat) (self : string)
    (three_way : bool) (w w' : World) :
  WorkingRepo.restore g limit self three_way w
  = (inl PatchDidNotApplyCleanly, w') →
  WorkingRepo.status self w' = (inr "restore-in-progress", w').
Proof.
  intros H%restore_conflict_marker.
  unfold WorkingRepo.status, WorkingRepo._conflict_file_exists, Os.exists_.
  munfold. by rewrite bool_decide_eq_true_2.
Qed.

Lemma status_after_conflict_witness :
  WorkingRepo.status "/w" Sample.conflicted_world
  = (inr "restore-in-progress", Sample.conflicted_world).
Proof.
  apply (status_after_conflict Sample.oracle 1 "/w" true
           Sample.conflict_world Sample.conflicted_world).
  vm_compute. reflexivity.
Defined.

(** ** Linking *)

Lemma patch_repo_path_run self w r :
  repos w !! self = Some r →
  WorkingRepo.patch_repo_path self w
  = (inr (repo_config r !! "ply.patchrepo"), w).
Proof.
  intros Hr. unfold WorkingRepo.patch_repo_path, try_except, Git.config_get,
    Git.get_repo. munfold. rewrite Hr. simpl.
  by destruct (repo_config r !! "ply.patchrepo").
Qed.

Lemma set_config_id r : set_config (repo_config r) r = r.
Proof. by destruct r. Qed.

Lemma set_repos_id self r w :
  repos w !! self = Some r → set_repos (<[self := r]> (repos w)) w = w.
Proof. intros H. destruct w. unfold set_repos. simpl in *. by rewrite insert_id. Qed.

(** X4.  On a repository that is not linked yet, [link] with a path that is
    not empty succeeds; afterwards [patch_repo] answers that path, and a
    second [link], to whatever path, raises AlreadyLinkedToPatchRepo and
    changes nothing. *)
Theorem link_then_patch_repo (self path other : string) (w : World) (r : Repo) :
  repos w !! self = Some r →
  repo_config r !! "ply.patchrepo" = None →
  path ≠ "" →
  ∃ w', WorkingRepo.link self path w = (inr tt, w')
        ∧ WorkingRepo.patch_repo self w' = (inr path, w')
        ∧ WorkingRepo.link self other w' = (inl AlreadyLinkedToPatchRepo, w').
Proof.
  intros Hr Hconfig Hpath.
  set (r' := set_config (<["ply.patchrepo" := path]> (repo_config r)) r).
  set (w' := set_repos (<[self := r']> (repos w)) w).
  assert (repos w' !! self = Some r') as Hr'
    by (unfold w'; simpl; apply lookup_insert_eq).
  assert (repo_config r' !! "ply.patchrepo" = Some path) as Hconfig'
    by (unfold r'; simpl; apply lookup_insert_eq).
  exists w'. split; [| split].
  - unfold WorkingRepo.link. munfold.
    rewrite (patch_repo_path_run self w r Hr), Hconfig. simpl.
    unfold Git.config_add, Git.get_repo, Git.put_repo. munfold.
    by rewrite Hr.
  - unfold WorkingRepo.patch_repo. munfold.
    rewrite (patch_repo_path_run self w' r' Hr'), Hconfig'.
    by destruct path.
  - unfold WorkingRepo.link. munfold.
    rewrite (patch_repo_path_run self w' r' Hr'), Hconfig'.
    by destruct path.
Qed.

Lemma link_then_patch_repo_witness :
  ∃ w', WorkingRepo.link "/w" "/p" Sample.unlinked_world = (inr tt, w')
        ∧ WorkingRepo.patch_repo "/w" w' = (inr "/p", w')
        ∧ WorkingRepo.link "/w" "/q" w' = (inl AlreadyLinkedToPatchRepo, w').
Proof.
  apply (link_then_patch_repo "/w" "/p" "/q" Sample.unlinked_world
           (mkRepo [Sample.upstream] ∅ false ∅ [])); done.
Defined.

(** X5.  [unlink] on a repository that is not linked raises
    NoLinkedPatchRepo and changes nothing; [unlink] after a [link] (with a
    path that is not empty) gives back the world as it was before the
    [link]. *)
Theorem unlink_undoes_link (self path : string) (w : World) (r : Repo) :
  repos w !! self = Some r →
  repo_config r !! "ply.patchrepo" = None →
  path ≠ "" →
  WorkingRepo.unlink self w = (inl NoLinkedPatchRepo, w)
  ∧ (WorkingRepo.link self path;; WorkingRepo.unlink self) w = (inr tt, w).
Proof.
  intros Hr Hconfig Hpath. split.
  - unfold WorkingRepo.unlink. munfold.
    by rewrite (patch_repo_path_run self w r Hr), Hconfig.
  - set (r' := set_config (<["ply.patchrepo" := path]> (repo_config r)) r).
    set (w' := set_repos (<[self := r']> (repos w)) w).
    assert (repos w' !! self = Some r') as Hr'
      by (unfold w'; simpl; apply lookup_insert_eq).
    assert (repo_config r' !! "ply.patchrepo" = Some path) as Hconfig'
      by (unfold r'; simpl; apply lookup_insert_eq).
    assert (WorkingRepo.link self path w = (inr tt, w')) as Hlink.
    { unfold WorkingRepo.link. munfold.
      rewrite (patch_repo_path_run self w r Hr), Hconfig. simpl.
      unfold Git.config_add, Git.get_repo, Git.put_repo. munfold.
      by rewrite Hr. }
    munfold. rewrite Hlink. unfold WorkingRepo.unlink. munfold.
    rewrite (patch_repo_path_run self w' r' Hr'), Hconfig'.
    destruct path as [|c path]; [done |]. simpl.
    unfold Git.config_unset, Git.get_repo, Git.put_repo. munfold.
    rewrite Hr', Hconfig'. simpl. f_equal.
    unfold w', set_repos. simpl. rewrite insert_insert_eq.
    unfold r', set_config. simpl. rewrite delete_insert_eq.
    rewrite delete_id by done.
    rewrite <- (set_repos_id self r w Hr) at 4. unfold set_repos.
    by destruct r.
Qed.

Lemma unlink_undoes_link_witness :
  WorkingRepo.unlink "/w" Sample.unlinked_world
  = (inl NoLinkedPatchRepo, Sample.unlinked_world)
  ∧ (WorkingRepo.link "/w" "/p";; WorkingRepo.unlink "/w")
      Sample.unlinked_world
    = (inr tt, Sample.unlinked_world).
Proof.
  apply (unlink_undoes_link "/w" "/p" Sample.unlinked_world
           (mkRepo [Sample.upstream] ∅ false ∅ [])); done.
Defined.

(** ** Aborting, and the applied patches *)



Lemma applied_walk_prefix (annotated : list Commit) (names : list string)
    (c : Commit) (older : list Commit) :
  Forall2 (λ commit name,
             Utils.get_patch_annotation (commit_msg commit) = Some name
             ∧ name ≠ "") annotated names →
  Py.truthy (Utils.get_patch_annotation (commit_msg c)) = false →
  WorkingRepo.applied_walk (map commit_msg (annotated ++ c :: older))
  = inr names.
Proof.
  intros Hann Hc. induction Hann as [|commit name annotated names [Hn Hne] _ IH].
  - simpl. by rewrite Hc.
  - simpl. rewrite Hn. destruct name as [|a name]; [done |]. simpl.
    by rewrite IH.
Qed.

(** X7.  [_applied_patches] answers the annotations of the commits from HEAD
    down to, and not including, the first commit without annotation; what
    lies below that commit is not looked at. *)
Theorem applied_patches_prefix (self : string) (w : World) (r : Repo)
    (annotated : list Commit) (names : list string) (c : Commit)
    (older : list Commit) :
  repos w !! self = Some r →
  repo_log r = annotated ++ c :: older →
  Forall2 (λ commit name,
             Utils.get_patch_annotation (commit_msg commit) = Some name
             ∧ name ≠ "") annotated names →
  Py.truthy (Utils.get_patch_annotation (commit_msg c)) = false →
  WorkingRepo._applied_patches self w = (inr names, w).
Proof.
  intros Hr Hlog Hann Hc. unfold WorkingRepo._applied_patches, Git.get_repo.
  munfold. rewrite Hr, Hlog. simpl. by rewrite (applied_walk_prefix _ names).
Qed.

Lemma applied_patches_prefix_witness :
  WorkingRepo._applied_patches "/w" Sample.applied_world
  = (inr ["b.patch"; "a.patch"], Sample.applied_world).
Proof.
  eapply (applied_patches_prefix "/w" Sample.applied_world _
            [_; _] ["b.patch"; "a.patch"] Sample.upstream []).
  - vm_compute. reflexivity.
  - reflexivity.
  - repeat constructor; done.
  - reflexivity.
Defined.

Lemma clean_run self w r :
  repos w !! self = Some r →
  repo_unmerged r = false → repo_index r = Git.head_tree r →
  Git.uncommitted_changes self w = (inr false, w).
Proof.
  intros Hr Hunmerged Hindex. unfold Git.uncommitted_changes, Git.get_repo.
  munfold. rewrite Hr. simpl.
  by rewrite bool_decide_eq_false_2 by (by intros H; apply H).
Qed.

Lemma dirty_run self w r :
  repos w !! self = Some r →
  repo_index r ≠ Git.head_tree r →
  Git.uncommitted_changes self w = (inr true, w).
Proof.
  intros Hr Hdirty. unfold Git.uncommitted_changes, Git.get_repo.
  munfold. rewrite Hr. simpl. by rewrite bool_decide_eq_true_2.
Qed.

Lemma last_upstream_commit_hash_run self w r annotated names c older :
  repos w !! self = Some r →
  repo_log r = annotated ++ c :: older →
  Forall2 (λ commit name,
             Utils.get_patch_annotation (commit_msg commit) = Some name
             ∧ name ≠ "") annotated names →
  Py.truthy (Utils.get_patch_annotation (commit_msg c)) = false →
  WorkingRepo._last_upstream_commit_hash self w
  = (inr (Py.strip (commit_hash c)), w).
Proof.
  intros Hr Hlog Hann Hc. unfold WorkingRepo._last_upstream_commit_hash.
  assert (WorkingRepo._applied_patches self w = (inr names, w)) as Happlied.
  { unfold WorkingRepo._applied_patches, Git.get_repo.
    munfold. rewrite Hr, Hlog. simpl.
    by rewrite (applied_walk_prefix _ names). }
  rewrite (bind_inr _ _ _ _ _ Happlied).
  unfold Git.log, Git.get_repo. munfold. rewrite Hr. simpl.
  unfold Git.rev_parse. simpl. rewrite Hlog.
  rewrite length_app. simpl.
  replace (0 <? length annotated + S (length older)) with true
    by (symmetry; apply Nat.ltb_lt; lia).
  simpl. rewrite <- (Forall2_length _ _ _ Hann).
  by rewrite list_lookup_middle.
Qed.

(** ** Rolling back *)



(** ** Status *)

(** X9.  Without a conflict file, [status] only looks at HEAD: it answers
    no-patches-applied when the HEAD commit carries no annotation, and
    all-patches-applied as soon as it carries one, however many patches of
    the series are applied. *)
Theorem status_without_conflict (self : string) (w : World) (r : Repo)
    (c : Commit) (older : list Commit) :
  fs w !! WorkingRepo._patch_conflict_path self = None →
  repos w !! self = Some r →
  repo_log r = c :: older →
  (∀ e, WorkingRepo.applied_walk (map commit_msg older) ≠ inl e) →
  WorkingRepo.status self w
  = (inr (if Py.truthy (Utils.get_patch_annotation (commit_msg c))
          then "all-patches-applied" else "no-patches-applied"), w).
Proof.
  intros Hfile Hr Hlog Hwalk.
  unfold WorkingRepo.status, WorkingRepo._conflict_file_exists, Os.exists_,
    WorkingRepo._applied_patches, Git.get_repo.
  munfold. rewrite Hfile. simpl. rewrite Hr, Hlog. simpl.
  destruct (Py.truthy (Utils.get_patch_annotation (commit_msg c))); [| done].
  simpl. destruct (WorkingRepo.applied_walk (map commit_msg older)) as [e|names]
    eqn:Hnames; [by destruct (Hwalk e) | done].
Qed.

Lemma status_without_conflict_witness :
  WorkingRepo.status "/w" Sample.applied_world
  = (inr "all-patches-applied", Sample.applied_world).
Proof.
  pose (r := default (mkRepo [] ∅ false ∅ [])
               (repos Sample.applied_world !! "/w")).
  apply (status_without_conflict "/w" Sample.applied_world r
           (default Sample.upstream (head (repo_log r)))
           (tail (repo_log r)));
    [vm_compute; reflexivity | vm_compute; reflexivity | reflexivity
    | intros e; vm_compute; discriminate].
Defined.

(** ** Uncommitted changes *)

(** X10.  When the working repository answers that it has uncommitted
    changes, [restore], [rollback] and [save] raise UncommittedChanges
    before doing anything: the world is left as it was. *)
Theorem dirty_tree_refused (g : GitOracle) (limit : nat) (self : string)
    (w : World) :
  Git.uncommitted_changes self w = (inr true, w) →
  (∀ three_way,
     WorkingRepo.restore g limit self three_way w
     = (inl UncommittedChanges, w))
  ∧ WorkingRepo.rollback self w = (inl UncommittedChanges, w)
  ∧ ∀ since prefix,
      WorkingRepo.save g limit self since prefix w
      = (inl UncommittedChanges, w).
Proof.
  intros Hrun. split; [| split].
  - intros three_way. unfold WorkingRepo.restore.
    by rewrite (bind_inr _ _ _ _ _ Hrun).
  - unfold WorkingRepo.rollback. by rewrite (bind_inr _ _ _ _ _ Hrun).
  - intros since prefix. unfold WorkingRepo.save.
    by rewrite (bind_inr _ _ _ _ _ Hrun).
Qed.

Lemma dirty_tree_refused_witness :
  WorkingRepo.rollback "/w" Sample.dirty_world
  = (inl UncommittedChanges, Sample.dirty_world).
Proof.
  apply (dirty_tree_refused Sample.oracle 1 "/w" Sample.dirty_world).
  vm_compute. reflexivity.
Defined.

Lemma patch_repo_run self w r pr :
  repos w !! self = Some r →
  repo_config r !! "ply.patchrepo" = Some pr → pr ≠ "" →
  WorkingRepo.patch_repo self w = (inr pr, w).
Proof.
  intros Hr Hconfig Hpr. unfold WorkingRepo.patch_repo.
  rewrite (bind_inr _ _ _ _ _ (patch_repo_path_run _ _ _ Hr)), Hconfig.
  by destruct pr.
Qed.

(** X11.  [save] validates before it exports anything: on a clean working
    repository, uncommitted changes in the linked patch repository make
    it raise UncommittedChanges, and otherwise a revision range written
    with two dots makes it raise ValueError; in both cases the world is
    left as it was. *)
Theorem save_validates (g : GitOracle) (limit : nat) (self pr : string)
    (w : World) (r rp : Repo) (since : string) (prefix : option string) :
  repos w !! self = Some r →
  repo_unmerged r = false → repo_index r = Git.head_tree r →
  repo_config r !! "ply.patchrepo" = Some pr → pr ≠ "" →
  repos w !! pr = Some rp →
  (Git.uncommitted_changes pr w = (inr true, w) →
   WorkingRepo.save g limit self since prefix w
   = (inl UncommittedChanges, w))
  ∧ (repo_unmerged rp = false → repo_index rp = Git.head_tree rp →
     Py.contains ".." since = true →
     WorkingRepo.save g limit self since prefix w = (inl ValueError, w)).
Proof.
  intros Hr Hunmerged Hindex Hconfig Hpr Hrp.
  pose proof (clean_run _ _ _ Hr Hunmerged Hindex) as Hclean.
  pose proof (patch_repo_run _ _ _ _ Hr Hconfig Hpr) as Hlinked.
  split.
  - intros Hdirty. unfold WorkingRepo.save.
    rewrite (bind_inr _ _ _ _ _ Hclean). simpl.
    rewrite (bind_inr _ _ w w true); [reflexivity |].
    by rewrite (bind_inr _ _ _ _ _ Hlinked).
  - intros Hunmerged' Hindex' Hsince. unfold WorkingRepo.save.
    rewrite (bind_inr _ _ _ _ _ Hclean). simpl.
    rewrite (bind_inr _ _ w w false);
      [| rewrite (bind_inr _ _ _ _ _ Hlinked); by apply clean_run with rp].
    simpl. by rewrite Hsince.
Qed.

Lemma save_validates_witness :
  WorkingRepo.save Sample.oracle 1 "/w" "HEAD~2..HEAD" None
    Sample.shifted_world
  = (inl ValueError, Sample.shifted_world).
Proof.
  pose (r := default (mkRepo [] ∅ false ∅ [])
               (repos Sample.shifted_world !! "/w")).
  pose (rp := default (mkRepo [] ∅ false ∅ [])
                (repos Sample.shifted_world !! "/p")).
  destruct (save_validates Sample.oracle 1 "/w" "/p" Sample.shifted_world
              r rp "HEAD~2..HEAD" None) as [_ Hrange];
    [vm_compute; reflexivity | reflexivity | reflexivity | reflexivity
    | discriminate | vm_compute; reflexivity |].
  apply Hrange; vm_compute; reflexivity.
Defined.

(** ** Restoring when there is nothing to do *)

Lemma restore_loop_applied g self three_way applied series w :
  (∀ n, n ∈ series → n ∈ applied) →
  WorkingRepo.restore_loop g self three_way applied series w = (inr tt, w).
Proof.
  induction series as [|n series IH]; intros Hall; [done |].
  simpl. rewrite (proj2 (mem_true n applied)) by (apply Hall; left).
  apply IH. intros n' Hn'. apply Hall. by right.
Qed.

(** X12.  [restore] does nothing when every patch of the series is
    already applied and the patch repository is clean: it returns, and the
    world is exactly what it was. *)
Theorem restore_nothing_to_do (g : GitOracle) (limit : nat) (self pr : string)
    (three_way : bool) (w : World) (applied series : list string) :
  Git.uncommitted_changes self w = (inr false, w) →
  WorkingRepo._applied_patches self w = (inr applied, w) →
  WorkingRepo.patch_repo self w = (inr pr, w) →
  PatchRepo.series limit pr w = (inr series, w) →
  (∀ n, n ∈ series → n ∈ applied) →
  Git.uncommitted_changes pr w = (inr false, w) →
  WorkingRepo.restore g limit self three_way w = (inr tt, w).
Proof.
  intros Hclean Happlied Hlinked Hseries Hall Hclean'.
  unfold WorkingRepo.restore.
  rewrite (bind_inr _ _ _ _ _ Hclean). simpl.
  rewrite (bind_inr _ _ _ _ _ Happlied), (bind_inr _ _ _ _ _ Hlinked),
    (bind_inr _ _ _ _ _ Hseries).
  rewrite (bind_inr _ _ _ _ _
             (restore_loop_applied g self three_way applied series w Hall)).
  by rewrite (bind_inr _ _ _ _ _ Hlinked), (bind_inr _ _ _ _ _ Hclean').
Qed.

Lemma restore_nothing_to_do_witness :
  WorkingRepo.restore Sample.oracle 1 "/w" true Sample.restored_world
  = (inr tt, Sample.restored_world).
Proof.
  apply (restore_nothing_to_do Sample.oracle 1 "/w" "/p" true
           Sample.restored_world ["b.patch"; "a.patch"]
           ["a.patch"; "b.patch"]);
    [vm_compute; reflexivity | vm_compute; reflexivity
    | vm_compute; reflexivity | vm_compute; reflexivity
    | | vm_compute; reflexivity].
  intros n Hn. apply mem_true.
  apply list_elem_of_In in Hn. simpl in Hn.
  destruct Hn as [<- | [<- | []]]; reflexivity.
Defined.

(** ** Changing the series *)

(** X13.  Changing the series never commits: [add_patches] and
    [remove_patch] leave the history, the reflog and the configuration of
    every repository as they were, whether they return or raise. *)
Theorem series_mutations_never_commit (self : string)
    (patch_names : list string) (parent : option string)
    (patch_name : string) (w : World) :
  same_heads w (PatchRepo.add_patches self patch_names parent w).2
  ∧ same_heads w (PatchRepo.remove_patch self patch_name w).2.
Proof.
  split; [apply stable_add_patches | apply stable_remove_patch].
Qed.

(** X14.  [add_patches] with a parent that is not in the series raises
    ValueError before anything is staged or written: the world is left as
    it was. *)
Theorem add_patches_unknown_parent (self : string) (patch_names : list string)
    (parent : string) (w : World) (entries : list string) :
  manifest self w = Some entries →
  parent ≠ "" → parent ∉ entries →
  PatchRepo.add_patches self patch_names (Some parent) w
  = (inl ValueError, w).
Proof.
  intros Hmanifest Hparent Hnot.
  destruct (manifest_Some _ _ _ Hmanifest) as (content & Hcontent & ->).
  unfold PatchRepo.add_patches.
  apply mutate_raise with content; [done |].
  destruct parent as [|a parent]; [done |]. simpl.
  munfold. by rewrite (index_None _ _ Hnot).
Qed.

Lemma add_patches_unknown_parent_witness :
  PatchRepo.add_patches "/p" ["b.patch"] (Some "q.patch") Sample.shifted_world
  = (inl ValueError, Sample.shifted_world).
Proof.
  apply (add_patches_unknown_parent "/p" ["b.patch"] "q.patch"
           Sample.shifted_world ["p.patch"; "x.patch"; "a.patch"]);
    [vm_compute; reflexivity | discriminate |].
  intros Hin. apply list_elem_of_In in Hin. simpl in Hin.
  destruct Hin as [H | [H | [H | []]]]; discriminate.
Defined.

(** ** Manifests that cannot be read, and the two readers *)

Lemma series_lines_fail rec self pre line post w :
  (∀ p w0, (rec p w0).2 = w0) →
  Py.startswith "-i " (Py.strip line) = true →
  (∃ e, (rec (PosixPath.join self (Py.strip (Py.drop 3 (Py.strip line)))) w).1
        = inl e) →
  ∃ e, (PatchRepo.series_lines rec self (pre ++ line :: post) w).1 = inl e.
Proof.
  intros Hpure Hstart [e Hchild]. induction pre as [|line0 pre IH].
  - simpl. rewrite Hstart, (split1_directive _ Hstart). munfold.
    destruct (rec _ w) as [[e'|cs] w1]; simpl in *; [by eexists | done].
  - destruct IH as [e' IH]. simpl.
    destruct (Py.startswith "-i " (Py.strip line0)).
    + destruct (Py.split1 " " (Py.strip line0) !! 1) as [after|];
        [| by eexists].
      munfold. pose proof (Hpure (PosixPath.join self (Py.strip after)) w) as Hw.
      destruct (rec (PosixPath.join self (Py.strip after)) w)
        as [[e0|cs] w1]; simpl in *; [by eexists |].
      subst w1.
      destruct (PatchRepo.series_lines rec self (pre ++ line :: post) w)
        as [[e1|es] w2]; simpl in *; [by eexists | done].
    + munfold.
      destruct (PatchRepo.series_lines rec self (pre ++ line :: post) w)
        as [[e1|es] w2]; simpl in *; [by eexists | done].
Qed.

(** X15.  A manifest with a line that includes the manifest itself has no
    series: whatever the recursion limit, [series] raises, and the world is
    left as it was. *)
Theorem series_self_inclusion (limit : nat) (self : string) (w : World)
    (content : string) (pre post : list string) (line : string) :
  fs w !! PatchRepo.series_path self = Some content →
  Py.file_lines content = pre ++ line :: post →
  Py.startswith "-i " (Py.strip line) = true →
  PosixPath.join self (Py.strip (Py.drop 3 (Py.strip line)))
  = PatchRepo.series_path self →
  ∃ e, PatchRepo.series limit self w = (inl e, w).
Proof.
  intros Hcontent Hlines Hstart Hself.
  assert (∃ e, (PatchRepo.series limit self w).1 = inl e) as [e He].
  { unfold PatchRepo.series. induction limit as [|limit IH]; [by eexists |].
    simpl. unfold Os.read. munfold. rewrite Hcontent, Hlines.
    apply series_lines_fail; [| done | by rewrite Hself].
    intros p w0. apply recursive_series_world. }
  exists e. apply injective_projections; [exact He |].
  apply recursive_series_world.
Qed.

Lemma series_self_inclusion_witness :
  ∃ e, PatchRepo.series 7 "/p" Sample.cyclic_world
       = (inl e, Sample.cyclic_world).
Proof.
  apply (series_self_inclusion 7 "/p" Sample.cyclic_world
           (Sample.l "a.patch" +:+ Sample.l "-i series")
           [Sample.l "a.patch"] [] (Sample.l "-i series"));
    vm_compute; reflexivity.
Defined.

Lemma read_entries_filter (lines : list string) :
  PatchRepo.read_entries lines
  = filter (λ name, name ≠ "") (map Py.strip lines).
Proof.
  induction lines as [|line lines IH]; [done |].
  simpl. rewrite filter_cons. destruct (Py.strip line) as [|a s] eqn:E.
  - by rewrite decide_False by (by intros H; apply H).
  - rewrite decide_True by done. by rewrite IH.
Qed.

Lemma filter_nonempty_id (names : list string) :
  "" ∉ names → filter (λ name, name ≠ "") names = names.
Proof.
  induction names as [|n names IH]; intros Hnone; [done |].
  rewrite filter_cons, decide_True.
  - f_equal. apply IH. intros H. apply Hnone. by right.
  - intros ->. apply Hnone. by left.
Qed.

(** X16.  On a manifest without inclusions, the entries that
    [_mutate_series_file] hands to [add_patches] and [remove_patch] are
    the series in the same order, without its empty names; when the series
    has no empty name the two lists are the same. *)
Theorem flat_series_and_entries (limit : nat) (self : string) (w : World)
    (content : string) :
  fs w !! PatchRepo.series_path self = Some content →
  Forall (λ line, Py.startswith "-i " (Py.strip line) = false)
         (Py.file_lines content) →
  ∃ names,
    PatchRepo.series (S limit) self w = (inr names, w)
    ∧ manifest self w = Some (filter (λ name, name ≠ "") names)
    ∧ ("" ∉ names → manifest self w = Some names).
Proof.
  intros Hcontent Hflat. exists (map Py.strip (Py.file_lines content)).
  split; [by apply series_flat |].
  assert (manifest self w
          = Some (filter (λ name, name ≠ "")
                         (map Py.strip (Py.file_lines content)))) as Hm.
  { unfold manifest. rewrite Hcontent. simpl. by rewrite read_entries_filter. }
  split; [exact Hm |]. intros Hnone. rewrite Hm. f_equal.
  by apply filter_nonempty_id.
Qed.

Lemma flat_series_and_entries_witness :
  ∃ names,
    PatchRepo.series 1 "/p" Sample.blank_line_world
    = (inr names, Sample.blank_line_world)
    ∧ manifest "/p" Sample.blank_line_world
      = Some (filter (λ name, name ≠ "") names).
Proof.
  destruct (flat_series_and_entries 0 "/p" Sample.blank_line_world
              (Sample.l "a.patch" +:+ Sample.l "" +:+ Sample.l "b.patch"))
    as (names & Hseries & Hm & _);
    [vm_compute; reflexivity | repeat constructor |].
  exists names. split; [exact Hseries | exact Hm].
Defined.

(** ** Files changed by a patch *)

Lemma changed_files_lines_elem lines (acc : gset string) f :
  f ∈ PatchRepo.changed_files_lines lines acc
  ↔ f ∈ acc
    ∨ ∃ line, line ∈ lines ∧ header_file line = Some f
              ∧ Py.startswith "/dev/null" f = false.
Proof.
  revert acc. induction lines as [|line lines IH]; intros acc.
  - simpl. split; [by left |]. intros [H | (line & H & _)]; [done |].
    by apply elem_of_nil in H.
  - simpl. fold (header_file line).
    destruct (header_file line) as [n|] eqn:Hn;
      [destruct (Py.startswith "/dev/null" n) eqn:Hdev |];
      rewrite IH; split.
    + intros [H | (l0 & Hl0 & H)]; [by left |].
      right. exists l0. split; [by right | done].
    + intros [H | (l0 & [-> | Hl0]%elem_of_cons & Hf & Hd)]; [by left | |].
      * rewrite Hn in Hf. simplify_eq. congruence.
      * right. by exists l0.
    + intros [[H | ->%elem_of_singleton]%elem_of_union | (l0 & Hl0 & H)].
      * by left.
      * right. exists line. split; [by left | done].
      * right. exists l0. split; [by right | done].
    + intros [H | (l0 & [-> | Hl0]%elem_of_cons & Hf & Hd)].
      * left. apply elem_of_union. by left.
      * rewrite Hn in Hf. simplify_eq. left. apply elem_of_union. right.
        by apply elem_of_singleton.
      * right. by exists l0.
    + intros [H | (l0 & Hl0 & H)]; [by left |].
      right. exists l0. split; [by right | done].
    + intros [H | (l0 & [-> | Hl0]%elem_of_cons & Hf & Hd)]; [by left | |].
      * rewrite Hn in Hf. done.
      * right. by exists l0.
Qed.

(** X17.  [_changed_files_for_patch] answers exactly the names read off
    the old-file and new-file header lines of the patch, whatever their
    order and number, except the names that start with /dev/null; lines of
    any other form contribute nothing.  A patch that cannot be read raises
    IOError.  The world is left as it was. *)
Theorem changed_files_are_header_files (self patch_name : string) (w : World) :
  match fs w !! PosixPath.join self patch_name with
  | Some content =>
      ∃ changed_files,
        PatchRepo._changed_files_for_patch self patch_name w
        = (inr changed_files, w)
        ∧ ∀ filename,
            filename ∈ changed_files
            ↔ Py.startswith "/dev/null" filename = false
              ∧ ∃ line, line ∈ Py.file_lines content
                        ∧ header_file line = Some filename
  | None =>
      PatchRepo._changed_files_for_patch self patch_name w = (inl IOError, w)
  end.
Proof.
  unfold PatchRepo._changed_files_for_patch, Os.read. munfold.
  destruct (fs w !! PosixPath.join self patch_name) as [content|]; [| done].
  eexists. split; [reflexivity |]. intros filename.
  rewrite changed_files_lines_elem. split.
  - intros [H | (line & Hline & Hf & Hd)]; [by apply not_elem_of_empty in H |].
    split; [done |]. by exists line.
  - intros [Hd (line & Hline & Hf)]. right. by exists line.
Qed.

(** ** The direction of the dependency edges *)

Lemma sublist_pair_before a b (l : list string) :
  sublist [a; b] l → before a b l.
Proof.
  intros (k1 & k2 & -> & (k3 & k4 & -> & _)%sublist_cons_l)%sublist_cons_l.
  exists (length k1), (length k1 + S (length k3)). split; [lia |]. split.
  - by rewrite list_lookup_middle.
  - rewrite lookup_app_r by lia.
    replace (length k1 + S (length k3) - length k1) with (S (length k3))
      by lia.
    simpl. by rewrite list_lookup_middle.
Qed.

Lemma consecutive_filter_before a b (P : string → Prop)
    `{!∀ x, Decision (P x)} (l : list string) :
  consecutive a b (filter P l) → before a b l.
Proof.
  intros (l1 & l2 & Hl). apply sublist_pair_before.
  transitivity (filter P l); [| apply sublist_filter].
  rewrite Hl. apply sublist_inserts_l. do 2 apply sublist_skip.
  apply sublist_nil_l.
Qed.

Lemma before_NoDup a b (l : list string) :
  NoDup l → before a b l → a ≠ b ∧ ¬ before b a l.
Proof.
  intros Hl (i & j & Hij & Hi & Hj). split.
  - intros ->. pose proof (NoDup_lookup _ _ _ _ Hl Hi Hj). lia.
  - intros (i' & j' & Hij' & Hi' & Hj').
    pose proof (NoDup_lookup _ _ _ _ Hl Hi Hj').
    pose proof (NoDup_lookup _ _ _ _ Hl Hj Hi'). lia.
Qed.

Lemma dependencies_edges limit self w patches changed :
  PatchRepo.series limit self w = (inr patches, w) →
  (∀ p, p ∈ patches →
        PatchRepo._changed_files_for_patch self p w = (inr (changed p), w)) →
  ∃ graph,
    PatchRepo.patch_dependencies limit self w = (inr graph, w)
    ∧ ∀ dependent parent,
        is_Some (graph !! (dependent, parent)) →
        ∃ filename,
          consecutive parent dependent (touching changed filename patches).
Proof.
  intros Hseries Hread.
  destruct (changes_loop_run self patches changed w ∅ Hread)
    as (fc & Hrun & Hfc).
  exists (PatchRepo.files_loop (map_to_list fc)). split.
  { unfold PatchRepo.patch_dependencies, PatchRepo._changes_by_filename.
    munfold. by rewrite Hseries, Hrun. }
  intros d p [files Hfiles].
  pose proof (labelled_files_loop (map_to_list fc) _ _ Hfiles) as Hne.
  apply set_choose_L in Hne as [f Hf]. exists f.
  assert (f ∈ labels (PatchRepo.files_loop (map_to_list fc)) (d, p)) as Hl
    by (unfold labels; by rewrite Hfiles).
  unfold PatchRepo.files_loop in Hl. rewrite files_loop_labels in Hl.
  destruct Hl as [Hl | (l & Hl & [Hc _])].
  { unfold labels in Hl. rewrite lookup_empty in Hl.
    by apply not_elem_of_empty in Hl. }
  apply elem_of_map_to_list in Hl. rewrite Hfc, lookup_empty in Hl.
  unfold merge_changes in Hl.
  destruct (touching changed f patches); simplify_eq. exact Hc.
Qed.

(** X18.  Every edge of the dependency graph points back in the series:
    the parent of an edge occurs before its dependent.  When no patch is
    listed twice, the graph therefore has no edge from a patch to itself
    and never both an edge and its reverse. *)
Theorem patch_dependencies_point_back (limit : nat) (self : string)
    (w : World) (patches : list string) (changed : string → gset string) :
  PatchRepo.series limit self w = (inr patches, w) →
  (∀ p, p ∈ patches →
        PatchRepo._changed_files_for_patch self p w = (inr (changed p), w)) →
  ∃ graph,
    PatchRepo.patch_dependencies limit self w = (inr graph, w)
    ∧ (∀ dependent parent,
         is_Some (graph !! (dependent, parent)) →
         before parent dependent patches)
    ∧ (NoDup patches →
       ∀ dependent parent,
         is_Some (graph !! (dependent, parent)) →
         dependent ≠ parent ∧ graph !! (parent, dependent) = None).
Proof.
  intros Hseries Hread.
  destruct (dependencies_edges _ _ _ _ _ Hseries Hread)
    as (graph & Hrun & Hedges).
  assert (∀ d p, is_Some (graph !! (d, p)) → before p d patches) as Hback.
  { intros d p [f Hf]%Hedges. by eapply consecutive_filter_before. }
  exists graph. split; [exact Hrun |]. split; [exact Hback |].
  intros Hnodup d p Hedge.
  destruct (before_NoDup _ _ _ Hnodup (Hback _ _ Hedge)) as [Hne Hno].
  split; [done |]. apply eq_None_not_Some. intros Hrev.
  apply Hno. by apply Hback.
Qed.

Lemma patch_dependencies_point_back_witness :
  ∃ graph,
    PatchRepo.patch_dependencies 1 "/p" Sample.overlap_world
    = (inr graph, Sample.overlap_world)
    ∧ ∀ dependent parent,
        is_Some (graph !! (dependent, parent)) →
        before parent dependent ["a.patch"; "b.patch"].
Proof.
  destruct (patch_dependencies_point_back 1 "/p" Sample.overlap_world
              ["a.patch"; "b.patch"] Sample.overlap_changed)
    as (graph & Hrun & Hback & _).
  - vm_compute. reflexivity.
  - intros p [->|[->|H]%elem_of_cons]%elem_of_cons.
    + vm_compute. reflexivity.
    + vm_compute. reflexivity.
    + by apply elem_of_nil in H.
  - exists graph. split; [exact Hrun | exact Hback].
Defined.

(** ** Initialising a patch repository *)

(** X19.  [initialize] where there is neither a repository nor a series
    file creates both: the series file is empty, the history is the single
    commit Ply init whose tree holds the empty series, and nothing is left
    uncommitted.  A second [initialize] changes nothing. *)
Theorem initialize_fresh (g : GitOracle) (self : string) (w : World) :
  repos w !! self = None →
  fs w !! PatchRepo.series_path self = None →
  ∃ w' c,
    PatchRepo.initialize g self w = (inr tt, w')
    ∧ fs w' = <[PatchRepo.series_path self := ""]> (fs w)
    ∧ log_of self w' = Some [c]
    ∧ commit_msg c = "Ply init"
    ∧ commit_tree c = {["series" := ""]}
    ∧ manifest self w' = Some []
    ∧ Git.uncommitted_changes self w' = (inr false, w')
    ∧ PatchRepo.initialize g self w' = (inr tt, w').
Proof.
  intros Hrepo Hseries.
  unfold PatchRepo.initialize, Git.init, try_except, Git.add, Git.commit,
    Git.get_repo, Git.put_repo, Git.read_opt, Os.exists_, Os.write.
  munfold. rewrite Hrepo. simpl. rewrite Hseries. simpl.
  rewrite lookup_insert_eq. simpl.
  change (PosixPath.join self "series") with (PatchRepo.series_path self).
  rewrite lookup_insert_eq. simpl. rewrite lookup_insert_eq. simpl.
  eexists _, _. split; [reflexivity |]. simpl.
  split; [done |]. split.
  { unfold log_of. simpl. by rewrite lookup_insert_eq. }
  split; [done |]. split; [by rewrite insert_empty |]. split.
  { unfold manifest. simpl. by rewrite lookup_insert_eq. }
  split.
  { unfold Git.uncommitted_changes, Git.get_repo. munfold. simpl.
    rewrite lookup_insert_eq. simpl.
    by rewrite bool_decide_eq_false_2 by (by intros H; apply H). }
  rewrite lookup_insert_eq. simpl. rewrite lookup_insert_eq. done.
Qed.

Lemma initialize_fresh_witness :
  ∃ w' c,
    PatchRepo.initialize Sample.oracle "/p" Sample.empty_world = (inr tt, w')
    ∧ log_of "/p" w' = Some [c]
    ∧ commit_msg c = "Ply init".
Proof.
  destruct (initialize_fresh Sample.oracle "/p" Sample.empty_world)
    as (w' & c & Hrun & _ & Hlog & Hmsg & _); [reflexivity | reflexivity |].
  by exists w', c.
Defined.

(** ** Commits to the patch repository during [restore] and [skip] *)

Lemma commits_last_once g self pr w out :
  pr ≠ self → commits_last g self w out → commits_once g self pr w out.
Proof.
  intros Hpr
    [H | (w1 & pr' & msg & Hkeeps & Hlinked & Hdirty & Hcommit & Hok)].
  { left. by apply H. }
  assert (log_of pr w1 = log_of pr w) as Hlog by (by apply Hkeeps).
  unfold Git.commit, Git.get_repo, Git.put_repo in Hcommit. munfold.
  destruct (repos w1 !! pr') as [r|] eqn:Hr;
    [| rewrite <- Hcommit in Hok; done].
  simpl in Hcommit.
  destruct (bool_decide (repo_index r = Git.head_tree r)) eqn:Hstaged;
    [rewrite <- Hcommit in Hok; done |].
  destruct (decide (pr' = pr)) as [->|Hne].
  - right. split; [exact Hok |].
    exists w1, msg, (mkCommit (hash_of g msg (repo_index r) (repo_log r)) msg
                       (repo_index r)), (repo_log r).
    split; [done |]. split; [done |]. split; [done |]. split.
    { unfold Git.commit, Git.get_repo, Git.put_repo. munfold.
      rewrite Hr. simpl. by rewrite Hstaged. }
    split.
    + rewrite <- Hlog. unfold log_of. by rewrite Hr.
    + rewrite <- Hcommit. unfold log_of. simpl. by rewrite lookup_insert_eq.
  - left. rewrite <- Hlog, <- Hcommit. unfold log_of. simpl.
    by rewrite lookup_insert_ne.
Qed.

Lemma commits_last_skip g limit self w :
  commits_last g self w (WorkingRepo.skip g limit self w).
Proof.
  unfold WorkingRepo.skip.
  apply commits_last_bind; [stable_steps |]. intros patch_name w1.
  apply commits_last_bind; [stable_steps |]. intros pr w2.
  apply commits_last_bind; [stable_steps |]. intros [] w3.
  apply commits_last_restore.
Qed.

(** X20.  During [restore] and during [skip], a repository other than the
    working one either receives no commit at all, or receives exactly one,
    made as the very last action of a call that succeeds; the repository
    committed to is then the linked patch repository, which has
    uncommitted changes at that point. *)
Theorem restore_skip_commit_once (g : GitOracle) (limit : nat)
    (self pr : string) (w : World) :
  pr ≠ self →
  (∀ three_way,
     commits_once g self pr w (WorkingRepo.restore g limit self three_way w))
  ∧ commits_once g self pr w (WorkingRepo.skip g limit self w).
Proof.
  intros Hpr. split.
  - intros three_way. apply commits_last_once; [done |].
    apply commits_last_restore.
  - apply commits_last_once; [done |]. apply commits_last_skip.
Qed.

Lemma restore_skip_commit_once_witness :
  commits_once Sample.oracle "/w" "/p" Sample.upstream_world
    (WorkingRepo.restore Sample.oracle 1 "/w" true Sample.upstream_world).
Proof.
  destruct (restore_skip_commit_once Sample.oracle 1 "/w" "/p"
              Sample.upstream_world) as [Hrestore _]; [discriminate |].
  apply Hrestore.
Defined.

(** ** What [abort], [rollback] and [skip] do to the histories *)

#[local] Instance only_drops_preorder self : PreOrder (only_drops self).
Proof.
  split.
  - intros w. exists 0. by destruct (log_of self w).
  - intros w1 w2 w3 [d1 H1] [d2 H2]. exists (d1 + d2). rewrite H2, H1.
    destruct (log_of self w1); [| done]. simpl. by rewrite drop_drop.
Qed.

Lemma stable_only_drops {A} self (c : M A) :
  stable same_heads c → stable (only_drops self) c.
Proof.
  intros H w. exists 0. destruct (H w self) as [-> _].
  by destruct (log_of self w).
Qed.

Lemma drops_reset self self' rev :
  stable (only_drops self) (Git.reset self' rev).
Proof.
  intros w. unfold Git.reset, Git.get_repo, Git.put_repo. munfold.
  destruct (repos w !! self') as [r|] eqn:Hr; [| reflexivity].
  destruct (Git.rev_parse rev (repo_log r)) as [d|]; [| reflexivity].
  simpl. unfold only_drops, log_of. simpl.
  destruct (decide (self' = self)) as [->|Hne].
  - exists d. by rewrite lookup_insert_eq, Hr.
  - exists 0. rewrite lookup_insert_ne by done.
    by destruct (repos w !! self).
Qed.

Lemma keeps_reset self rev : stable (keeps self) (Git.reset self rev).
Proof.
  intros w. unfold Git.reset, Git.get_repo, Git.put_repo. munfold.
  destruct (repos w !! self) as [r|] eqn:Hr; [| reflexivity].
  destruct (Git.rev_parse rev (repo_log r)) as [d|]; [| reflexivity].
  simpl. by eapply put_keeps.
Qed.

Lemma same_logs_am_continue g self method w :
  method ≠ Resolved →
  ∀ p, log_of p (Git.am_continue g self method w).2 = log_of p w.
Proof.
  intros Hmethod p. unfold Git.am_continue, Git.get_repo, Git.put_repo.
  munfold. destruct (repos w !! self) as [r|] eqn:Hr; [| done].
  destruct (repo_unmerged r); [| done]. simpl.
  destruct method; try done; simpl; unfold log_of; simpl;
    (destruct (decide (self = p)) as [<-|Hne];
     [by rewrite lookup_insert_eq, Hr | by rewrite lookup_insert_ne]).
Qed.

Lemma same_logs_reset_head self w :
  ∀ p, log_of p (Git.reset self "HEAD" w).2 = log_of p w.
Proof.
  intros p. unfold Git.reset, Git.get_repo, Git.put_repo, Git.rev_parse.
  munfold. destruct (repos w !! self) as [r|] eqn:Hr; [| done]. simpl.
  destruct (0 <? length (repo_log r)); [| done]. simpl.
  unfold log_of. simpl. destruct (decide (self = p)) as [<-|Hne].
  - by rewrite lookup_insert_eq, Hr.
  - by rewrite lookup_insert_ne.
Qed.

(** X21.  [abort] and [rollback] never add or rewrite a commit.  [abort]
    leaves the history of every repository as it was, whether it returns
    or raises; [rollback] can only cut the history of the working
    repository back to one of its own commits, and leaves the history and
    the configuration of every other repository alone. *)
Theorem abort_rollback_add_no_commit (g : GitOracle) (self : string)
    (w : World) :
  (∀ p, log_of p (WorkingRepo.abort g self w).2 = log_of p w)
  ∧ only_drops self w (WorkingRepo.rollback self w).2
  ∧ keeps self w (WorkingRepo.rollback self w).2.
Proof.
  split; [| split].
  - intros p. unfold WorkingRepo.abort, WorkingRepo._resolve_conflict.
    munfold.
    pose proof (same_logs_am_continue g self Abort w) as H1.
    destruct (Git.am_continue g self Abort w) as [[e|[]] w1];
      simpl in *; [by apply H1 |].
    pose proof (stable_teardown_conflict_file self w1 p) as [H2 _].
    destruct (WorkingRepo._teardown_conflict_file self w1) as [[e|name] w2];
      simpl in *; [rewrite H2; by apply H1 |].
    rewrite same_logs_reset_head, H2. by apply H1.
  - revert w. change (stable (only_drops self) (WorkingRepo.rollback self)).
    unfold WorkingRepo.rollback.
    pose proof (drops_reset self self).
    pose proof (@stable_only_drops). stable_steps.
  - revert w. change (stable (keeps self) (WorkingRepo.rollback self)).
    unfold WorkingRepo.rollback.
    pose proof (keeps_reset self). stable_steps.
Qed.

(** X22.  [skip] rewrites the message of a commit only to annotate it:
    every amendment that [skip] records in the reflog of the working
    repository appends the annotation of a patch to a message that does
    not carry the marker yet; [abort] and [rollback] obey the same rule. *)
Theorem skip_annotates_only (g : GitOracle) (limit : nat) (self : string)
    (w : World) :
  annotates_only self w (WorkingRepo.skip g limit self w).2
  ∧ annotates_only self w (WorkingRepo.abort g self w).2
  ∧ annotates_only self w (WorkingRepo.rollback self w).2.
Proof.
  pose proof (stable_reset self self) as Hreset.
  split; [| split]; revert w.
  - change (stable (annotates_only self) (WorkingRepo.skip g limit self)).
    unfold WorkingRepo.skip. stable_steps.
  - change (stable (annotates_only self) (WorkingRepo.abort g self)).
    unfold WorkingRepo.abort. stable_steps.
  - change (stable (annotates_only self) (WorkingRepo.rollback self)).
    unfold WorkingRepo.rollback. stable_steps.
Qed.

(** ** Restoring a series that applies *)





(** ** Committing to the patch repository *)

(** X24.  When something is staged in the linked patch repository,
    [_commit_to_patch_repo] commits it on top of the history of that
    repository, with the given message followed by a Ply-Based-On line that
    names the first commit without annotation below the HEAD of the working
    repository; it changes no file and no other repository. *)
Theorem commit_to_patch_repo_based_on (g : GitOracle) (self pr msg : string)
    (w : World) (r rp : Repo) (annotated : list Commit)
    (names : list string) (c : Commit) (older : list Commit) :
  repos w !! self = Some r →
  repo_log r = annotated ++ c :: older →
  Forall2 (λ commit name,
             Utils.get_patch_annotation (commit_msg commit) = Some name
             ∧ name ≠ "") annotated names →
  Py.truthy (Utils.get_patch_annotation (commit_msg c)) = false →
  repo_config r !! "ply.patchrepo" = Some pr → pr ≠ "" →
  repos w !! pr = Some rp →
  repo_index rp ≠ Git.head_tree rp →
  ∃ w' commit,
    WorkingRepo._commit_to_patch_repo g self msg w = (inr tt, w')
    ∧ log_of pr w' = Some (commit :: repo_log rp)
    ∧ commit_msg commit
      = msg +:+ Py.nl +:+ Py.nl +:+ "Ply-Based-On: "
        +:+ Py.strip (commit_hash c)
    ∧ commit_tree commit = repo_index rp
    ∧ fs w' = fs w
    ∧ ∀ p, p ≠ pr → repos w' !! p = repos w !! p.
Proof.
  intros Hr Hlog Hann Hc Hconfig Hpr Hrp Hstaged.
  unfold WorkingRepo._commit_to_patch_repo.
  rewrite (bind_inr _ _ _ _ _
             (last_upstream_commit_hash_run _ _ _ _ _ _ _ Hr Hlog Hann Hc)).
  rewrite (bind_inr _ _ _ _ _ (patch_repo_run _ _ _ _ Hr Hconfig Hpr)).
  unfold Git.commit, Git.get_repo, Git.put_repo. munfold. rewrite Hrp. simpl.
  rewrite bool_decide_eq_false_2 by done.
  eexists _, _. split; [reflexivity |]. simpl. split.
  { unfold log_of. simpl. by rewrite lookup_insert_eq. }
  split; [done |]. split; [done |].
  split; [done |]. intros p Hp. by rewrite lookup_insert_ne.
Qed.

Lemma commit_to_patch_repo_based_on_witness :
  ∃ w' commit,
    WorkingRepo._commit_to_patch_repo Sample.oracle "/w" "Refreshing patches"
      Sample.staged_world = (inr tt, w')
    ∧ commit_msg commit
      = "Refreshing patches" +:+ Py.nl +:+ Py.nl
        +:+ "Ply-Based-On: #upstream".
Proof.
  pose (r := default (mkRepo [] ∅ false ∅ [])
               (repos Sample.staged_world !! "/w")).
  pose (rp := default (mkRepo [] ∅ false ∅ [])
                (repos Sample.staged_world !! "/p")).
  destruct (commit_to_patch_repo_based_on Sample.oracle "/w" "/p"
              "Refreshing patches" Sample.staged_world r rp
              (take 2 (repo_log r)) ["b.patch"; "a.patch"]
              Sample.upstream [])
    as (w' & commit & Hrun & _ & Hmsg & _);
    [vm_compute; reflexivity | reflexivity | repeat constructor; done
    | reflexivity | reflexivity | discriminate | vm_compute; reflexivity
    | vm_compute; discriminate |].
  exists w', commit. split; [exact Hrun |]. rewrite Hmsg.
  vm_compute. reflexivity.
Defined.

(** ** The consistency check *)

(** X25.  [check] compares the series and the patch files as sets: it
    answers ok, with an empty report, exactly when every name of the series
    is a patch file and every patch file is in the series, whatever the
    order and however often a name is listed; otherwise it answers failed
    with the names of the series that have no file and the files that have
    no entry.  [check_patch_repo] answers the same for the linked patch
    repository. *)
Theorem check_compares_sets (limit : nat) (self : string) (w : World)
    (series names : list string) :
  PatchRepo.series limit self w = (inr series, w) →
  PatchRepo.patch_names self w = (inr names, w) →
  ∃ report,
    PatchRepo.check limit self w = (inr report, w)
    ∧ (report = ("ok", ∅) ↔ ∀ n, n ∈ series ↔ n ∈ names)
    ∧ (report ≠ ("ok", ∅) →
       ∃ no_file no_series_entry : gset string,
         report = ("failed", {[ "no_file" := no_file;
                                "no_series_entry" := no_series_entry ]})
         ∧ (∀ n, n ∈ no_file ↔ n ∈ series ∧ n ∉ names)
         ∧ (∀ n, n ∈ no_series_entry ↔ n ∈ names ∧ n ∉ series))
    ∧ ∀ working,
        WorkingRepo.patch_repo working w = (inr self, w) →
        WorkingRepo.check_patch_repo limit working w = (inr report, w).
Proof.
  intros Hseries Hnames.
  set (S1 := list_to_set series : gset string).
  set (S2 := list_to_set names : gset string).
  assert (PatchRepo.check limit self w
          = (inr (if bool_decide (S1 ∖ S2 = ∅) && bool_decide (S2 ∖ S1 = ∅)
                  then ("ok", ∅)
                  else ("failed", {[ "no_file" := S1 ∖ S2;
                                     "no_series_entry" := S2 ∖ S1 ]})), w))
    as Hcheck.
  { unfold PatchRepo.check.
    rewrite (bind_inr _ _ _ _ _ Hseries), (bind_inr _ _ _ _ _ Hnames).
    fold S1 S2. by destruct (bool_decide _ && bool_decide _). }
  eexists. split; [exact Hcheck |].
  assert (bool_decide (S1 ∖ S2 = ∅) && bool_decide (S2 ∖ S1 = ∅) = true
          ↔ ∀ n, n ∈ series ↔ n ∈ names) as Hiff.
  { rewrite andb_true_iff, !bool_decide_eq_true. unfold S1, S2. split.
    - intros [H1 H2] n. split; intros Hn.
      + destruct (decide (n ∈ names)) as [|Hno]; [done |].
        assert (n ∈ (list_to_set series : gset string) ∖ list_to_set names)
          as Hin by (apply elem_of_difference;
                     rewrite !elem_of_list_to_set; done).
        rewrite H1 in Hin. by apply not_elem_of_empty in Hin.
      + destruct (decide (n ∈ series)) as [|Hno]; [done |].
        assert (n ∈ (list_to_set names : gset string) ∖ list_to_set series)
          as Hin by (apply elem_of_difference;
                     rewrite !elem_of_list_to_set; done).
        rewrite H2 in Hin. by apply not_elem_of_empty in Hin.
    - intros H. split; apply set_eq; intros n;
        rewrite elem_of_difference, !elem_of_list_to_set, H;
        split; [by intros [? ?] | by intros ?%not_elem_of_empty
               | by intros [? ?] | by intros ?%not_elem_of_empty]. }
  split; [| split].
  - rewrite <- Hiff.
    destruct (bool_decide _ && bool_decide _); split; done.
  - intros Hreport.
    destruct (bool_decide _ && bool_decide _); [done |].
    exists (S1 ∖ S2), (S2 ∖ S1). split; [done |].
    unfold S1, S2. split; intros n;
      by rewrite elem_of_difference, !elem_of_list_to_set.
  - intros working Hlinked. unfold WorkingRepo.check_patch_repo.
    by rewrite (bind_inr _ _ _ _ _ Hlinked).
Qed.

Lemma check_compares_sets_witness :
  ∃ report,
    PatchRepo.check 1 "/p" Sample.stray_world
    = (inr report, Sample.stray_world)
    ∧ report ≠ ("ok", ∅).
Proof.
  destruct (check_compares_sets 1 "/p" Sample.stray_world ["a.patch"]
              (match (PatchRepo.patch_names "/p" Sample.stray_world).1 with
               | inr names => names
               | inl _ => []
               end))
    as (report & Hrun & Hok & _);
    [vm_compute; reflexivity | vm_compute; reflexivity |].
  exists report. split; [exact Hrun |]. intros Hreport.
  pose proof (proj1 Hok Hreport "stray.patch") as [_ Hall].
  assert ("stray.patch" ∈ ["a.patch"]) as Hin
    by (apply Hall; vm_compute; apply list_elem_of_In; simpl; tauto).
  apply list_elem_of_In in Hin. simpl in Hin.
  destruct Hin as [H | []]. discriminate.
Defined.

(** ** Adding a patch and removing it again *)

(** X26.  For a patch file that is committed in the patch repository
    without being listed in the series, and whose name is clean (not empty,
    no surrounding white space, no line break): adding it at the head of
    the series and removing it again gives back the series that was there,
    without any commit; the patch file itself does not come back, since
    [remove_patch] deletes it. *)
Theorem add_then_remove (self patch_name : string) (w : World) (r : Repo)
    (entries : list string) (content : string) :
  manifest self w = Some entries →
  repos w !! self = Some r →
  fs w !! PosixPath.join self patch_name = Some content →
  Git.head_tree r !! patch_name = Some content →
  clean patch_name → patch_name ∉ entries →
  PosixPath.join self patch_name ≠ PatchRepo.series_path self →
  ∃ w1 w2,
    PatchRepo.add_patches self [patch_name] None w = (inr tt, w1)
    ∧ manifest self w1 = Some (patch_name :: entries)
    ∧ PatchRepo.remove_patch self patch_name w1 = (inr tt, w2)
    ∧ manifest self w2 = Some entries
    ∧ fs w2 !! PosixPath.join self patch_name = None
    ∧ same_heads w w2.
Proof.
  intros Hmanifest Hr Hfile Hcommitted Hclean Hnew Hpath.
  pose proof (manifest_clean _ _ _ Hmanifest) as Hentries.
  destruct (manifest_Some _ _ _ Hmanifest) as (content0 & Hcontent0 & Hread).
  assert (patch_name ≠ "series") as Hname
    by (intros ->; by apply Hpath).
  set (r1 := set_index (<[patch_name := content]> (repo_index r)) r).
  set (wa := set_repos (<[self := r1]> (repos w)) w).
  set (written := PatchRepo.write_entries (patch_name :: entries)).
  set (wb := set_fs (<[PatchRepo.series_path self := written]> (fs wa)) wa).
  set (r2 := set_index (<["series" := written]> (repo_index r1)) r1).
  set (w1 := set_repos (<[self := r2]> (repos wb)) wb).
  assert (PatchRepo.add_patches self [patch_name] None w = (inr tt, w1))
    as Hadd.
  { unfold PatchRepo.add_patches, PatchRepo._mutate_series_file.
    rewrite (bind_inr _ _ w w content0)
      by (unfold Os.read; by rewrite Hcontent0).
    rewrite <- Hread. simpl.
    rewrite (bind_inr _ _ w wa (patch_name :: entries)).
    2:{ munfold. rewrite (add_run self patch_name w r content Hr Hfile).
        by rewrite (proj2 (mem_false _ _) Hnew). }
    rewrite (bind_inr _ _ wa wb tt) by done.
    apply (add_run self "series" wb r1 written).
    - unfold wb, wa. simpl. by rewrite lookup_insert_eq.
    - unfold wb. simpl. apply lookup_insert_eq. }
  assert (manifest self w1 = Some (patch_name :: entries)) as Hm1.
  { apply manifest_written with (fs w); [done |]. by constructor. }
  assert (repos w1 !! self = Some r2) as Hr2
    by (unfold w1; simpl; apply lookup_insert_eq).
  set (wc := set_fs (delete (PosixPath.join self patch_name) (fs w1))
               (set_repos (<[self := set_index (delete patch_name
                                                  (repo_index r2)) r2]>
                             (repos w1)) w1)).
  assert (Git.rm self patch_name w1 = (inr tt, wc)) as Hrm.
  { apply rm_run with content; [done | | done |].
    - unfold r2, r1. simpl.
      rewrite lookup_insert_ne by done. apply lookup_insert_eq.
    - right. unfold w1, wb, wa. simpl. by rewrite lookup_insert_ne. }
  destruct (mutate_run self
              (λ entries0,
                 match Py.remove patch_name entries0 with
                 | Some entries1 => (mret entries1 : M (list string))
                 | None => raise ValueError
                 end) wc written entries wc)
    as (w2 & Hmutate & Hfs2 & Hrepo2).
  { unfold wc. simpl. rewrite lookup_delete_ne by done.
    apply lookup_insert_eq. }
  { unfold written. rewrite read_write_entries by (by constructor).
    simpl. by rewrite String.eqb_refl. }
  { unfold wc. simpl. rewrite lookup_insert_eq. by eexists. }
  exists w1, w2. split; [exact Hadd |]. split; [exact Hm1 |].
  assert (PatchRepo.remove_patch self patch_name w1 = (inr tt, w2)) as Hrem.
  { unfold PatchRepo.remove_patch. by rewrite (bind_inr _ _ _ _ _ Hrm). }
  split; [exact Hrem |]. split.
  { by apply manifest_written with (fs wc). }
  split.
  { rewrite Hfs2, lookup_insert_ne by done. unfold wc. simpl.
    apply lookup_delete_eq. }
  transitivity w1.
  - pose proof (stable_add_patches self [patch_name] None w) as H.
    by rewrite Hadd in H.
  - pose proof (stable_remove_patch self patch_name w1) as H.
    by rewrite Hrem in H.
Qed.

Lemma add_then_remove_witness :
  ∃ w1 w2,
    PatchRepo.add_patches "/p" ["b.patch"] None Sample.shifted_world
    = (inr tt, w1)
    ∧ PatchRepo.remove_patch "/p" "b.patch" w1 = (inr tt, w2)
    ∧ manifest "/p" w2 = manifest "/p" Sample.shifted_world.
Proof.
  pose (r := default (mkRepo [] ∅ false ∅ [])
               (repos Sample.shifted_world !! "/p")).
  destruct (add_then_remove "/p" "b.patch" Sample.shifted_world r
              ["p.patch"; "x.patch"; "a.patch"] "fix b")
    as (w1 & w2 & Hadd & _ & Hrem & Hm & _);
    [vm_compute; reflexivity | vm_compute; reflexivity
    | vm_compute; reflexivity | vm_compute; reflexivity
    | repeat split; discriminate | |
    | ].
  - intros Hin. apply list_elem_of_In in Hin. simpl in Hin.
    destruct Hin as [H | [H | [H | []]]]; discriminate.
  - vm_compute. discriminate.
  - exists w1, w2. split; [exact Hadd |]. split; [exact Hrem |].
    rewrite Hm. vm_compute. reflexivity.
Defined.

(** ** Saving when there is nothing to save *)

(** X27.  When the export of [save] produces no patch file, the loop that
    names the patches never binds a patch name and [save] raises NameError
    while building its commit message: after the series has been rewritten
    by [_store_patch_files], and before anything is committed or reset.
    No history, reflog or configuration has changed since the export. *)
Theorem save_nothing_to_save (g : GitOracle) (limit : nat) (self pr : string)
    (since : string) (prefix parent : option string) (w w1 w2 : World) :
  Git.uncommitted_changes self w = (inr false, w) →
  WorkingRepo.patch_repo self w = (inr pr, w) →
  Git.uncommitted_changes pr w = (inr false, w) →
  Py.contains ".." since = false →
  WorkingRepo._create_patches g self since w = (inr ([], parent), w1) →
  WorkingRepo._store_patch_files self [] [] parent w1 = (inr tt, w2) →
  WorkingRepo.save g limit self since prefix w = (inl NameError, w2)
  ∧ same_heads w1 w2.
Proof.
  intros Hclean Hlinked Hclean' Hsince Hcreate Hstore. split.
  - unfold WorkingRepo.save.
    rewrite (bind_inr _ _ _ _ _ Hclean). simpl.
    rewrite (bind_inr _ _ w w false)
      by (by rewrite (bind_inr _ _ _ _ _ Hlinked)).
    simpl. rewrite Hsince.
    rewrite (bind_inr _ _ _ _ _ Hcreate). simpl.
    rewrite (bind_inr _ _ w1 w1 ([], None)) by done. simpl.
    by rewrite (bind_inr _ _ _ _ _ Hstore).
  - pose proof (stable_store_patch_files self [] [] parent w1) as H.
    by rewrite Hstore in H.
Qed.

Lemma save_nothing_to_save_witness :
  ∃ w2, WorkingRepo.save Sample.oracle 1 "/w" "HEAD" None
          Sample.shifted_world = (inl NameError, w2).
Proof.
  exists (WorkingRepo._store_patch_files "/w" [] [] None
            Sample.shifted_world).2.
  apply (save_nothing_to_save Sample.oracle 1 "/w" "/p" "HEAD" None None
           Sample.shifted_world Sample.shifted_world);
    vm_compute; reflexivity.
Defined.

(** ** Removing an entry of the series file *)

(** X28.  Take a name that is an entry of the series file itself (not a
    name contributed by an inclusion), and let [rm] accept to remove its
    patch file.  Then [remove_patch] succeeds: the patch file is gone, the
    series file is rewritten with the first occurrence of the name taken
    out and the other entries in their order, and nothing is committed.
    When the name was listed once and the remaining entries hold no
    inclusion directive, [series] answers the remaining entries, which do
    not contain the name. *)
Theorem remove_patch_entry (self patch_name : string) (w w1 : World)
    (entries : list string) :
  manifest self w = Some entries →
  Git.rm self patch_name w = (inr tt, w1) →
  PosixPath.join self patch_name ≠ PatchRepo.series_path self →
  patch_name ∈ entries →
  ∃ w' pre post,
    PatchRepo.remove_patch self patch_name w = (inr tt, w')
    ∧ entries = pre ++ patch_name :: post ∧ (patch_name ∉ pre)
    ∧ fs w' = <[PatchRepo.series_path self
                 := PatchRepo.write_entries (pre ++ post)]>
                (delete (PosixPath.join self patch_name) (fs w))
    ∧ manifest self w' = Some (pre ++ post)
    ∧ same_heads w w'
    ∧ ((patch_name ∉ post) →
       Forall (λ e, Py.startswith "-i " e = false) (pre ++ post) →
       (patch_name ∉ pre ++ post)
       ∧ ∀ limit,
           PatchRepo.series (S limit) self w' = (inr (pre ++ post), w')).
Proof.
  intros Hman Hrm Hpath Hin.
  pose proof (manifest_clean _ _ _ Hman) as Hclean.
  destruct (manifest_after_rm _ _ _ _ _ Hrm Hman Hpath)
    as (Hman1 & Hfs1 & Hrepo1).
  destruct (manifest_Some _ _ _ Hman1) as (content & Hfile1 & Hentries).
  destruct (remove_Some patch_name entries Hin)
    as (pre & post & Hsplit & Hpre & Hremove).
  edestruct (mutate_run self
               (λ entries0, match Py.remove patch_name entries0 with
                            | Some entries1 =>
                                (mret entries1 : M (list string))
                            | None => raise ValueError
                            end) w1 content (pre ++ post) w1)
    as (w' & Hrun & Hfs' & _); [done | by rewrite <- Hentries, Hremove
                               | done |].
  assert (Forall clean (pre ++ post)) as Hclean'.
  { rewrite Hsplit in Hclean. apply Forall_app in Hclean as [H1 H2].
    apply Forall_cons in H2 as [_ H2]. by apply Forall_app. }
  assert (PatchRepo.remove_patch self patch_name w = (inr tt, w')) as Hrem.
  { unfold PatchRepo.remove_patch. by rewrite (bind_inr _ _ _ _ _ Hrm). }
  exists w', pre, post. split; [exact Hrem |].
  split; [done |]. split; [done |]. split; [by rewrite Hfs', Hfs1 |].
  split; [by eapply manifest_written |]. split.
  { pose proof (stable_remove_patch self patch_name w) as H.
    by rewrite Hrem in H. }
  intros Hpost Hflat. split.
  { intros [H | H]%elem_of_app; [by apply Hpre | by apply Hpost]. }
  intros limit.
  erewrite series_flat; [| rewrite Hfs'; apply lookup_insert_eq |].
  - rewrite file_lines_write_entries.
    + f_equal. f_equal. rewrite map_map.
      rewrite <- (map_id (pre ++ post)) at 2. apply map_ext_Forall.
      eapply Forall_impl; [exact Hclean' |].
      intros x (_ & Hx & _). by rewrite strip_line_of.
    + eapply Forall_impl; [exact Hclean' |]. by intros x (_ & _ & ?).
  - rewrite file_lines_write_entries.
    + apply Forall_map. apply Forall_forall. intros x Hx. simpl.
      rewrite strip_line_of.
      eapply Forall_forall in Hclean' as (_ & -> & _); [| done].
      by eapply Forall_forall in Hflat.
    + eapply Forall_impl; [exact Hclean' |]. by intros x (_ & _ & ?).
Qed.

Lemma remove_patch_entry_witness :
  ∃ w', PatchRepo.remove_patch "/p" "x.patch" Sample.shifted_world
        = (inr tt, w')
        ∧ manifest "/p" w' = Some ["p.patch"; "a.patch"].
Proof.
  destruct (remove_patch_entry "/p" "x.patch" Sample.shifted_world
              (Git.rm "/p" "x.patch" Sample.shifted_world).2
              ["p.patch"; "x.patch"; "a.patch"])
    as (w' & pre & post & Hrun & _).
  - vm_compute. reflexivity.
  - vm_compute. reflexivity.
  - vm_compute. discriminate.
  - apply list_elem_of_In. simpl. tauto.
  - exists w'. split; [exact Hrun |].
    assert (w' = (PatchRepo.remove_patch "/p" "x.patch"
                    Sample.shifted_world).2) as -> by (by rewrite Hrun).
    vm_compute. reflexivity.
Defined.
